(** * mygram client: UTF-8 codec, n-gram engine and search-expression compiler

    Shallow embedding of [src/string_utils.cpp],
    [src/search_expression.cpp], [EscapeQueryString] of
    [src/mygramclient.cpp] and [src/network_utils.cpp], followed by the
    properties established about them.

    Conventions of the embedding
    - [std::string] / [std::string_view] is [string]; a [char] read as
      [unsigned char] is the [N] given by [N_of_ascii].
    - [uint32_t] codepoints are [N]; no codec operation leaves 32 bits.
    - [int] parameters are [Z]; [size_t] is 64 bits wide and the
      conversions and additions that may wrap are written out.
    - indices into strings and vectors are [nat].
    - loops that are not structural carry a fuel argument.
    - an exception that leaves a function is the outcome [Throws]. *)

From Stdlib Require Import Bool Arith NArith ZArith Lia List Ascii String.
Import ListNotations.

#[local] Open Scope string_scope.

(* [lia] is to reason about quotients and remainders by constants. *)
Ltac Zify.zify_post_hook ::= Z.to_euclidean_division_equations.

(** ** Common helpers for C++ strings *)

(** [s[i]] read as [unsigned char]. *)
Definition byte_at (s : string) (i : nat) : N :=
  match String.get i s with
  | Some c => N_of_ascii c
  | None => 0%N
  end.

(** [s[i]] as a [char]. *)
Definition char_at (s : string) (i : nat) : ascii :=
  match String.get i s with
  | Some c => c
  | None => zero
  end.

(** [static_cast<char>(x)] for an unsigned [x]: the low eight bits. *)
Definition to_char (x : N) : ascii := ascii_of_N (x mod 256).

(** [s.empty()] *)
Definition empty (s : string) : bool :=
  match s with
  | EmptyString => true
  | String _ _ => false
  end.

(** ** string_utils.cpp *)

Module string_utils.

#[local] Open Scope N_scope.

(* UTF-8 byte masks and patterns *)
Definition kUtf8OneByteMask : N := 0x80.
Definition kUtf8TwoByteMask : N := 0xE0.
Definition kUtf8TwoBytePattern : N := 0xC0.
Definition kUtf8ThreeByteMask : N := 0xF0.
Definition kUtf8ThreeBytePattern : N := 0xE0.
Definition kUtf8FourByteMask : N := 0xF8.
Definition kUtf8FourBytePattern : N := 0xF0.

(* UTF-8 continuation byte masks *)
Definition kUtf8ContinuationMask : N := 0x3F.
Definition kUtf8ContinuationPattern : N := 0x80.

(* UTF-8 data extraction masks *)
Definition kUtf8TwoByteDatMask : N := 0x1F.
Definition kUtf8ThreeByteDatMask : N := 0x0F.
Definition kUtf8FourByteDatMask : N := 0x07.

(* UTF-8 bit shift amounts *)
Definition kUtf8Shift6 : N := 6.
Definition kUtf8Shift12 : N := 12.
Definition kUtf8Shift18 : N := 18.

(* Unicode codepoint ranges *)
Definition kUnicodeMaxOneByte : N := 0x7F.
Definition kUnicodeMaxTwoByte : N := 0x7FF.
Definition kUnicodeMaxThreeByte : N := 0xFFFF.
Definition kUnicodeMaxCodepoint : N := 0x10FFFF.

(* CJK Ideograph ranges (Kanji) *)
Definition kCjkMainStart : N := 0x4E00.
Definition kCjkMainEnd : N := 0x9FFF.
Definition kCjkExtAStart : N := 0x3400.
Definition kCjkExtAEnd : N := 0x4DBF.
Definition kCjkExtBStart : N := 0x20000.
Definition kCjkExtBEnd : N := 0x2A6DF.
Definition kCjkExtCStart : N := 0x2A700.
Definition kCjkExtCEnd : N := 0x2B73F.
Definition kCjkExtDStart : N := 0x2B740.
Definition kCjkExtDEnd : N := 0x2B81F.
Definition kCjkCompatStart : N := 0xF900.
Definition kCjkCompatEnd : N := 0xFAFF.

(** Number of bytes of a UTF-8 character, from its first byte. *)
Definition Utf8CharLength (first_byte : N) : nat :=
  if N.land first_byte kUtf8OneByteMask =? 0 then 1%nat
  else if N.land first_byte kUtf8TwoByteMask =? kUtf8TwoBytePattern then 2%nat
  else if N.land first_byte kUtf8ThreeByteMask =? kUtf8ThreeBytePattern
  then 3%nat
  else if N.land first_byte kUtf8FourByteMask =? kUtf8FourBytePattern then 4%nat
  else 1%nat.

(** The codepoint assembled from the [char_len] bytes at [i]; the caller
    has checked that they are inside [text]. *)
Definition AssembleCodepoint (text : string) (i : nat) (char_len : nat) : N :=
  let first_byte := byte_at text i in
  match char_len with
  | 1%nat => first_byte
  | 2%nat =>
      N.lor (N.shiftl (N.land first_byte kUtf8TwoByteDatMask) kUtf8Shift6)
            (N.land (byte_at text (i + 1)) kUtf8ContinuationMask)
  | 3%nat =>
      N.lor (N.lor
        (N.shiftl (N.land first_byte kUtf8ThreeByteDatMask) kUtf8Shift12)
        (N.shiftl (N.land (byte_at text (i + 1)) kUtf8ContinuationMask) kUtf8Shift6))
        (N.land (byte_at text (i + 2)) kUtf8ContinuationMask)
  | 4%nat =>
      N.lor (N.lor (N.lor
        (N.shiftl (N.land first_byte kUtf8FourByteDatMask) kUtf8Shift18)
        (N.shiftl (N.land (byte_at text (i + 1)) kUtf8ContinuationMask) kUtf8Shift12))
        (N.shiftl (N.land (byte_at text (i + 2)) kUtf8ContinuationMask) kUtf8Shift6))
        (N.land (byte_at text (i + 3)) kUtf8ContinuationMask)
  | _ => 0
  end.

(** The [for (size_t i = 0; i < text.size();)] loop of [Utf8ToCodepoints],
    entered at index [i].  Every iteration advances [i], so
    [String.length text - i] iterations are enough. *)
Fixpoint Utf8ToCodepoints_loop (text : string) (fuel : nat) (i : nat) : list N :=
  match fuel with
  | O => []
  | S fuel' =>
      if (i <? String.length text)%nat then
        let first_byte := byte_at text i in
        let char_len := Utf8CharLength first_byte in
        if (String.length text <? i + char_len)%nat then
          (* Incomplete UTF-8 sequence, skip *)
          Utf8ToCodepoints_loop text fuel' (i + 1)
        else
          AssembleCodepoint text i char_len
            :: Utf8ToCodepoints_loop text fuel' (i + char_len)
      else []
  end.

Definition Utf8ToCodepoints (text : string) : list N :=
  Utf8ToCodepoints_loop text (String.length text) 0.

(** What one iteration of the loop of [CodepointsToUtf8] appends to
    [result]. *)
Definition EncodeCodepoint (codepoint : N) : string :=
  let continuation (bits : N) : ascii :=
    to_char (N.lor kUtf8ContinuationPattern (N.land bits kUtf8ContinuationMask)) in
  if codepoint <=? kUnicodeMaxOneByte then
    String (to_char codepoint) ""
  else if codepoint <=? kUnicodeMaxTwoByte then
    String (to_char (N.lor kUtf8TwoBytePattern (N.shiftr codepoint kUtf8Shift6)))
   (String (continuation codepoint)
    "")
  else if codepoint <=? kUnicodeMaxThreeByte then
    String (to_char (N.lor kUtf8ThreeBytePattern (N.shiftr codepoint kUtf8Shift12)))
   (String (continuation (N.shiftr codepoint kUtf8Shift6))
   (String (continuation codepoint)
    ""))
  else if codepoint <=? kUnicodeMaxCodepoint then
    String (to_char (N.lor kUtf8FourBytePattern (N.shiftr codepoint kUtf8Shift18)))
   (String (continuation (N.shiftr codepoint kUtf8Shift12))
   (String (continuation (N.shiftr codepoint kUtf8Shift6))
   (String (continuation codepoint)
    "")))
  else "".

Fixpoint CodepointsToUtf8 (codepoints : list N) : string :=
  match codepoints with
  | [] => ""
  | codepoint :: rest => EncodeCodepoint codepoint ++ CodepointsToUtf8 rest
  end.

(** *** Integer conversions *)

(** [size_t] is an unsigned 64-bit type. *)
Definition kSizeModulus : Z := 2 ^ 64.

(** Conversion of an [int] to [size_t]. *)
Definition size_t_of_int (n : Z) : Z := (n mod kSizeModulus)%Z.

(** [a + b] in [size_t]. *)
Definition size_t_add (a b : Z) : Z := ((a + b) mod kSizeModulus)%Z.

(** [a - b] in [size_t]. *)
Definition size_t_sub (a b : Z) : Z := ((a - b) mod kSizeModulus)%Z.

(** The vector built from [codepoints[i]], ..., [codepoints[i + n - 1]]. *)
Definition Window (codepoints : list N) (i : nat) (n : nat) : list N :=
  map (fun j => nth (i + j) codepoints 0) (seq 0 n).

Definition GenerateNgrams (text : string) (n : Z) : list string :=
  let codepoints := Utf8ToCodepoints text in
  let size := Z.of_nat (List.length codepoints) in
  let is_empty := match codepoints with [] => true | _ :: _ => false end in
  if (is_empty || (n <=? 0)%Z)%bool then []
  else if (n =? 1)%Z then
    (* For n=1 (unigrams), just return each character *)
    map (fun codepoint => CodepointsToUtf8 [codepoint]) codepoints
  else if (size <? size_t_of_int n)%Z then []
  else
    map (fun i =>
           CodepointsToUtf8
             (firstn (Z.to_nat (size_t_add (Z.of_nat i) (size_t_of_int n)) - i)
                     (skipn i codepoints)))
        (seq 0 (Z.to_nat (size_t_sub size (size_t_of_int n)) + 1)).

(** Check if codepoint is CJK Ideograph (Kanji only, excluding
    Hiragana/Katakana). *)
Definition IsCJKIdeograph (codepoint : N) : bool :=
  ((kCjkMainStart <=? codepoint) && (codepoint <=? kCjkMainEnd)) ||
  ((kCjkExtAStart <=? codepoint) && (codepoint <=? kCjkExtAEnd)) ||
  ((kCjkExtBStart <=? codepoint) && (codepoint <=? kCjkExtBEnd)) ||
  ((kCjkExtCStart <=? codepoint) && (codepoint <=? kCjkExtCEnd)) ||
  ((kCjkExtDStart <=? codepoint) && (codepoint <=? kCjkExtDEnd)) ||
  ((kCjkCompatStart <=? codepoint) && (codepoint <=? kCjkCompatEnd)).

(** *** Exceptions

    [GenerateHybridNgrams] catches nothing: what [reserve] throws leaves
    the function. *)
Inductive exception : Type :=
  | length_error.   (* std::length_error *)

Inductive Outcome (A : Type) : Type :=
  | Returns (a : A)
  | Throws (e : exception).

Arguments Returns {A} a.
Arguments Throws {A} e.

(** [std::vector<uint32_t>::max_size()]: [PTRDIFF_MAX / sizeof(uint32_t)]. *)
Definition kVectorMaxSize : Z := 2 ^ 61 - 1.

(** [ngram_codepoints.reserve(n)] on the fresh vector, for an [int n]
    that is converted to [size_type]: it throws [std::length_error] when
    the converted value is above [max_size()]. *)
Definition reserve (n : Z) : Outcome unit :=
  if (kVectorMaxSize <? size_t_of_int n)%Z then Throws length_error
  else Returns tt.

(** Body of the loop of [GenerateHybridNgrams] at position [i]: the
    n-grams it pushes (none or one), unless [reserve] throws. *)
Definition HybridStep (codepoints : list N) (ascii_ngram_size kanji_ngram_size : Z)
    (i : nat) : Outcome (list string) :=
  let codepoint := nth i codepoints 0 in
  let size := Z.of_nat (List.length codepoints) in
  if IsCJKIdeograph codepoint then
    (* CJK character: use kanji_ngram_size *)
    if (size_t_add (Z.of_nat i) (size_t_of_int kanji_ngram_size) <=? size)%Z then
      let all_cjk :=
        forallb (fun j => IsCJKIdeograph (nth (i + j) codepoints 0))
                (seq 0 (Z.to_nat kanji_ngram_size)) in
      if all_cjk then
        match reserve kanji_ngram_size with
        | Throws e => Throws e
        | Returns _ =>
            Returns
              [CodepointsToUtf8 (Window codepoints i (Z.to_nat kanji_ngram_size))]
        end
      else Returns []
    else Returns []
  else
    (* Non-CJK character: use ascii_ngram_size *)
    if (size_t_add (Z.of_nat i) (size_t_of_int ascii_ngram_size) <=? size)%Z then
      let all_non_cjk :=
        forallb (fun j => negb (IsCJKIdeograph (nth (i + j) codepoints 0)))
                (seq 0 (Z.to_nat ascii_ngram_size)) in
      if all_non_cjk then
        match reserve ascii_ngram_size with
        | Throws e => Throws e
        | Returns _ =>
            Returns
              [CodepointsToUtf8 (Window codepoints i (Z.to_nat ascii_ngram_size))]
        end
      else Returns []
    else Returns [].

(** The loop of [GenerateHybridNgrams] over the positions that are left,
    with the n-grams pushed so far. *)
Fixpoint GenerateHybridNgrams_loop (codepoints : list N)
    (ascii_ngram_size kanji_ngram_size : Z) (positions : list nat)
    (ngrams : list string) : Outcome (list string) :=
  match positions with
  | [] => Returns ngrams
  | i :: rest =>
      match HybridStep codepoints ascii_ngram_size kanji_ngram_size i with
      | Throws e => Throws e
      | Returns pushed =>
          GenerateHybridNgrams_loop codepoints ascii_ngram_size kanji_ngram_size
            rest (ngrams ++ pushed)
      end
  end.

Definition GenerateHybridNgrams (text : string)
    (ascii_ngram_size kanji_ngram_size : Z) : Outcome (list string) :=
  let ngrams := [] in
  let codepoints := Utf8ToCodepoints text in
  match codepoints with
  | [] => Returns ngrams
  | _ =>
      GenerateHybridNgrams_loop codepoints ascii_ngram_size kanji_ngram_size
        (seq 0 (List.length codepoints)) ngrams
  end.

(** [std::tolower] of <cctype> in the "C" locale, on an [unsigned char]. *)
Definition tolower (c : N) : N :=
  if (65 <=? c) && (c <=? 90) then c + 32 else c.

(** [std::transform(s.begin(), s.end(), s.begin(), f)] *)
Fixpoint transform (f : ascii -> ascii) (s : string) : string :=
  match s with
  | EmptyString => EmptyString
  | String c rest => String (f c) (transform f rest)
  end.

(** The lambda [[](unsigned char c) { return std::tolower(c); }], its
    result stored into a [char]. *)
Definition lower_char (c : ascii) : ascii := to_char (tolower (N_of_ascii c)).

(** [NormalizeText] as it is built without [USE_ICU]: simple lowercasing
    only; [nfkc] and [width] are not used. *)
Definition NormalizeText (text : string) (nfkc : bool) (width : string)
    (lower : bool) : string :=
  let result := text in
  if lower then transform lower_char result else result.

End string_utils.

(** ** utils/error.h and utils/expected.h *)

(** The query-parsing family of [ErrorCode] (3000-3999) and [kSuccess];
    the search-expression parser raises [kQuerySyntaxError] only. *)
Inductive ErrorCode : Type :=
  | kSuccess
  | kQuerySyntaxError
  | kQueryInvalidToken
  | kQueryUnexpectedToken
  | kQueryMissingOperand
  | kQueryInvalidOperator
  | kQueryTooLong
  | kQueryInvalidFilter
  | kQueryInvalidSort
  | kQueryInvalidLimit
  | kQueryInvalidOffset
  | kQueryExpressionParseError
  | kQueryASTBuildError.

Record Error : Type := mkError {
  code_ : ErrorCode;
  message_ : string;
  context_ : string
}.

(** [MakeError(code, message)] *)
Definition MakeError (code : ErrorCode) (message : string) : Error :=
  {| code_ := code; message_ := message; context_ := "" |}.

(** [Expected<T, E>]: a value or an error. *)
Inductive Expected (T E : Type) : Type :=
  | Value (v : T)
  | Unexpected (e : E).
Arguments Value {T E} v.
Arguments Unexpected {T E} e.

(** [MakeUnexpected(error)] *)
Definition MakeUnexpected {T E : Type} (e : E) : Expected T E := Unexpected e.

(** ** search_expression.cpp *)

Module search_expression.

#[local] Open Scope nat_scope.

(* UTF-8 byte sequence for full-width space (U+3000) *)
Definition kFullWidthSpaceByte1 : N := 0xE3.
Definition kFullWidthSpaceByte2 : N := 0x80.
Definition kFullWidthSpaceByte3 : N := 0x80.

(** [std::isspace] and [std::isalnum] of <cctype> in the "C" locale. *)
Definition isspace (c : N) : bool :=
  ((c =? 32) || ((9 <=? c) && (c <=? 13)))%N.

Definition isalnum (c : N) : bool :=
  (((48 <=? c) && (c <=? 57)) || ((65 <=? c) && (c <=? 90)) ||
   ((97 <=? c) && (c <=? 122)))%N.

Definition dquote : ascii := "034"%char.
Definition backslash : ascii := "092"%char.

(** Check if character sequence is full-width space (U+3000). *)
Definition IsFullWidthSpace (str : string) (pos : nat) : bool :=
  if String.length str <=? pos + 2 then false
  else
    (byte_at str pos =? kFullWidthSpaceByte1)%N &&
    (byte_at str (pos + 1) =? kFullWidthSpaceByte2)%N &&
    (byte_at str (pos + 2) =? kFullWidthSpaceByte3)%N.

Inductive TokenType : Type :=
  | kTerm        (* Regular term *)
  | kQuotedTerm  (* "quoted phrase" *)
  | kPlus        (* + prefix *)
  | kMinus       (* - prefix *)
  | kOr          (* OR operator *)
  | kLParen      (* ( *)
  | kRParen      (* ) *)
  | kEnd.        (* End of input *)

Definition TokenType_eqb (a b : TokenType) : bool :=
  match a, b with
  | kTerm, kTerm | kQuotedTerm, kQuotedTerm | kPlus, kPlus | kMinus, kMinus
  | kOr, kOr | kLParen, kLParen | kRParen, kRParen | kEnd, kEnd => true
  | _, _ => false
  end.

Record Token : Type := mkToken {
  type : TokenType;
  value : string
}.

(** [s + c] / [s += c] for a single [char]. *)
Definition push_back (s : string) (c : ascii) : string := s ++ String c "".

(** *** Tokenizer

    The tokenizer owns a reference to the input and the cursor [pos_];
    its methods take the cursor and return the new one. *)
Section Tokenizer.

Variable input_ : string.

(** The [while (pos_ < input_.size())] loop of [SkipWhitespace]. *)
Fixpoint SkipWhitespace_loop (fuel : nat) (pos_ : nat) : nat :=
  match fuel with
  | O => pos_
  | S fuel' =>
      if pos_ <? String.length input_ then
        if IsFullWidthSpace input_ pos_ then
          SkipWhitespace_loop fuel' (pos_ + 3)
        else if isspace (byte_at input_ pos_) then
          SkipWhitespace_loop fuel' (pos_ + 1)
        else pos_
      else pos_
  end.

Definition SkipWhitespace (pos_ : nat) : nat :=
  SkipWhitespace_loop (String.length input_ - pos_) pos_.

(** Characters at which a bare term stops. *)
Definition is_term_stop (current_char : ascii) : bool :=
  isspace (N_of_ascii current_char) ||
  (current_char =? "+")%char || (current_char =? "-")%char ||
  (current_char =? "(")%char || (current_char =? ")")%char ||
  (current_char =? dquote)%char.

Fixpoint ReadTerm_loop (fuel : nat) (term : string) (pos_ : nat)
    : string * nat :=
  match fuel with
  | O => (term, pos_)
  | S fuel' =>
      if pos_ <? String.length input_ then
        if IsFullWidthSpace input_ pos_ then (term, pos_)
        else
          let current_char := char_at input_ pos_ in
          if is_term_stop current_char then (term, pos_)
          else ReadTerm_loop fuel' (push_back term current_char) (pos_ + 1)
      else (term, pos_)
  end.

Definition ReadTerm (pos_ : nat) : string * nat :=
  ReadTerm_loop (String.length input_ - pos_) "" pos_.

Fixpoint ReadQuotedString_loop (fuel : nat) (term : string) (pos_ : nat)
    : string * nat :=
  match fuel with
  | O => (term, pos_)
  | S fuel' =>
      if pos_ <? String.length input_ then
        let current_char := char_at input_ pos_ in
        if (current_char =? dquote)%char then
          (term, pos_ + 1)                       (* Skip closing quote *)
        else if (current_char =? backslash)%char
                && (pos_ + 1 <? String.length input_) then
          (* Handle escaped characters *)
          ReadQuotedString_loop fuel'
            (push_back term (char_at input_ (pos_ + 1))) (pos_ + 1 + 1)
        else
          ReadQuotedString_loop fuel' (push_back term current_char) (pos_ + 1)
      else (term, pos_)                          (* Unclosed quote *)
  end.

Definition ReadQuotedString (pos_ : nat) : string * nat :=
  if (String.length input_ <=? pos_)
     || negb (char_at input_ pos_ =? dquote)%char
  then ("", pos_)
  else ReadQuotedString_loop (String.length input_ - (pos_ + 1)) "" (pos_ + 1).

(** [Tokenizer::Next]: the next token and the cursor after it. *)
Definition Next (pos0 : nat) : Token * nat :=
  let pos_ := SkipWhitespace pos0 in
  if String.length input_ <=? pos_ then (mkToken kEnd "", pos_)
  else
    let current_char := char_at input_ pos_ in
    if (current_char =? dquote)%char then
      let '(quoted, pos') := ReadQuotedString pos_ in
      (mkToken kQuotedTerm quoted, pos')
    else if (current_char =? "+")%char then (mkToken kPlus "", pos_ + 1)
    else if (current_char =? "-")%char then (mkToken kMinus "", pos_ + 1)
    else if (current_char =? "(")%char then (mkToken kLParen "", pos_ + 1)
    else if (current_char =? ")")%char then (mkToken kRParen "", pos_ + 1)
    else
      let is_whole_word :=
        negb ((0 <? pos_) && isalnum (byte_at input_ (pos_ - 1))) &&
        negb ((pos_ + 2 <? String.length input_)
              && isalnum (byte_at input_ (pos_ + 2))) in
      if (pos_ + 2 <=? String.length input_)
         && (String.substring pos_ 2 input_ =? "OR")%string
         && is_whole_word
      then (mkToken kOr "OR", pos_ + 2)
      else
        let '(term, pos') := ReadTerm pos_ in
        (mkToken kTerm term, pos').

End Tokenizer.

(** *** SearchExpression *)

Record SearchExpression : Type := mkSearchExpression {
  required_terms : list string;   (* Terms with + prefix (AND) *)
  excluded_terms : list string;   (* Terms with - prefix (NOT) *)
  optional_terms : list string;   (* Terms without prefix *)
  raw_expression : string         (* Original expression for OR/grouping *)
}.

Definition empty_expression : SearchExpression :=
  mkSearchExpression [] [] [] "".

(** [expr.required_terms.push_back(term)] *)
Definition push_required (expr : SearchExpression) (term : string) :=
  mkSearchExpression (required_terms expr ++ [term])%list (excluded_terms expr)
                     (optional_terms expr) (raw_expression expr).

(** [expr.excluded_terms.push_back(term)] *)
Definition push_excluded (expr : SearchExpression) (term : string) :=
  mkSearchExpression (required_terms expr) (excluded_terms expr ++ [term])%list
                     (optional_terms expr) (raw_expression expr).

(** [if (!raw_expression.empty()) raw_expression += " ";
     raw_expression += fragment;] *)
Definition append_raw (expr : SearchExpression) (fragment : string) :=
  let raw := raw_expression expr in
  mkSearchExpression (required_terms expr) (excluded_terms expr)
                     (optional_terms expr)
                     ((if empty raw then raw else raw ++ " ") ++ fragment).

(** *** Parser

    The parser owns the tokenizer (its cursor), the current token and
    [last_pos_]. *)
Record Parser : Type := mkParser {
  tokenizer_pos : nat;
  current_ : Token;
  last_pos_ : nat
}.

(** A parser method: a transformer of the parser state that returns a
    value, or [None] when its loops are given too little fuel. *)
Definition M (A : Type) : Type := Parser -> option (A * Parser).

Definition ret {A : Type} (a : A) : M A := fun p => Some (a, p).

Definition bind {A B : Type} (c : M A) (k : A -> M B) : M B :=
  fun p =>
    match c p with
    | Some (a, p') => k a p'
    | None => None
    end.

Definition out_of_fuel {A : Type} : M A := fun _ => None.

Notation "x <- c ;; k" := (bind c (fun x => k))
  (at level 61, c at next level, right associativity).
Notation "c ;;; k" := (bind c (fun _ => k))
  (at level 61, right associativity).

(** Quoted terms are written back with their quotes. *)
Definition quoted (s : string) : string := String dquote (push_back s dquote).

Section Parser.

Variable input_ : string.

Definition current : M Token := fun p => Some (current_ p, p).

Definition set_current (tok : Token) : M unit :=
  fun p => Some (tt, mkParser (tokenizer_pos p) tok (last_pos_ p)).

Definition GetPosition : M nat := fun p => Some (tokenizer_pos p, p).

Definition SetPosition (pos : nat) : M unit :=
  fun p => Some (tt, mkParser pos (current_ p) (last_pos_ p)).

Definition Advance : M unit :=
  fun p =>
    let last := tokenizer_pos p in
    let '(tok, pos') := Next input_ (tokenizer_pos p) in
    Some (tt, mkParser pos' tok last).

(** The [do ... while (depth > 0)] loop of [CaptureParenExpression] and
    the [Advance] that follows it. *)
Fixpoint CaptureParen_loop (fuel : nat) (oss : string) (depth : Z) : M string :=
  match fuel with
  | O => out_of_fuel
  | S fuel' =>
      tok <- current ;;
      match type tok with
      | kEnd => ret ""                            (* Unbalanced *)
      | ty =>
          let depth' :=
            match ty with
            | kLParen => (depth + 1)%Z
            | kRParen => (depth - 1)%Z
            | _ => depth
            end in
          let oss' :=
            match ty with
            | kLParen => oss ++ "("
            | kRParen => oss ++ ")"
            | kTerm => oss ++ value tok
            | kQuotedTerm => oss ++ quoted (value tok)
            | kOr => oss ++ " OR "
            | kPlus => oss ++ "+"
            | kMinus => oss ++ "-"
            | kEnd => oss
            end in
          if (0 <? depth')%Z then
            Advance ;;; CaptureParen_loop fuel' oss' depth'
          else
            Advance ;;; ret oss'                  (* Skip closing paren *)
      end
  end.

Definition CaptureParenExpression (fuel : nat) : M string :=
  tok <- current ;;
  if negb (TokenType_eqb (type tok) kLParen) then ret ""
  else CaptureParen_loop fuel "" 0%Z.

(** The [while (current_.type == TokenType::kOr)] loop of
    [CaptureOrExpression]. *)
Fixpoint CaptureOr_loop (fuel : nat) (oss : string) : M string :=
  match fuel with
  | O => out_of_fuel
  | S fuel' =>
      tok <- current ;;
      if TokenType_eqb (type tok) kOr then
        let oss := oss ++ " OR " in
        Advance ;;;
        tok <- current ;;
        match type tok with
        | kTerm => Advance ;;; CaptureOr_loop fuel' (oss ++ value tok)
        | kQuotedTerm => Advance ;;; CaptureOr_loop fuel' (oss ++ quoted (value tok))
        | kLParen =>
            paren <- CaptureParenExpression fuel' ;;
            if empty paren then ret ""            (* Error *)
            else CaptureOr_loop fuel' (oss ++ paren)
        | _ => ret ""                            (* Error: expected term after OR *)
        end
      else ret oss
  end.

Definition CaptureOrExpression (fuel : nat) : M string :=
  tok <- current ;;
  (* Capture first term *)
  let oss :=
    if TokenType_eqb (type tok) kQuotedTerm then quoted (value tok)
    else value tok in
  Advance ;;;
  (* Capture OR chain *)
  CaptureOr_loop fuel oss.

Definition LooksLikeOrExpression : M bool :=
  (* Save current state *)
  saved_pos <- GetPosition ;;
  saved_current <- current ;;
  (* Look ahead for OR *)
  Advance ;;;
  tok <- current ;;
  let has_or := TokenType_eqb (type tok) kOr in
  (* Restore state *)
  SetPosition saved_pos ;;;
  set_current saved_current ;;;
  ret has_or.

Definition ParsePrefixedTerm (fuel : nat) : M (option string) :=
  tok <- current ;;
  match type tok with
  | kLParen =>
      (* Parenthesized expression after + or - *)
      expr <- CaptureParenExpression fuel ;;
      ret (if empty expr then None else Some expr)
  | kTerm => Advance ;;; ret (Some (value tok))
  | kQuotedTerm => Advance ;;; ret (Some (quoted (value tok)))
  | _ => ret None
  end.

Definition syntax_error (message : string) : Expected SearchExpression Error :=
  MakeUnexpected (MakeError kQuerySyntaxError message).

(** The [while (current_.type != TokenType::kEnd)] loop of [Parse]. *)
Fixpoint Parse_loop (fuel : nat) (expr : SearchExpression)
    : M (Expected SearchExpression Error) :=
  match fuel with
  | O => out_of_fuel
  | S fuel' =>
      tok <- current ;;
      match type tok with
      | kEnd => ret (Value expr)
      | kPlus =>
          Advance ;;;
          term <- ParsePrefixedTerm fuel' ;;
          match term with
          | Some term => Parse_loop fuel' (push_required expr term)
          | None => ret (syntax_error "Expected term after '+'")
          end
      | kMinus =>
          Advance ;;;
          term <- ParsePrefixedTerm fuel' ;;
          match term with
          | Some term => Parse_loop fuel' (push_excluded expr term)
          | None => ret (syntax_error "Expected term after '-'")
          end
      | kLParen =>
          (* Parenthesized expression - capture as raw *)
          paren_expr <- CaptureParenExpression fuel' ;;
          if empty paren_expr then ret (syntax_error "Unbalanced parentheses")
          else Parse_loop fuel' (append_raw expr paren_expr)
      | kTerm | kQuotedTerm =>
          (* Check if this starts an OR expression *)
          is_or <- LooksLikeOrExpression ;;
          if is_or then
            or_expr <- CaptureOrExpression fuel' ;;
            Parse_loop fuel' (append_raw expr or_expr)
          else
            (* Regular term (implicit AND) - add quotes if it was a quoted term *)
            let term :=
              if TokenType_eqb (type tok) kQuotedTerm then quoted (value tok)
              else value tok in
            Advance ;;;
            Parse_loop fuel' (push_required expr term)
      | kOr => ret (syntax_error "Unexpected 'OR' operator")
      | kRParen => ret (syntax_error "Unexpected ')'")
      end
  end.

Definition Parse (fuel : nat) : M (Expected SearchExpression Error) :=
  Parse_loop fuel empty_expression.

(** [Parser(input)]: the state after the constructor's [Advance]. *)
Definition new_Parser : option (unit * Parser) :=
  Advance (mkParser 0 (mkToken kEnd "") 0).

End Parser.

(** The [for] loop over [required_terms] in [ToQueryString], at index [i]. *)
Fixpoint required_loop (terms : list string) (i : nat) (oss : string) : string :=
  match terms with
  | [] => oss
  | term :: rest =>
      required_loop rest (S i) ((if 0 <? i then oss ++ " AND " else oss) ++ term)
  end.

(** One iteration of the loop over [excluded_terms]. *)
Definition excluded_step (oss : string) (term : string) : string :=
  (if negb (empty oss) then oss ++ " AND " else oss) ++ "NOT " ++ term.

Definition ToQueryString (this : SearchExpression) : string :=
  let oss := "" in
  (* Build required terms (AND) - includes all non-prefixed terms *)
  let oss := required_loop (required_terms this) 0 oss in
  (* Add excluded terms (NOT) *)
  let oss := fold_left excluded_step (excluded_terms this) oss in
  (* Add complex expression (raw) - for OR/parentheses *)
  if negb (empty (raw_expression this)) then
    (if negb (empty oss) then oss ++ " AND " else oss)
      ++ "(" ++ raw_expression this ++ ")"
  else oss.

(** Fuel handed to the parser: the input length and two more. *)
Definition parse_fuel (expression : string) : nat :=
  String.length expression + 2.

(** [None] only if the fuel were too small, which [ParseSearchExpression_total]
    excludes. *)
Definition ParseSearchExpression (expression : string)
    : option (Expected SearchExpression Error) :=
  if empty expression then
    Some (MakeUnexpected (MakeError kQuerySyntaxError "Empty search expression"))
  else
    match new_Parser expression with
    | Some (_, parser) =>
        match Parse expression (parse_fuel expression) parser with
        | Some (result, _) => Some result
        | None => None
        end
    | None => None
    end.

Definition ConvertSearchExpression (expression : string)
    : option (Expected string Error) :=
  match ParseSearchExpression expression with
  | Some (Value result) => Some (Value (ToQueryString result))
  | Some (Unexpected e) => Some (MakeUnexpected e)
  | None => None
  end.

(** [SimplifySearchExpression]: the three output references are passed
    in and returned with the flag. *)
Record SimplifyOutputs : Type := mkSimplifyOutputs {
  main_term : string;
  and_terms : list string;
  not_terms : list string
}.

Definition SimplifySearchExpression (expression : string) (out : SimplifyOutputs)
    : option (bool * SimplifyOutputs) :=
  match ParseSearchExpression expression with
  | None => None
  | Some (Unexpected _) => Some (false, out)
  | Some (Value expr) =>
      (* Extract main term - all terms are now in required_terms *)
      match required_terms expr with
      | main :: rest =>
          Some (true, mkSimplifyOutputs main rest (excluded_terms expr))
      | [] => Some (false, out)                   (* No terms found *)
      end
  end.

End search_expression.

Import string_utils.

(** ** mygramclient.cpp *)

Module mygramclient.

(** The characters that make [EscapeQueryString] quote. *)
Definition is_quote_trigger (character : ascii) : bool :=
  (character =? " ")%char || (character =? "009")%char
  || (character =? "010")%char || (character =? "013")%char
  || (character =? search_expression.dquote)%char || (character =? "'")%char.

(** The first loop of [EscapeQueryString]. *)
Fixpoint needs_quotes (str : string) : bool :=
  match str with
  | EmptyString => false
  | String character rest =>
      if is_quote_trigger character then true else needs_quotes rest
  end.

(** The second loop of [EscapeQueryString]. *)
Fixpoint escape_loop (str : string) (result : string) : string :=
  match str with
  | EmptyString => result
  | String character rest =>
      let result :=
        if (character =? search_expression.dquote)%char
           || (character =? search_expression.backslash)%char
        then search_expression.push_back result search_expression.backslash
        else result in
      escape_loop rest (search_expression.push_back result character)
  end.

(** Escape special characters in query strings. *)
Definition EscapeQueryString (str : string) : string :=
  if negb (needs_quotes str) then str
  else
    (* Use double quotes and escape internal quotes *)
    search_expression.push_back
      (escape_loop str (String search_expression.dquote ""))
      search_expression.dquote.

End mygramclient.

(** ** network_utils.cpp *)

Module network_utils.

Definition kIPv4BitCount : Z := 32.

(** [uint32_t] arithmetic, with its wrap-around. *)
Definition kUint32Modulus : N := 2 ^ 32.

Definition shl32 (x : N) (k : Z) : N := (N.shiftl x (Z.to_N k) mod kUint32Modulus)%N.

Definition sub32 (a b : N) : N := ((a + kUint32Modulus - b) mod kUint32Modulus)%N.

Definition not32 (x : N) : N := N.lnot x 32.

(** [str.find(c)]: [None] is [npos]. *)
Fixpoint find (str : string) (c : ascii) : option nat :=
  match str with
  | EmptyString => None
  | String d rest =>
      if (d =? c)%char then Some 0%nat
      else match find rest c with
           | Some pos => Some (S pos)
           | None => None
           end
  end.

Record CIDR : Type := mkCIDR {
  network : N;        (* Network address in host byte order *)
  netmask : N;        (* Network mask in host byte order *)
  prefix_length : Z   (* Prefix length (0-32) *)
}.

Definition CIDR_Contains (this : CIDR) (ip_addr : N) : bool :=
  (N.land ip_addr (netmask this) =? network this)%N.

(** The parsed-list overload of [IsIPAllowed] takes the client address
    from [ParseIPv4]; its loop is over the list. *)
Fixpoint contains_any (client_ip : N) (parsed_allow_cidrs : list CIDR) : bool :=
  match parsed_allow_cidrs with
  | [] => false
  | cidr :: rest =>
      if CIDR_Contains cidr client_ip then true else contains_any client_ip rest
  end.

Section Library.

(** The library functions the file calls: [inet_pton(AF_INET, ...)] gives
    [s_addr], or [None] when its result is not 1; [ntohl]; [std::stoi]
    gives [None] when it throws. *)
Variable inet_pton : string -> option N.
Variable ntohl : N -> N.
Variable stoi : string -> option Z.

Definition ParseIPv4 (ip_str : string) : option N :=
  match inet_pton ip_str with
  | None => None
  | Some s_addr =>
      (* Convert from network byte order to host byte order *)
      Some (ntohl s_addr mod kUint32Modulus)%N
  end.

Definition CIDR_Parse (cidr_str : string) : option CIDR :=
  (* Find '/' separator *)
  match find cidr_str "/" with
  | None => None
  | Some slash_pos =>
      (* Parse IP address part *)
      let ip_part := String.substring 0 slash_pos cidr_str in
      match ParseIPv4 ip_part with
      | None => None
      | Some ip =>
          (* Parse prefix length part *)
          let prefix_str :=
            String.substring (slash_pos + 1)
              (String.length cidr_str - (slash_pos + 1)) cidr_str in
          match stoi prefix_str with
          | None => None
          | Some prefix_length =>
              (* Validate prefix length *)
              if ((prefix_length <? 0) || (kIPv4BitCount <? prefix_length))%Z
              then None
              else
                (* Calculate netmask *)
                let netmask :=
                  if (0 <? prefix_length)%Z
                  then not32 (sub32 (shl32 1 (kIPv4BitCount - prefix_length)) 1)
                  else 0%N in
                (* Calculate network address *)
                let network := N.land ip netmask in
                Some (mkCIDR network netmask prefix_length)
          end
      end
  end.

(** The loop of the string-list overload of [IsIPAllowed]. *)
Fixpoint matches_any (client_ip : N) (allow_cidrs : list string) : bool :=
  match allow_cidrs with
  | [] => false
  | cidr_str :: rest =>
      match CIDR_Parse cidr_str with
      | Some cidr =>
          if CIDR_Contains cidr client_ip then true else matches_any client_ip rest
      | None => matches_any client_ip rest
      end
  end.

Definition IsIPAllowed (ip_str : string) (allow_cidrs : list string) : bool :=
  match allow_cidrs with
  | [] => false                                   (* Fail-closed: deny by default *)
  | _ =>
      (* Parse client IP *)
      match ParseIPv4 ip_str with
      | None => false                             (* Invalid IP format, deny by default *)
      | Some client_ip => matches_any client_ip allow_cidrs
      end
  end.

Definition IsIPAllowed_parsed (ip_str : string) (parsed_allow_cidrs : list CIDR)
    : bool :=
  match parsed_allow_cidrs with
  | [] => false                                   (* Fail-closed: deny by default *)
  | _ =>
      match ParseIPv4 ip_str with
      | None => false
      | Some client_ip => contains_any client_ip parsed_allow_cidrs
      end
  end.

End Library.

End network_utils.

(** * Notions used to state the properties *)

(** [text] without its first [n] bytes. *)
Fixpoint drop (n : nat) (text : string) : string :=
  match n, text with
  | O, _ => text
  | S n', String _ rest => drop n' rest
  | S _, EmptyString => EmptyString
  end.

(** [Utf8CharLength] by ranges of the first byte. *)
Definition char_length_by_range (b : N) : nat :=
  if (b <? 192)%N then 1%nat
  else if (b <? 224)%N then 2%nat
  else if (b <? 240)%N then 3%nat
  else if (b <? 248)%N then 4%nat
  else 1%nat.

(** Well-formed UTF-8 (Unicode Standard, table 3-7; RFC 3629): shortest
    forms only, no surrogates, nothing above U+10FFFF. *)
Definition in_range (lo hi x : N) : bool := ((lo <=? x) && (x <=? hi))%N.

Definition is_continuation (b : ascii) : bool := in_range 0x80 0xBF (N_of_ascii b).

(** Second byte allowed after the first byte [b1] of a three-byte sequence. *)
Definition second_of_three (b1 b2 : N) : bool :=
  if (b1 =? 0xE0)%N then in_range 0xA0 0xBF b2
  else if (b1 =? 0xED)%N then in_range 0x80 0x9F b2
  else in_range 0x80 0xBF b2.

(** Second byte allowed after the first byte [b1] of a four-byte sequence. *)
Definition second_of_four (b1 b2 : N) : bool :=
  if (b1 =? 0xF0)%N then in_range 0x90 0xBF b2
  else if (b1 =? 0xF4)%N then in_range 0x80 0x8F b2
  else in_range 0x80 0xBF b2.

Fixpoint WellFormedUtf8 (s : string) : bool :=
  match s with
  | EmptyString => true
  | String c1 r1 =>
      let b1 := N_of_ascii c1 in
      if in_range 0x00 0x7F b1 then WellFormedUtf8 r1
      else
        match r1 with
        | EmptyString => false
        | String c2 r2 =>
            if in_range 0xC2 0xDF b1 then is_continuation c2 && WellFormedUtf8 r2
            else
              match r2 with
              | EmptyString => false
              | String c3 r3 =>
                  if in_range 0xE0 0xEF b1 then
                    second_of_three b1 (N_of_ascii c2) && is_continuation c3
                    && WellFormedUtf8 r3
                  else
                    match r3 with
                    | EmptyString => false
                    | String c4 r4 =>
                        if in_range 0xF0 0xF4 b1 then
                          second_of_four b1 (N_of_ascii c2) && is_continuation c3
                          && is_continuation c4 && WellFormedUtf8 r4
                        else false
                    end
              end
        end
  end.

(** A C++ [int]. *)
Definition is_int (n : Z) : Prop := (- 2 ^ 31 <= n < 2 ^ 31)%Z.

(** A text whose size fits [ptrdiff_t], as every [std::string_view] does. *)
Definition fits_size (text : string) : Prop :=
  (Z.of_nat (String.length text) < 2 ^ 63)%Z.

(** What a step of [GenerateHybridNgrams] pushes when it returns. *)
Definition pushed (step : Outcome (list string)) : list string :=
  match step with
  | Returns ngrams => ngrams
  | Throws _ => []
  end.

(** [w] is a window that [GenerateHybridNgrams] may emit at position
    [i]: a slice of the codepoints starting at [i] whose codepoints are
    all of the class of the first one, of the size given for that class. *)
Definition class_uniform_window (codepoints : list N) (ascii_n kanji_n : Z)
    (i : nat) (w : list N) : Prop :=
  (i < List.length codepoints)%nat /\
  (i + List.length w <= List.length codepoints)%nat /\
  w = firstn (List.length w) (skipn i codepoints) /\
  ((IsCJKIdeograph (nth i codepoints 0%N) = true /\
    Z.of_nat (List.length w) = kanji_n /\
    Forall (fun c => IsCJKIdeograph c = true) w)
   \/
   (IsCJKIdeograph (nth i codepoints 0%N) = false /\
    Z.of_nat (List.length w) = ascii_n /\
    Forall (fun c => IsCJKIdeograph c = false) w)).

Import search_expression.

(** The accumulator of [ToQueryString] as a part to be joined: nothing
    when it is empty. *)
Definition nonempty_part (oss : string) : list string :=
  if empty oss then [] else [oss].

(** The parts of the query string of an expression: the joined required
    terms, the negated excluded terms and the parenthesized raw
    expression. *)
Definition query_parts (e : SearchExpression) : list string :=
  let required := nonempty_part (String.concat " AND " (required_terms e)) in
  let excluded := map (fun term => "NOT " ++ term) (excluded_terms e) in
  let raw :=
    if empty (raw_expression e) then [] else ["(" ++ raw_expression e ++ ")"] in
  (required ++ excluded ++ raw)%list.

(** The parser state after [Advance]. *)
Definition after_Advance (input : string) (p : Parser) : Parser :=
  mkParser (snd (Next input (tokenizer_pos p)))
           (fst (Next input (tokenizer_pos p)))
           (tokenizer_pos p).

(** The parser right after its construction on [input]. *)
Definition initial_Parser (input : string) : Parser :=
  after_Advance input (mkParser 0 (mkToken kEnd "") 0).

(** The token that follows the cursor. *)
Definition next_token (input : string) (p : Parser) : Token :=
  fst (Next input (tokenizer_pos p)).

(** A token that may follow [OR] in an OR-chain. *)
Definition is_or_operand (t : TokenType) : bool :=
  match t with
  | kTerm | kQuotedTerm | kLParen => true
  | _ => false
  end.

(** What is left to read: the bytes behind the cursor, and the current
    token unless it is the end. *)
Definition remaining (input : string) (p : Parser) : nat :=
  (String.length input - tokenizer_pos p)
  + match type (current_ p) with kEnd => 0 | _ => 1 end.

(** The error of the empty input. *)
Definition is_empty_error (r : Expected SearchExpression Error) : Prop :=
  r = MakeUnexpected (MakeError kQuerySyntaxError "Empty search expression").

(** A Unicode scalar value: at most 0x10FFFF and not a surrogate. *)
Definition is_scalar_value (c : N) : Prop :=
  (c <= 0xD7FF \/ 0xE000 <= c <= 0x10FFFF)%N.

(** A surrogate code point. *)
Definition is_surrogate (c : N) : Prop := (0xD800 <= c <= 0xDFFF)%N.

(** The number of bytes [CodepointsToUtf8] writes for a codepoint. *)
Definition encoded_length (c : N) : nat :=
  if (c <=? 0x7F)%N then 1
  else if (c <=? 0x7FF)%N then 2
  else if (c <=? 0xFFFF)%N then 3
  else if (c <=? 0x10FFFF)%N then 4
  else 0.

(** The four shapes of a well-formed sequence. *)
Definition seq1 (b1 : N) : Prop := (b1 <= 127)%N.

Definition seq2 (b1 b2 : N) : Prop :=
  (194 <= b1 <= 223 /\ 128 <= b2 <= 191)%N.

Definition seq3 (b1 b2 b3 : N) : Prop :=
  (224 <= b1 <= 239 /\ 128 <= b2 <= 191 /\ (b1 = 224 -> 160 <= b2)
   /\ (b1 = 237 -> b2 <= 159) /\ 128 <= b3 <= 191)%N.

Definition seq4 (b1 b2 b3 b4 : N) : Prop :=
  (240 <= b1 <= 244 /\ 128 <= b2 <= 191 /\ (b1 = 240 -> 144 <= b2)
   /\ (b1 = 244 -> b2 <= 143) /\ 128 <= b3 <= 191 /\ 128 <= b4 <= 191)%N.

(** A text of ASCII characters only. *)
Definition is_ascii_text (s : string) : Prop :=
  Forall (fun c => (N_of_ascii c <= 127)%N) (list_ascii_of_string s).

(** The characters of a string. *)
Definition chars (s : string) : list ascii := list_ascii_of_string s.

(** A text of ASCII whitespace only. *)
Definition is_blank (s : string) : Prop :=
  Forall (fun c => isspace (N_of_ascii c) = true) (chars s).

(** A term token carries a value. *)
Definition token_ok (tok : Token) : Prop := type tok = kTerm -> value tok <> "".

(** What every parsed expression satisfies: nothing is optional, and no
    term is empty. *)
Definition terms_ok (e : SearchExpression) : Prop :=
  optional_terms e = []
  /\ Forall (fun term => term <> "") (required_terms e)
  /\ Forall (fun term => term <> "") (excluded_terms e).

(** The messages of the syntax errors. *)
Definition syntax_messages : list string :=
  [ "Empty search expression";
    "Expected term after '+'";
    "Expected term after '-'";
    "Unbalanced parentheses";
    "Unexpected 'OR' operator";
    "Unexpected ')'" ].

Definition result_ok (r : Expected SearchExpression Error) : Prop :=
  match r with
  | Value e => terms_ok e
  | Unexpected err =>
      code_ err = kQuerySyntaxError /\ context_ err = ""
      /\ In (message_ err) syntax_messages
  end.

(** The parts of the query string without the guard on the accumulator:
    the required terms one by one, the negated excluded terms and the
    parenthesized raw expression. *)
Definition plain_parts (e : SearchExpression) : list string :=
  let excluded := map (fun term => "NOT " ++ term) (excluded_terms e) in
  let raw :=
    if empty (raw_expression e) then [] else ["(" ++ raw_expression e ++ ")"] in
  (required_terms e ++ excluded ++ raw)%list.

(** [str] with a backslash before each double quote and backslash. *)
Fixpoint escaped (str : string) : string :=
  match str with
  | EmptyString => EmptyString
  | String c rest =>
      if (c =? dquote)%char || (c =? backslash)%char
      then String backslash (String c (escaped rest))
      else String c (escaped rest)
  end.

(** The entries of an allow list that [CIDR::Parse] accepts, parsed. *)
Fixpoint parsed_cidrs (parse : string -> option network_utils.CIDR)
    (allow_cidrs : list string) : list network_utils.CIDR :=
  match allow_cidrs with
  | [] => []
  | cidr_str :: rest =>
      match parse cidr_str with
      | Some cidr => cidr :: parsed_cidrs parse rest
      | None => parsed_cidrs parse rest
      end
  end.

(** The number of host bits of a block. *)
Definition host_bits (cidr : network_utils.CIDR) : N :=
  Z.to_N (32 - network_utils.prefix_length cidr).

(** A library for the instances: it knows one address and one number,
    on a little-endian host. *)
Definition inet_pton_one (s : string) : option N :=
  if (s =? "192.168.1.7")%string then Some 0x0701A8C0%N else None.

Definition ntohl_le (x : N) : N :=
  (N.lor (N.lor (N.shiftl (N.land x 0xFF) 24) (N.shiftl (N.land x 0xFF00) 8))
         (N.lor (N.shiftr (N.land x 0xFF0000) 8) (N.shiftr x 24)))%N.

Definition stoi_one (s : string) : option Z :=
  if (s =? "24")%string then Some 24%Z else None.

(** A word that the tokenizer reads as one bare term: not empty, without
    a character that ends a term, without a full-width space, and not
    the operator [OR] (nor [OR] before a character that is no letter and
    no digit). *)
Fixpoint free_of_full_width_space (w : string) : bool :=
  match w with
  | EmptyString => true
  | String _ rest => negb (IsFullWidthSpace w 0) && free_of_full_width_space rest
  end.

Definition is_or_like (w : string) : bool :=
  match w with
  | String "O" (String "R" EmptyString) => true
  | String "O" (String "R" (String c _)) => negb (isalnum (N_of_ascii c))
  | _ => false
  end.

Definition is_bare_word (w : string) : bool :=
  negb (empty w)
  && forallb (fun c => negb (is_term_stop c)) (chars w)
  && free_of_full_width_space w
  && negb (is_or_like w).

(** What follows a word: nothing, or a character that ends a term. *)
Definition ends_word (rest : string) : Prop :=
  rest = "" \/ exists c rest', rest = String c rest' /\ is_term_stop c = true.

(** A flat query: words, each bare or behind [+] or [-], separated by
    single spaces. *)
Inductive Item : Type :=
  | Bare (w : string)
  | Required (w : string)
  | Excluded (w : string).

Definition render (it : Item) : string :=
  match it with
  | Bare w => w
  | Required w => "+" ++ w
  | Excluded w => "-" ++ w
  end.

Definition item_word (it : Item) : string :=
  match it with
  | Bare w | Required w | Excluded w => w
  end.

Definition required_of (items : list Item) : list string :=
  flat_map (fun it => match it with
                      | Excluded _ => []
                      | Bare w | Required w => [w]
                      end) items.

Definition excluded_of (items : list Item) : list string :=
  flat_map (fun it => match it with
                      | Excluded w => [w]
                      | Bare _ | Required _ => []
                      end) items.

(** The first token of an item, and its length. *)
Definition first_token (it : Item) : Token * nat :=
  match it with
  | Bare w => (mkToken kTerm w, String.length w)
  | Required _ => (mkToken kPlus "", 1%nat)
  | Excluded _ => (mkToken kMinus "", 1%nat)
  end.

(** What the loop of [Parse] does with an item. *)
Definition add_item (expr : SearchExpression) (it : Item) : SearchExpression :=
  match it with
  | Excluded w => push_excluded expr w
  | Bare w | Required w => push_required expr w
  end.

(** Items, each behind a space. *)
Fixpoint spaced (items : list Item) : string :=
  match items with
  | [] => ""
  | it :: rest => " " ++ render it ++ spaced rest
  end.

(** Words, each behind [" OR "]. *)
Fixpoint or_spaced (words : list string) : string :=
  match words with
  | [] => ""
  | w :: rest => " OR " ++ w ++ or_spaced rest
  end.

(** The words of a group behind the first one: each is juxtaposed,
    behind a space, or an alternative, behind [" OR "]. *)
Inductive Joined : Type :=
  | Juxtaposed (w : string)
  | Alternative (w : string).

Definition joined_word (j : Joined) : string :=
  match j with
  | Juxtaposed w | Alternative w => w
  end.

(** The group as it is written, and as it is captured. *)
Fixpoint written (js : list Joined) : string :=
  match js with
  | [] => ""
  | Juxtaposed w :: rest => " " ++ w ++ written rest
  | Alternative w :: rest => " OR " ++ w ++ written rest
  end.

Fixpoint captured (js : list Joined) : string :=
  match js with
  | [] => ""
  | Juxtaposed w :: rest => w ++ captured rest
  | Alternative w :: rest => " OR " ++ w ++ captured rest
  end.

(** The ASCII whitespace bytes: space, tab, line feed, vertical tab, form
    feed and carriage return. *)
Definition ascii_whitespace : list N := [32; 9; 10; 11; 12; 13]%N.

(** A text of spaces only: ASCII whitespace bytes and full-width spaces
    (U+3000, the bytes E3 80 80). *)
Fixpoint only_spaces (s : string) : bool :=
  match s with
  | EmptyString => true
  | String c rest =>
      (existsb (N.eqb (N_of_ascii c)) ascii_whitespace && only_spaces rest)
      || match rest with
         | String d (String e rest') =>
             (N_of_ascii c =? 0xE3)%N && (N_of_ascii d =? 0x80)%N
             && (N_of_ascii e =? 0x80)%N && only_spaces rest'
         | _ => false
         end
  end.


(** * Properties *)

(** ** Bit-level facts used by the codec *)

Section Bits.

#[local] Open Scope N_scope.

(** A property checked on every number below [n] holds below [n]. *)
Lemma forall_below (P : N -> bool) (n : nat) :
  forallb P (map N.of_nat (seq 0 n)) = true ->
  forall x, x < N.of_nat n -> P x = true.
Proof.
  intros Hall x Hx.
  rewrite forallb_forall in Hall. apply Hall.
  apply in_map_iff. exists (N.to_nat x). split.
  - apply N2Nat.id.
  - apply in_seq. lia.
Qed.

Lemma land_shiftl_low a b n : b < 2 ^ n -> N.land (N.shiftl a n) b = 0.
Proof.
  intros Hb. apply N.bits_inj_0. intros m.
  rewrite N.land_spec.
  destruct (N.lt_ge_cases m n) as [Hm | Hm].
  - rewrite N.shiftl_spec_low by assumption. reflexivity.
  - destruct (N.eq_dec b 0) as [-> | Hnz].
    + rewrite N.bits_0. apply andb_false_r.
    + rewrite (N.bits_above_log2 b m), andb_false_r; [reflexivity|].
      apply N.log2_lt_pow2; [lia|].
      apply N.lt_le_trans with (2 ^ n); [assumption|].
      apply N.pow_le_mono_r; lia.
Qed.

(** OR-ing into the cleared low bits is an addition. *)
Lemma lor_shiftl_add a b n : b < 2 ^ n -> N.lor (N.shiftl a n) b = a * 2 ^ n + b.
Proof.
  intros Hb.
  rewrite <- N.lxor_lor, <- N.add_nocarry_lxor by (apply land_shiftl_low; assumption).
  rewrite N.shiftl_mul_pow2. reflexivity.
Qed.

Lemma byte_of_to_char x : N_of_ascii (to_char x) = x mod 256.
Proof.
  unfold to_char. apply N_ascii_embedding. apply N.mod_lt. discriminate.
Qed.

Lemma N_of_ascii_lt a : N_of_ascii a < 256.
Proof. apply N_ascii_bounded. Qed.

Lemma to_char_of_byte a : to_char (N_of_ascii a) = a.
Proof.
  unfold to_char. rewrite N.mod_small by apply N_of_ascii_lt.
  apply ascii_N_embedding.
Qed.

(** The masks are runs of ones, so masking is a remainder. *)
Lemma land_continuation x : N.land x kUtf8ContinuationMask = x mod 64.
Proof. change kUtf8ContinuationMask with (N.ones 6). apply N.land_ones. Qed.

Lemma land_two_byte_dat x : N.land x kUtf8TwoByteDatMask = x mod 32.
Proof. change kUtf8TwoByteDatMask with (N.ones 5). apply N.land_ones. Qed.

Lemma land_three_byte_dat x : N.land x kUtf8ThreeByteDatMask = x mod 16.
Proof. change kUtf8ThreeByteDatMask with (N.ones 4). apply N.land_ones. Qed.

Lemma land_four_byte_dat x : N.land x kUtf8FourByteDatMask = x mod 8.
Proof. change kUtf8FourByteDatMask with (N.ones 3). apply N.land_ones. Qed.

Lemma shiftr6 x : N.shiftr x kUtf8Shift6 = x / 64.
Proof. unfold kUtf8Shift6. rewrite N.shiftr_div_pow2. reflexivity. Qed.

Lemma shiftr12 x : N.shiftr x kUtf8Shift12 = x / 4096.
Proof. unfold kUtf8Shift12. rewrite N.shiftr_div_pow2. reflexivity. Qed.

Lemma shiftr18 x : N.shiftr x kUtf8Shift18 = x / 262144.
Proof. unfold kUtf8Shift18. rewrite N.shiftr_div_pow2. reflexivity. Qed.

(** The marker patterns OR-ed with a payload that fits below them. *)
Lemma lor_continuation y : y < 64 -> N.lor kUtf8ContinuationPattern y = 128 + y.
Proof.
  intros Hy. change kUtf8ContinuationPattern with (N.shiftl 2 6).
  rewrite lor_shiftl_add by exact Hy. reflexivity.
Qed.

Lemma lor_two_byte y : y < 32 -> N.lor kUtf8TwoBytePattern y = 192 + y.
Proof.
  intros Hy. change kUtf8TwoBytePattern with (N.shiftl 6 5).
  rewrite lor_shiftl_add by exact Hy. reflexivity.
Qed.

Lemma lor_three_byte y : y < 16 -> N.lor kUtf8ThreeBytePattern y = 224 + y.
Proof.
  intros Hy. change kUtf8ThreeBytePattern with (N.shiftl 14 4).
  rewrite lor_shiftl_add by exact Hy. reflexivity.
Qed.

Lemma lor_four_byte y : y < 8 -> N.lor kUtf8FourBytePattern y = 240 + y.
Proof.
  intros Hy. change kUtf8FourBytePattern with (N.shiftl 30 3).
  rewrite lor_shiftl_add by exact Hy. reflexivity.
Qed.

Lemma Utf8CharLength_range b :
  b < 256 -> Utf8CharLength b = char_length_by_range b.
Proof.
  intros Hb.
  apply Nat.eqb_eq.
  apply (forall_below
           (fun b => Nat.eqb (Utf8CharLength b) (char_length_by_range b)) 256);
    [vm_compute; reflexivity | exact Hb].
Qed.

Lemma Utf8CharLength_pos b : (1 <= Utf8CharLength b)%nat.
Proof.
  unfold Utf8CharLength.
  repeat match goal with |- context [if ?c then _ else _] => destruct c end; lia.
Qed.

Lemma Utf8CharLength_le b : (Utf8CharLength b <= 4)%nat.
Proof.
  unfold Utf8CharLength.
  repeat match goal with |- context [if ?c then _ else _] => destruct c end; lia.
Qed.

(** The codepoint assembled from two, three and four bytes, as arithmetic. *)
Lemma assemble2 b1 b2 :
  N.lor (N.shiftl (N.land b1 kUtf8TwoByteDatMask) kUtf8Shift6)
        (N.land b2 kUtf8ContinuationMask)
  = b1 mod 32 * 64 + b2 mod 64.
Proof.
  rewrite land_two_byte_dat, land_continuation.
  unfold kUtf8Shift6. rewrite lor_shiftl_add; [reflexivity|].
  apply N.mod_lt. discriminate.
Qed.

Lemma assemble3 b1 b2 b3 :
  N.lor (N.lor (N.shiftl (N.land b1 kUtf8ThreeByteDatMask) kUtf8Shift12)
               (N.shiftl (N.land b2 kUtf8ContinuationMask) kUtf8Shift6))
        (N.land b3 kUtf8ContinuationMask)
  = b1 mod 16 * 4096 + b2 mod 64 * 64 + b3 mod 64.
Proof.
  rewrite land_three_byte_dat, !land_continuation.
  unfold kUtf8Shift12, kUtf8Shift6.
  change 12 with (6 + 6) at 1. rewrite <- N.shiftl_shiftl, <- N.shiftl_lor.
  rewrite (lor_shiftl_add (b1 mod 16) (b2 mod 64) 6) by (apply N.mod_lt; discriminate).
  rewrite lor_shiftl_add by (apply N.mod_lt; discriminate).
  change (2 ^ 6) with 64. lia.
Qed.

Lemma assemble4 b1 b2 b3 b4 :
  N.lor (N.lor (N.lor
          (N.shiftl (N.land b1 kUtf8FourByteDatMask) kUtf8Shift18)
          (N.shiftl (N.land b2 kUtf8ContinuationMask) kUtf8Shift12))
          (N.shiftl (N.land b3 kUtf8ContinuationMask) kUtf8Shift6))
        (N.land b4 kUtf8ContinuationMask)
  = b1 mod 8 * 262144 + b2 mod 64 * 4096 + b3 mod 64 * 64 + b4 mod 64.
Proof.
  rewrite land_four_byte_dat, !land_continuation.
  unfold kUtf8Shift18, kUtf8Shift12, kUtf8Shift6.
  change 18 with (6 + 12). change 12 with (6 + 6).
  rewrite <- !N.shiftl_shiftl, <- !N.shiftl_lor.
  rewrite (lor_shiftl_add (b1 mod 8) (b2 mod 64) 6) by (apply N.mod_lt; discriminate).
  rewrite (lor_shiftl_add _ (b3 mod 64) 6) by (apply N.mod_lt; discriminate).
  rewrite lor_shiftl_add by (apply N.mod_lt; discriminate).
  change (2 ^ 6) with 64. lia.
Qed.

End Bits.

(** ** The decoding loop

    The loop of [Utf8ToCodepoints] only looks at the bytes from its
    index on, and never needs more fuel than bytes are left. *)

Section DecodeLoop.

#[local] Open Scope nat_scope.

Lemma length_drop n text : String.length (drop n text) = String.length text - n.
Proof.
  revert text. induction n as [|n IH]; intros [|c rest]; simpl; auto.
Qed.

Lemma string_length_app (a b : string) :
  String.length (a ++ b) = String.length a + String.length b.
Proof. induction a as [|c a IH]; simpl; [reflexivity | now rewrite IH]. Qed.

Lemma string_app_assoc (a b c : string) : (a ++ b) ++ c = a ++ (b ++ c).
Proof. induction a as [|x a IH]; simpl; [reflexivity | now rewrite IH]. Qed.

Lemma string_app_empty_r (a : string) : a ++ "" = a.
Proof. induction a as [|x a IH]; simpl; [reflexivity | now rewrite IH]. Qed.

Lemma empty_true_iff (s : string) : empty s = true <-> s = "".
Proof. destruct s; simpl; split; congruence. Qed.

Lemma empty_app (a b : string) : empty (a ++ b) = empty a && empty b.
Proof. destruct a; reflexivity. Qed.

(** Any two sufficient amounts of fuel give the same result. *)
Lemma Utf8ToCodepoints_loop_fuel2 text : forall fuel1 fuel2 i,
  String.length text - i <= fuel1 ->
  String.length text - i <= fuel2 ->
  Utf8ToCodepoints_loop text fuel1 i = Utf8ToCodepoints_loop text fuel2 i.
Proof.
  induction fuel1 as [|fuel1 IH]; intros fuel2 i H1 H2.
  - destruct fuel2 as [|fuel2]; [reflexivity|]. simpl.
    destruct (i <? String.length text) eqn:Hlt; [|reflexivity].
    apply Nat.ltb_lt in Hlt. lia.
  - destruct fuel2 as [|fuel2]; simpl;
      (destruct (i <? String.length text) eqn:Hlt; [|reflexivity]).
    + apply Nat.ltb_lt in Hlt. lia.
    + pose proof (Utf8CharLength_pos (byte_at text i)) as Hpos.
      destruct (String.length text <? i + Utf8CharLength (byte_at text i)).
      * apply IH; lia.
      * f_equal. apply IH; lia.
Qed.

Lemma Utf8ToCodepoints_loop_fuel text fuel i :
  String.length text - i <= fuel ->
  Utf8ToCodepoints_loop text fuel i
  = Utf8ToCodepoints_loop text (String.length text - i) i.
Proof. intros H. apply Utf8ToCodepoints_loop_fuel2; lia. Qed.

(** The loop over [String c text] from [S i] is the loop over [text]
    from [i]. *)
Lemma Utf8ToCodepoints_loop_shift c text : forall fuel i,
  Utf8ToCodepoints_loop (String c text) fuel (S i)
  = Utf8ToCodepoints_loop text fuel i.
Proof.
  induction fuel as [|fuel IH]; intros i; [reflexivity|].
  cbn [Utf8ToCodepoints_loop].
  change (String.length (String c text)) with (S (String.length text)).
  change (byte_at (String c text) (S i)) with (byte_at text i).
  change (S i <? S (String.length text)) with (i <? String.length text).
  change (S (String.length text) <? S i + Utf8CharLength (byte_at text i))
    with (String.length text <? i + Utf8CharLength (byte_at text i)).
  change (S i + 1) with (S (i + 1)).
  change (S i + Utf8CharLength (byte_at text i))
    with (S (i + Utf8CharLength (byte_at text i))).
  rewrite !IH.
  replace (AssembleCodepoint (String c text) (S i) (Utf8CharLength (byte_at text i)))
    with (AssembleCodepoint text i (Utf8CharLength (byte_at text i))); [reflexivity|].
  unfold AssembleCodepoint.
  destruct (Utf8CharLength (byte_at text i)) as [|[|[|[|[|k]]]]]; reflexivity.
Qed.

Lemma Utf8ToCodepoints_loop_drop : forall n text fuel,
  n <= String.length text ->
  Utf8ToCodepoints_loop text fuel n = Utf8ToCodepoints_loop (drop n text) fuel 0.
Proof.
  induction n as [|n IH]; intros text fuel Hn; [reflexivity|].
  destruct text as [|c text]; simpl in Hn; [lia|].
  rewrite Utf8ToCodepoints_loop_shift. simpl drop. apply IH. lia.
Qed.

(** One iteration of the decoder: a complete sequence yields its
    codepoint, and decoding goes on behind it. *)
Lemma Utf8ToCodepoints_complete text :
  let char_len := Utf8CharLength (byte_at text 0) in
  text <> "" ->
  char_len <= String.length text ->
  Utf8ToCodepoints text
  = AssembleCodepoint text 0 char_len :: Utf8ToCodepoints (drop char_len text).
Proof.
  intros char_len Hne Hlen. unfold Utf8ToCodepoints.
  pose proof (Utf8CharLength_pos (byte_at text 0)) as Hpos. fold char_len in Hpos.
  destruct (String.length text) as [|m] eqn:Hm.
  - destruct text; [congruence | discriminate].
  - cbn [Utf8ToCodepoints_loop]. rewrite Hm. fold char_len.
    change (0 <? S m) with true. cbn iota.
    replace (S m <? 0 + char_len) with false
      by (symmetry; apply Nat.ltb_ge; simpl; lia).
    f_equal. simpl (0 + char_len).
    rewrite Utf8ToCodepoints_loop_drop by lia.
    rewrite Utf8ToCodepoints_loop_fuel by (rewrite length_drop; lia).
    rewrite length_drop, Nat.sub_0_r, Hm. reflexivity.
Qed.

(** An incomplete sequence at the end of the input: its first byte is
    skipped. *)
Lemma Utf8ToCodepoints_incomplete text :
  String.length text < Utf8CharLength (byte_at text 0) ->
  Utf8ToCodepoints text = Utf8ToCodepoints (drop 1 text).
Proof.
  intros Hlen. unfold Utf8ToCodepoints.
  destruct text as [|c text]; [reflexivity|].
  cbn [Utf8ToCodepoints_loop String.length].
  change (0 <? S (String.length text)) with true. cbn iota.
  replace (S (String.length text) <? 0 + Utf8CharLength (byte_at (String c text) 0))
    with true by (symmetry; apply Nat.ltb_lt; simpl; exact Hlen).
  change (0 + 1) with 1.
  rewrite (Utf8ToCodepoints_loop_drop 1) by (simpl; lia).
  reflexivity.
Qed.

End DecodeLoop.

(** ** Encoding and decoding one codepoint *)

Section Codec.

#[local] Open Scope N_scope.

Lemma char_len_1 b : b < 192 \/ 248 <= b < 256 -> Utf8CharLength b = 1%nat.
Proof.
  intros Hb. rewrite Utf8CharLength_range by lia. unfold char_length_by_range.
  repeat match goal with
         | |- context [?x <? ?y] => destruct (N.ltb_spec x y)
         end; lia || reflexivity.
Qed.

Lemma char_len_2 b : 192 <= b < 224 -> Utf8CharLength b = 2%nat.
Proof.
  intros Hb. rewrite Utf8CharLength_range by lia. unfold char_length_by_range.
  repeat match goal with
         | |- context [?x <? ?y] => destruct (N.ltb_spec x y)
         end; lia || reflexivity.
Qed.

Lemma char_len_3 b : 224 <= b < 240 -> Utf8CharLength b = 3%nat.
Proof.
  intros Hb. rewrite Utf8CharLength_range by lia. unfold char_length_by_range.
  repeat match goal with
         | |- context [?x <? ?y] => destruct (N.ltb_spec x y)
         end; lia || reflexivity.
Qed.

Lemma char_len_4 b : 240 <= b < 248 -> Utf8CharLength b = 4%nat.
Proof.
  intros Hb. rewrite Utf8CharLength_range by lia. unfold char_length_by_range.
  repeat match goal with
         | |- context [?x <? ?y] => destruct (N.ltb_spec x y)
         end; lia || reflexivity.
Qed.

(** Decoding a text that starts with a one-, two-, three- or four-byte
    sequence. *)
Lemma decode_1 c1 rest :
  N_of_ascii c1 < 192 \/ 248 <= N_of_ascii c1 ->
  Utf8ToCodepoints (String c1 rest) = N_of_ascii c1 :: Utf8ToCodepoints rest.
Proof.
  intros Hb. pose proof (N_of_ascii_lt c1) as Hlt.
  rewrite Utf8ToCodepoints_complete; try discriminate;
    change (byte_at (String c1 rest) 0) with (N_of_ascii c1);
    rewrite char_len_1 by lia; [reflexivity | simpl; lia].
Qed.

Lemma decode_2 c1 c2 rest :
  192 <= N_of_ascii c1 < 224 ->
  Utf8ToCodepoints (String c1 (String c2 rest))
  = (N_of_ascii c1 mod 32 * 64 + N_of_ascii c2 mod 64) :: Utf8ToCodepoints rest.
Proof.
  intros Hb.
  rewrite Utf8ToCodepoints_complete; try discriminate;
    change (byte_at (String c1 (String c2 rest)) 0) with (N_of_ascii c1);
    rewrite char_len_2 by lia; [|simpl; lia].
  cbn [drop]. f_equal. apply assemble2.
Qed.

Lemma decode_3 c1 c2 c3 rest :
  224 <= N_of_ascii c1 < 240 ->
  Utf8ToCodepoints (String c1 (String c2 (String c3 rest)))
  = (N_of_ascii c1 mod 16 * 4096 + N_of_ascii c2 mod 64 * 64 + N_of_ascii c3 mod 64)
      :: Utf8ToCodepoints rest.
Proof.
  intros Hb.
  rewrite Utf8ToCodepoints_complete; try discriminate;
    change (byte_at (String c1 (String c2 (String c3 rest))) 0) with (N_of_ascii c1);
    rewrite char_len_3 by lia; [|simpl; lia].
  cbn [drop]. f_equal. apply assemble3.
Qed.

Lemma decode_4 c1 c2 c3 c4 rest :
  240 <= N_of_ascii c1 < 248 ->
  Utf8ToCodepoints (String c1 (String c2 (String c3 (String c4 rest))))
  = (N_of_ascii c1 mod 8 * 262144 + N_of_ascii c2 mod 64 * 4096
     + N_of_ascii c3 mod 64 * 64 + N_of_ascii c4 mod 64)
      :: Utf8ToCodepoints rest.
Proof.
  intros Hb.
  rewrite Utf8ToCodepoints_complete; try discriminate;
    change (byte_at (String c1 (String c2 (String c3 (String c4 rest)))) 0)
      with (N_of_ascii c1);
    rewrite char_len_4 by lia; [|simpl; lia].
  cbn [drop]. f_equal. apply assemble4.
Qed.

(** The bytes written for a codepoint, as arithmetic. *)
Lemma to_char_small x : x < 256 -> to_char x = ascii_of_N x.
Proof. intros Hx. unfold to_char. now rewrite N.mod_small. Qed.

Lemma continuation_byte y :
  to_char (N.lor kUtf8ContinuationPattern (N.land y kUtf8ContinuationMask))
  = ascii_of_N (128 + y mod 64).
Proof.
  rewrite land_continuation, lor_continuation by lia.
  apply to_char_small. lia.
Qed.

Lemma EncodeCodepoint_1 c :
  c <= 0x7F -> EncodeCodepoint c = String (ascii_of_N c) "".
Proof.
  intros Hc. unfold EncodeCodepoint, kUnicodeMaxOneByte.
  destruct (N.leb_spec c 0x7F); [|lia].
  rewrite to_char_small by lia. reflexivity.
Qed.

Lemma EncodeCodepoint_2 c :
  0x7F < c <= 0x7FF ->
  EncodeCodepoint c
  = String (ascii_of_N (192 + c / 64)) (String (ascii_of_N (128 + c mod 64)) "").
Proof.
  intros Hc. unfold EncodeCodepoint, kUnicodeMaxOneByte, kUnicodeMaxTwoByte.
  destruct (N.leb_spec c 0x7F); [lia|].
  destruct (N.leb_spec c 0x7FF); [|lia].
  rewrite continuation_byte, shiftr6, lor_two_byte by lia.
  rewrite to_char_small by lia. reflexivity.
Qed.

Lemma EncodeCodepoint_3 c :
  0x7FF < c <= 0xFFFF ->
  EncodeCodepoint c
  = String (ascii_of_N (224 + c / 4096))
   (String (ascii_of_N (128 + (c / 64) mod 64))
   (String (ascii_of_N (128 + c mod 64)) "")).
Proof.
  intros Hc.
  unfold EncodeCodepoint, kUnicodeMaxOneByte, kUnicodeMaxTwoByte, kUnicodeMaxThreeByte.
  destruct (N.leb_spec c 0x7F); [lia|].
  destruct (N.leb_spec c 0x7FF); [lia|].
  destruct (N.leb_spec c 0xFFFF); [|lia].
  rewrite !continuation_byte, shiftr6, shiftr12, lor_three_byte by lia.
  rewrite to_char_small by lia. reflexivity.
Qed.

Lemma EncodeCodepoint_4 c :
  0xFFFF < c <= 0x10FFFF ->
  EncodeCodepoint c
  = String (ascii_of_N (240 + c / 262144))
   (String (ascii_of_N (128 + (c / 4096) mod 64))
   (String (ascii_of_N (128 + (c / 64) mod 64))
   (String (ascii_of_N (128 + c mod 64)) ""))).
Proof.
  intros Hc.
  unfold EncodeCodepoint, kUnicodeMaxOneByte, kUnicodeMaxTwoByte,
    kUnicodeMaxThreeByte, kUnicodeMaxCodepoint.
  destruct (N.leb_spec c 0x7F); [lia|].
  destruct (N.leb_spec c 0x7FF); [lia|].
  destruct (N.leb_spec c 0xFFFF); [lia|].
  destruct (N.leb_spec c 0x10FFFF); [|lia].
  rewrite !continuation_byte, shiftr6, shiftr12, shiftr18, lor_four_byte by lia.
  rewrite to_char_small by lia. reflexivity.
Qed.

Lemma EncodeCodepoint_dropped c : 0x10FFFF < c -> EncodeCodepoint c = "".
Proof.
  intros Hc.
  unfold EncodeCodepoint, kUnicodeMaxOneByte, kUnicodeMaxTwoByte,
    kUnicodeMaxThreeByte, kUnicodeMaxCodepoint.
  destruct (N.leb_spec c 0x7F); [lia|].
  destruct (N.leb_spec c 0x7FF); [lia|].
  destruct (N.leb_spec c 0xFFFF); [lia|].
  destruct (N.leb_spec c 0x10FFFF); [lia|]. reflexivity.
Qed.

Lemma byte_of_N x : x < 256 -> N_of_ascii (ascii_of_N x) = x.
Proof. apply N_ascii_embedding. Qed.

(** Decoding what was written for one codepoint gives it back. *)
Lemma decode_encode_cons c rest :
  c <= kUnicodeMaxCodepoint ->
  Utf8ToCodepoints (EncodeCodepoint c ++ rest) = c :: Utf8ToCodepoints rest.
Proof.
  unfold kUnicodeMaxCodepoint. intros Hc.
  destruct (N.le_gt_cases c 0x7F) as [H1 | H1];
    [| destruct (N.le_gt_cases c 0x7FF) as [H2 | H2];
       [| destruct (N.le_gt_cases c 0xFFFF) as [H3 | H3]]].
  - rewrite EncodeCodepoint_1 by lia. cbn [append].
    rewrite decode_1; rewrite byte_of_N by lia; [reflexivity | lia].
  - rewrite EncodeCodepoint_2 by lia. cbn [append].
    rewrite decode_2; rewrite !byte_of_N by lia; [f_equal; lia | lia].
  - rewrite EncodeCodepoint_3 by lia. cbn [append].
    rewrite decode_3; rewrite !byte_of_N by lia; [f_equal; lia | lia].
  - rewrite EncodeCodepoint_4 by lia. cbn [append].
    rewrite decode_4; rewrite !byte_of_N by lia; [f_equal | lia].
    replace ((240 + c / 262144) mod 8) with (c / 262144) by lia.
    replace ((128 + (c / 4096) mod 64) mod 64) with ((c / 4096) mod 64) by lia.
    replace ((128 + (c / 64) mod 64) mod 64) with ((c / 64) mod 64) by lia.
    replace ((128 + c mod 64) mod 64) with (c mod 64) by lia.
    lia.
Qed.

End Codec.

Lemma decode_encode_filter (cps : list N) :
  Utf8ToCodepoints (CodepointsToUtf8 cps)
  = filter (fun c => (c <=? kUnicodeMaxCodepoint)%N) cps.
Proof.
  induction cps as [|c cps IH]; [reflexivity|].
  cbn [CodepointsToUtf8 filter].
  destruct (N.leb_spec c kUnicodeMaxCodepoint) as [Hc | Hc].
  - rewrite decode_encode_cons by exact Hc. now rewrite IH.
  - rewrite EncodeCodepoint_dropped by exact Hc. exact IH.
Qed.

Lemma filter_in_range (cps : list N) :
  Forall (fun c => (c <= kUnicodeMaxCodepoint)%N) cps ->
  filter (fun c => (c <=? kUnicodeMaxCodepoint)%N) cps = cps.
Proof.
  induction 1 as [|c cps Hc Hall IH]; [reflexivity|].
  cbn [filter]. apply N.leb_le in Hc. rewrite Hc. now f_equal.
Qed.

Lemma decode_encode_in_range (cps : list N) :
  Forall (fun c => (c <= kUnicodeMaxCodepoint)%N) cps ->
  Utf8ToCodepoints (CodepointsToUtf8 cps) = cps.
Proof.
  intros Hall. rewrite decode_encode_filter. apply filter_in_range, Hall.
Qed.

(** C9.  Decoding what [CodepointsToUtf8] wrote gives back the
    codepoints that are at most 0x10FFFF, in order; the encoder drops the
    others and nothing else.  In particular a list of codepoints that
    are all at most 0x10FFFF is given back unchanged. *)
Theorem decode_encode_roundtrip (cps : list N) :
  Utf8ToCodepoints (CodepointsToUtf8 cps)
  = filter (fun c => (c <=? kUnicodeMaxCodepoint)%N) cps
  /\ (Forall (fun c => (c <= kUnicodeMaxCodepoint)%N) cps ->
      Utf8ToCodepoints (CodepointsToUtf8 cps) = cps).
Proof.
  split; [apply decode_encode_filter | apply decode_encode_in_range].
Qed.

(** ** Re-encoding a decoded well-formed text *)

Section WellFormed.

#[local] Open Scope N_scope.

Lemma in_range_spec lo hi x : in_range lo hi x = true <-> lo <= x <= hi.
Proof.
  unfold in_range. rewrite andb_true_iff, !N.leb_le. reflexivity.
Qed.

Lemma second_of_three_spec b1 b2 :
  224 <= b1 <= 239 -> second_of_three b1 b2 = true ->
  128 <= b2 <= 191 /\ (b1 = 224 -> 160 <= b2).
Proof.
  unfold second_of_three. intros Hb1.
  destruct (N.eqb_spec b1 0xE0); [|destruct (N.eqb_spec b1 0xED)];
    rewrite in_range_spec; lia.
Qed.

Lemma second_of_four_spec b1 b2 :
  240 <= b1 <= 244 -> second_of_four b1 b2 = true ->
  128 <= b2 <= 191 /\ (b1 = 240 -> 144 <= b2) /\ (b1 = 244 -> b2 <= 143).
Proof.
  unfold second_of_four. intros Hb1.
  destruct (N.eqb_spec b1 0xF0); [|destruct (N.eqb_spec b1 0xF4)];
    rewrite in_range_spec; lia.
Qed.

(** Each well-formed sequence is the encoding of the codepoint it
    decodes to. *)
Lemma encode_two b1 b2 :
  194 <= b1 <= 223 -> 128 <= b2 <= 191 ->
  EncodeCodepoint (b1 mod 32 * 64 + b2 mod 64)
  = String (ascii_of_N b1) (String (ascii_of_N b2) "").
Proof.
  intros H1 H2.
  replace (b1 mod 32) with (b1 - 192) by lia.
  replace (b2 mod 64) with (b2 - 128) by lia.
  rewrite EncodeCodepoint_2 by lia.
  repeat f_equal; lia.
Qed.

Lemma encode_three b1 b2 b3 :
  224 <= b1 <= 239 -> 128 <= b2 <= 191 -> (b1 = 224 -> 160 <= b2) ->
  128 <= b3 <= 191 ->
  EncodeCodepoint (b1 mod 16 * 4096 + b2 mod 64 * 64 + b3 mod 64)
  = String (ascii_of_N b1) (String (ascii_of_N b2) (String (ascii_of_N b3) "")).
Proof.
  intros H1 H2 H2' H3.
  replace (b1 mod 16) with (b1 - 224) by lia.
  replace (b2 mod 64) with (b2 - 128) by lia.
  replace (b3 mod 64) with (b3 - 128) by lia.
  rewrite EncodeCodepoint_3 by lia.
  repeat f_equal; lia.
Qed.

Lemma encode_four b1 b2 b3 b4 :
  240 <= b1 <= 244 -> 128 <= b2 <= 191 ->
  (b1 = 240 -> 144 <= b2) -> (b1 = 244 -> b2 <= 143) ->
  128 <= b3 <= 191 -> 128 <= b4 <= 191 ->
  EncodeCodepoint (b1 mod 8 * 262144 + b2 mod 64 * 4096 + b3 mod 64 * 64 + b4 mod 64)
  = String (ascii_of_N b1) (String (ascii_of_N b2)
     (String (ascii_of_N b3) (String (ascii_of_N b4) ""))).
Proof.
  intros H1 H2 H2' H2'' H3 H4.
  replace (b1 mod 8) with (b1 - 240) by lia.
  replace (b2 mod 64) with (b2 - 128) by lia.
  replace (b3 mod 64) with (b3 - 128) by lia.
  replace (b4 mod 64) with (b4 - 128) by lia.
  rewrite EncodeCodepoint_4 by lia.
  repeat f_equal; lia.
Qed.

Lemma encode_decode_bounded : forall (n : nat) (s : string),
  (String.length s <= n)%nat ->
  WellFormedUtf8 s = true ->
  CodepointsToUtf8 (Utf8ToCodepoints s) = s.
Proof.
  induction n as [|n IH]; intros s Hlen Hwf.
  - destruct s; [reflexivity | simpl in Hlen; lia].
  - destruct s as [|c1 r1]; [reflexivity|].
    cbn [WellFormedUtf8] in Hwf. cbv zeta in Hwf.
    cbn [String.length] in Hlen.
    destruct (in_range 0 127 (N_of_ascii c1)) eqn:R1.
    { apply in_range_spec in R1.
      rewrite decode_1 by lia. cbn [CodepointsToUtf8].
      rewrite EncodeCodepoint_1, ascii_N_embedding by lia. cbn [append].
      f_equal. apply IH; [lia | exact Hwf]. }
    destruct r1 as [|c2 r2]; [discriminate|]. cbn [String.length] in Hlen.
    destruct (in_range 194 223 (N_of_ascii c1)) eqn:R2.
    { apply in_range_spec in R2.
      apply andb_true_iff in Hwf. destruct Hwf as [Hc2 Hwf].
      apply in_range_spec in Hc2.
      rewrite decode_2 by lia. cbn [CodepointsToUtf8].
      rewrite encode_two, !ascii_N_embedding by lia. cbn [append].
      do 2 f_equal. apply IH; [lia | exact Hwf]. }
    destruct r2 as [|c3 r3]; [discriminate|]. cbn [String.length] in Hlen.
    destruct (in_range 224 239 (N_of_ascii c1)) eqn:R3.
    { apply in_range_spec in R3.
      rewrite !andb_true_iff in Hwf. destruct Hwf as [[Hc2 Hc3] Hwf].
      apply in_range_spec in Hc3.
      apply second_of_three_spec in Hc2; [|exact R3]. destruct Hc2 as [Hc2 Hc2'].
      rewrite decode_3 by lia. cbn [CodepointsToUtf8].
      rewrite encode_three, !ascii_N_embedding by (assumption || lia). cbn [append].
      do 3 f_equal. apply IH; [lia | exact Hwf]. }
    destruct r3 as [|c4 r4]; [discriminate|]. cbn [String.length] in Hlen.
    destruct (in_range 240 244 (N_of_ascii c1)) eqn:R4; [|discriminate].
    apply in_range_spec in R4.
    rewrite !andb_true_iff in Hwf. destruct Hwf as [[[Hc2 Hc3] Hc4] Hwf].
    apply in_range_spec in Hc3. apply in_range_spec in Hc4.
    apply second_of_four_spec in Hc2; [|exact R4].
    destruct Hc2 as [Hc2 [Hc2' Hc2'']].
    rewrite decode_4 by lia. cbn [CodepointsToUtf8].
    rewrite encode_four, !ascii_N_embedding by (assumption || lia). cbn [append].
    do 4 f_equal. apply IH; [lia | exact Hwf].
Qed.

End WellFormed.

(** C1.  Decoding a well-formed UTF-8 byte string and encoding the
    codepoints again gives the same bytes. *)
Theorem encode_decode_roundtrip (s : string) :
  WellFormedUtf8 s = true ->
  CodepointsToUtf8 (Utf8ToCodepoints s) = s.
Proof. apply (encode_decode_bounded (String.length s)). apply Nat.le_refl. Qed.

(** ** N-grams *)

Section Ngrams.

#[local] Open Scope nat_scope.

(** The decoder yields at most one codepoint per byte. *)
Lemma Utf8ToCodepoints_loop_length text : forall fuel i,
  List.length (Utf8ToCodepoints_loop text fuel i) <= fuel.
Proof.
  induction fuel as [|fuel IH]; intros i; simpl; [lia|].
  destruct (i <? String.length text); simpl; [|lia].
  destruct (String.length text <? i + Utf8CharLength (byte_at text i)); simpl.
  - specialize (IH (i + 1)). lia.
  - specialize (IH (i + Utf8CharLength (byte_at text i))). lia.
Qed.

Lemma Utf8ToCodepoints_length text :
  List.length (Utf8ToCodepoints text) <= String.length text.
Proof. apply Utf8ToCodepoints_loop_length. Qed.

Lemma size_t_of_int_nonneg (n : Z) :
  (0 <= n)%Z -> is_int n -> size_t_of_int n = n.
Proof.
  unfold is_int, size_t_of_int, kSizeModulus. intros H0 Hn.
  apply Z.mod_small. lia.
Qed.

Lemma size_t_add_small (a b : Z) :
  (0 <= a)%Z -> (0 <= b)%Z -> (a + b < 2 ^ 64)%Z -> size_t_add a b = (a + b)%Z.
Proof.
  unfold size_t_add, kSizeModulus. intros. apply Z.mod_small. lia.
Qed.

Lemma size_t_sub_small (a b : Z) :
  (0 <= b <= a)%Z -> (a < 2 ^ 64)%Z -> size_t_sub a b = (a - b)%Z.
Proof.
  unfold size_t_sub, kSizeModulus. intros. apply Z.mod_small. lia.
Qed.

(** Unigrams are the windows of one codepoint. *)
Lemma unigrams_windows (l : list N) :
  map (fun codepoint => CodepointsToUtf8 [codepoint]) l
  = map (fun i => CodepointsToUtf8 (firstn 1 (skipn i l))) (seq 0 (List.length l)).
Proof.
  induction l as [|c l IH]; [reflexivity|].
  cbn [List.length seq map]. f_equal.
  rewrite <- seq_shift, map_map. exact IH.
Qed.

(** The window copied element by element is the slice. *)
Lemma Window_slice (l : list N) : forall i n,
  i + n <= List.length l -> Window l i n = firstn n (skipn i l).
Proof.
  unfold Window. induction l as [|c l IH]; intros i n Hin.
  - simpl in Hin. assert (n = 0) by lia. subst n. now rewrite skipn_nil.
  - destruct i as [|i].
    + cbn [skipn]. destruct n as [|n]; [reflexivity|].
      cbn [seq map firstn]. f_equal.
      rewrite <- seq_shift, map_map.
      specialize (IH 0 n). cbn [skipn] in IH. rewrite <- IH by (simpl in Hin; lia).
      reflexivity.
    + cbn [skipn]. rewrite <- IH by (simpl in Hin; lia).
      apply map_ext. intros j. reflexivity.
Qed.

Lemma Window_length (l : list N) i n : List.length (Window l i n) = n.
Proof. unfold Window. now rewrite length_map, length_seq. Qed.

End Ngrams.

(** C7.  [GenerateNgrams(text, n)] is empty when [n <= 0] or when the
    text has fewer than [n] codepoints; otherwise it is the list of the
    [len - n + 1] windows of [n] codepoints, in order of their start,
    each rendered in UTF-8.  For [n = 1] that is one n-gram per
    codepoint, and the bigrams of "hello" are he, el, ll, lo. *)
Theorem GenerateNgrams_windows (text : string) (n : Z) :
  is_int n -> fits_size text ->
  let codepoints := Utf8ToCodepoints text in
  let len := List.length codepoints in
  ((n <= 0 \/ Z.of_nat len < n)%Z -> GenerateNgrams text n = [])
  /\ ((0 < n <= Z.of_nat len)%Z ->
      GenerateNgrams text n
      = map (fun i => CodepointsToUtf8 (firstn (Z.to_nat n) (skipn i codepoints)))
            (seq 0 (len - Z.to_nat n + 1))
      /\ List.length (GenerateNgrams text n) = (len - Z.to_nat n + 1)%nat)
  /\ GenerateNgrams text 1 = map (fun c => CodepointsToUtf8 [c]) codepoints
  /\ GenerateNgrams "hello" 2 = ["he"; "el"; "ll"; "lo"].
Proof.
  intros Hint Hfits codepoints len.
  pose proof (Utf8ToCodepoints_length text) as Hlen.
  unfold fits_size in Hfits. subst len codepoints.
  unfold GenerateNgrams.
  remember (Utf8ToCodepoints text) as cps eqn:Hcps. clear Hcps.
  set (len := List.length cps) in *.
  assert (Hnil : (0 < len)%nat ->
            match cps with [] => true | _ :: _ => false end = false)
    by (destruct cps; simpl in len; [lia | reflexivity]).
  assert (Hexact : (0 < n <= Z.of_nat len)%Z ->
     (if (match cps with [] => true | _ :: _ => false end || (n <=? 0)%Z)%bool
      then []
      else if (n =? 1)%Z then map (fun codepoint => CodepointsToUtf8 [codepoint]) cps
      else if (Z.of_nat len <? size_t_of_int n)%Z then []
      else map (fun i => CodepointsToUtf8
                  (firstn (Z.to_nat (size_t_add (Z.of_nat i) (size_t_of_int n)) - i)
                          (skipn i cps)))
               (seq 0 (Z.to_nat (size_t_sub (Z.of_nat len) (size_t_of_int n)) + 1)))
     = map (fun i => CodepointsToUtf8 (firstn (Z.to_nat n) (skipn i cps)))
           (seq 0 (len - Z.to_nat n + 1))).
  { intros Hn. rewrite Hnil by lia. cbn [orb].
    destruct (Z.leb_spec n 0) as [Hle | _]; [lia|].
    destruct (Z.eqb_spec n 1) as [-> | Hn1].
    - change (Z.to_nat 1) with 1%nat.
      replace (len - 1 + 1)%nat with len by lia.
      apply unigrams_windows.
    - rewrite size_t_of_int_nonneg by (assumption || lia).
      destruct (Z.ltb_spec (Z.of_nat len) n) as [Hlt | _]; [lia|].
      rewrite size_t_sub_small by lia.
      replace (Z.to_nat (Z.of_nat len - n) + 1)%nat
        with (len - Z.to_nat n + 1)%nat by lia.
      apply map_ext_in. intros i Hi. apply in_seq in Hi.
      rewrite size_t_add_small by lia.
      do 2 f_equal. lia. }
  split; [|split; [|split]].
  - intros Hn.
    destruct (Nat.eq_dec len 0) as [Hzero | Hzero].
    { destruct cps; [reflexivity | discriminate Hzero]. }
    rewrite Hnil by lia. cbn [orb].
    destruct (Z.leb_spec n 0) as [Hle | Hpos]; [reflexivity|].
    destruct (Z.eqb_spec n 1) as [-> | Hn1]; [lia|].
    rewrite size_t_of_int_nonneg by (assumption || lia).
    destruct (Z.ltb_spec (Z.of_nat len) n) as [Hlt | Hge]; [reflexivity | lia].
  - intros Hn. split; [exact (Hexact Hn)|].
    rewrite (Hexact Hn), length_map, length_seq. reflexivity.
  - destruct cps; reflexivity.
  - vm_compute. reflexivity.
Qed.

(** ** Hybrid n-grams *)

Section Hybrid.

#[local] Open Scope nat_scope.

Lemma forallb_window (P : N -> bool) (l : list N) i n :
  forallb (fun j => P (nth (i + j) l 0%N)) (seq 0 n) = true ->
  Forall (fun c => P c = true) (Window l i n).
Proof.
  intros Hall. rewrite forallb_forall in Hall.
  unfold Window. apply Forall_forall. intros c Hc.
  apply in_map_iff in Hc. destruct Hc as [j [<- Hj]]. apply Hall, Hj.
Qed.

(** [reserve] does not throw for a size that is not negative. *)
Lemma reserve_returns (n : Z) : is_int n -> (0 <= n)%Z -> reserve n = Returns tt.
Proof.
  intros Hint Hn. unfold reserve, kVectorMaxSize.
  rewrite size_t_of_int_nonneg by assumption.
  unfold is_int in Hint. destruct (Z.ltb_spec (2 ^ 61 - 1) n); [lia | reflexivity].
Qed.

(** The loop returns what its steps push, when none of them throws; and
    when it returns, that is what it returns. *)
Lemma GenerateHybridNgrams_loop_returns (codepoints : list N) (ascii_n kanji_n : Z) :
  forall positions ngrams,
  (forall i, In i positions ->
     exists l, HybridStep codepoints ascii_n kanji_n i = Returns l) ->
  GenerateHybridNgrams_loop codepoints ascii_n kanji_n positions ngrams
  = Returns (ngrams ++ flat_map (fun i => pushed (HybridStep codepoints ascii_n kanji_n i))
                                positions)%list.
Proof.
  induction positions as [|i positions IH]; intros ngrams Hsteps.
  - cbn. now rewrite app_nil_r.
  - cbn [GenerateHybridNgrams_loop flat_map].
    destruct (Hsteps i (or_introl eq_refl)) as [l Hl]. rewrite Hl. cbn [pushed].
    rewrite IH by (intros j Hj; apply Hsteps; now right).
    now rewrite app_assoc.
Qed.

Lemma GenerateHybridNgrams_loop_returned (codepoints : list N) (ascii_n kanji_n : Z) :
  forall positions ngrams result,
  GenerateHybridNgrams_loop codepoints ascii_n kanji_n positions ngrams
  = Returns result ->
  result
  = (ngrams ++ flat_map (fun i => pushed (HybridStep codepoints ascii_n kanji_n i))
                        positions)%list.
Proof.
  induction positions as [|i positions IH]; intros ngrams result Hrun.
  - cbn in Hrun. injection Hrun as <-. now rewrite app_nil_r.
  - cbn [GenerateHybridNgrams_loop flat_map] in *.
    destruct (HybridStep codepoints ascii_n kanji_n i) as [l | e];
      [|discriminate].
    cbn [pushed]. rewrite (IH _ _ Hrun). now rewrite app_assoc.
Qed.

Lemma GenerateHybridNgrams_returns (text : string) (ascii_n kanji_n : Z) :
  (forall i, i < List.length (Utf8ToCodepoints text) ->
     exists l, HybridStep (Utf8ToCodepoints text) ascii_n kanji_n i = Returns l) ->
  GenerateHybridNgrams text ascii_n kanji_n
  = Returns (flat_map (fun i => pushed (HybridStep (Utf8ToCodepoints text)
                                          ascii_n kanji_n i))
                      (seq 0 (List.length (Utf8ToCodepoints text)))).
Proof.
  intros Hsteps. unfold GenerateHybridNgrams.
  destruct (Utf8ToCodepoints text) as [|c rest] eqn:Hcps; [reflexivity|].
  rewrite GenerateHybridNgrams_loop_returns; [reflexivity|].
  intros i Hi. apply in_seq in Hi. apply Hsteps. lia.
Qed.

Lemma GenerateHybridNgrams_returned (text : string) (ascii_n kanji_n : Z)
    (ngrams : list string) :
  GenerateHybridNgrams text ascii_n kanji_n = Returns ngrams ->
  ngrams
  = flat_map (fun i => pushed (HybridStep (Utf8ToCodepoints text)
                                 ascii_n kanji_n i))
             (seq 0 (List.length (Utf8ToCodepoints text))).
Proof.
  unfold GenerateHybridNgrams.
  destruct (Utf8ToCodepoints text) as [|c rest] eqn:Hcps.
  - intros [= <-]. reflexivity.
  - intros Hrun. now apply GenerateHybridNgrams_loop_returned in Hrun.
Qed.

(** What the loop body pushes at a position inside the text, for
    positive sizes. *)
Lemma HybridStep_uniform (codepoints : list N) (ascii_n kanji_n : Z) (i : nat) :
  is_int ascii_n -> is_int kanji_n ->
  (0 < ascii_n)%Z -> (0 < kanji_n)%Z ->
  (Z.of_nat (List.length codepoints) < 2 ^ 63)%Z ->
  i < List.length codepoints ->
  HybridStep codepoints ascii_n kanji_n i = Returns []
  \/ exists w,
       HybridStep codepoints ascii_n kanji_n i = Returns [CodepointsToUtf8 w]
       /\ class_uniform_window codepoints ascii_n kanji_n i w.
Proof.
  intros Ha Hk Hapos Hkpos Hsize Hi.
  unfold HybridStep.
  rewrite !reserve_returns by (assumption || lia).
  rewrite !size_t_of_int_nonneg by (assumption || lia).
  unfold is_int in Ha, Hk.
  rewrite !size_t_add_small by lia.
  destruct (IsCJKIdeograph (nth i codepoints 0%N)) eqn:Hclass.
  - destruct (Z.leb_spec (Z.of_nat i + kanji_n) (Z.of_nat (List.length codepoints)))
      as [Hfit | _]; [|now left].
    destruct (forallb _ _) eqn:Hall; [|now left].
    right. exists (Window codepoints i (Z.to_nat kanji_n)). split; [reflexivity|].
    unfold class_uniform_window. rewrite Window_length.
    repeat split; try lia.
    + apply Window_slice. lia.
    + left. split; [exact Hclass | split; [lia|]]. apply forallb_window, Hall.
  - destruct (Z.leb_spec (Z.of_nat i + ascii_n) (Z.of_nat (List.length codepoints)))
      as [Hfit | _]; [|now left].
    destruct (forallb _ _) eqn:Hall; [|now left].
    right. exists (Window codepoints i (Z.to_nat ascii_n)). split; [reflexivity|].
    unfold class_uniform_window. rewrite Window_length.
    repeat split; try lia.
    + apply Window_slice. lia.
    + right. split; [exact Hclass | split; [lia|]].
      apply (forallb_window (fun c => negb (IsCJKIdeograph c))) in Hall.
      eapply Forall_impl; [|exact Hall]. intros c Hc.
      now apply negb_true_iff.
Qed.

(** Collecting the pushes of the positions of a list. *)
Lemma flat_map_windows (codepoints : list N) (ascii_n kanji_n : Z)
    (step : nat -> list string) (positions : list nat) :
  (forall i, In i positions ->
     step i = [] \/
     exists w, step i = [CodepointsToUtf8 w]
               /\ class_uniform_window codepoints ascii_n kanji_n i w) ->
  exists windows : list (nat * list N),
    flat_map step positions = map (fun iw => CodepointsToUtf8 (snd iw)) windows
    /\ Forall (fun iw => In (fst iw) positions
                 /\ class_uniform_window codepoints ascii_n kanji_n (fst iw) (snd iw))
              windows.
Proof.
  induction positions as [|i positions IH]; intros Hstep.
  - exists []. split; [reflexivity | constructor].
  - destruct IH as [windows [Heq Hall]].
    { intros j Hj. apply Hstep. now right. }
    assert (Hall' : Forall (fun iw => In (fst iw) (i :: positions)
                     /\ class_uniform_window codepoints ascii_n kanji_n (fst iw) (snd iw))
                    windows).
    { eapply Forall_impl; [|exact Hall]. intros iw [Hin Hw]. split; [now right | exact Hw]. }
    destruct (Hstep i (or_introl eq_refl)) as [Hnone | [w [Hone Hw]]].
    + exists windows. cbn [flat_map]. rewrite Hnone. split; [exact Heq | exact Hall'].
    + exists ((i, w) :: windows). cbn [flat_map map snd]. rewrite Hone, Heq.
      split; [reflexivity|].
      constructor; [|exact Hall']. split; [now left | exact Hw].
Qed.

Lemma hiragana_katakana_not_cjk (c : N) :
  (0x3040 <= c <= 0x30FF)%N -> IsCJKIdeograph c = false.
Proof.
  intros Hc. unfold IsCJKIdeograph.
  unfold kCjkMainStart, kCjkMainEnd, kCjkExtAStart, kCjkExtAEnd, kCjkExtBStart,
    kCjkExtBEnd, kCjkExtCStart, kCjkExtCEnd, kCjkExtDStart, kCjkExtDEnd,
    kCjkCompatStart, kCjkCompatEnd.
  repeat match goal with
         | |- context [(?x <=? c)%N] => rewrite (proj2 (N.leb_gt x c)) by lia
         end.
  reflexivity.
Qed.

Lemma cjk_in_unicode_range (c : N) :
  IsCJKIdeograph c = true -> (c <= kUnicodeMaxCodepoint)%N.
Proof.
  unfold IsCJKIdeograph, kUnicodeMaxCodepoint.
  unfold kCjkMainStart, kCjkMainEnd, kCjkExtAStart, kCjkExtAEnd, kCjkExtBStart,
    kCjkExtBEnd, kCjkExtCStart, kCjkExtCEnd, kCjkExtDStart, kCjkExtDEnd,
    kCjkCompatStart, kCjkCompatEnd.
  rewrite !orb_true_iff, !andb_true_iff, !N.leb_le. lia.
Qed.

End Hybrid.

(** C2.  For positive window sizes, every n-gram that
    [GenerateHybridNgrams] emits is the UTF-8 rendering of a window of
    the decoded codepoints that is class-uniform: it starts at a
    position of the text; if the codepoint there is a CJK ideograph the
    window has exactly [kanji_n] codepoints, all CJK ideographs; if it is
    not, the window has exactly [ascii_n] codepoints, none of them a CJK
    ideograph.  Hiragana and Katakana are outside the six CJK ranges.
    The rendering of a window decodes to the window again when its
    codepoints are at most 0x10FFFF, as CJK ideographs are. *)
Theorem hybrid_ngrams_class_uniform (text : string) (ascii_n kanji_n : Z) :
  is_int ascii_n -> is_int kanji_n -> fits_size text ->
  (0 < ascii_n)%Z -> (0 < kanji_n)%Z ->
  let codepoints := Utf8ToCodepoints text in
  (exists windows : list (nat * list N),
     GenerateHybridNgrams text ascii_n kanji_n
     = Returns (map (fun iw => CodepointsToUtf8 (snd iw)) windows)
     /\ Forall (fun iw =>
                  class_uniform_window codepoints ascii_n kanji_n (fst iw) (snd iw))
               windows)
  /\ (forall c, (0x3040 <= c <= 0x30FF)%N -> IsCJKIdeograph c = false)
  /\ (forall c, IsCJKIdeograph c = true -> (c <= kUnicodeMaxCodepoint)%N)
  /\ (forall w, Forall (fun c => (c <= kUnicodeMaxCodepoint)%N) w ->
                Utf8ToCodepoints (CodepointsToUtf8 w) = w).
Proof.
  intros Ha Hk Hfits Hapos Hkpos codepoints.
  split; [|split; [exact hiragana_katakana_not_cjk|
                   split; [exact cjk_in_unicode_range | exact decode_encode_in_range]]].
  pose proof (Utf8ToCodepoints_length text) as Hlen. fold codepoints in Hlen.
  unfold fits_size in Hfits.
  assert (Hstep : forall i, i < List.length codepoints ->
            HybridStep codepoints ascii_n kanji_n i = Returns []
            \/ exists w,
                 HybridStep codepoints ascii_n kanji_n i
                 = Returns [CodepointsToUtf8 w]
                 /\ class_uniform_window codepoints ascii_n kanji_n i w).
  { intros i Hi. apply HybridStep_uniform; (assumption || lia). }
  destruct (flat_map_windows codepoints ascii_n kanji_n
              (fun i => pushed (HybridStep codepoints ascii_n kanji_n i))
              (seq 0 (List.length codepoints))) as [windows [Heq Hall]].
  { intros i Hi. apply in_seq in Hi. cbv beta.
    destruct (Hstep i ltac:(lia)) as [-> | (w & -> & Hw)];
      [now left | right; exists w; split; [reflexivity | exact Hw]]. }
  exists windows. split.
  - rewrite <- Heq. apply GenerateHybridNgrams_returns.
    intros i Hi. fold codepoints in Hi |- *.
    destruct (Hstep i Hi) as [H | (w & H & _)]; rewrite H; eexists; reflexivity.
  - eapply Forall_impl; [|exact Hall]. intros iw [_ Hw]. exact Hw.
Qed.

(** C4.  The empty text yields no n-gram whatever the sizes are, but a
    non-positive size on a non-empty text does not yield the empty
    sequence: [GenerateHybridNgrams] does not have the [n <= 0] guard of
    [GenerateNgrams].  With the size 0 the window test passes and an
    n-gram without codepoints is pushed; with a negative size the window
    test passes at a later position through the conversion to [size_t],
    and [reserve] throws. *)
Theorem hybrid_ngrams_nonpositive_size :
  (forall ascii_n kanji_n, GenerateHybridNgrams "" ascii_n kanji_n = Returns [])
  /\ GenerateHybridNgrams "a" 0 1 = Returns [""]
  /\ GenerateHybridNgrams "ab" (-1) 1 = Throws length_error
  /\ GenerateNgrams "a" 0 = [].
Proof. repeat split; vm_compute; reflexivity. Qed.

(** ** The query string *)

Section QueryString.

Lemma concat_glue (sep a q : string) (rest : list string) :
  String.concat sep (((a ++ sep) ++ q) :: rest)
  = a ++ sep ++ String.concat sep (q :: rest).
Proof.
  destruct rest as [|r rest]; cbn [String.concat].
  - apply string_app_assoc.
  - now rewrite !string_app_assoc.
Qed.

Lemma required_loop_next (terms : list string) : forall i oss,
  required_loop terms (S i) oss = String.concat " AND " (oss :: terms).
Proof.
  induction terms as [|t terms IH]; intros i oss; [reflexivity|].
  cbn [required_loop]. change (0 <? S i)%nat with true. cbn iota.
  rewrite IH, concat_glue. reflexivity.
Qed.

Lemma required_loop_concat (terms : list string) :
  required_loop terms 0 "" = String.concat " AND " terms.
Proof.
  destruct terms as [|t terms]; [reflexivity|].
  cbn [required_loop]. change (0 <? 0)%nat with false. cbn iota.
  apply required_loop_next.
Qed.

Lemma concat_nonempty_part (sep oss : string) :
  String.concat sep (nonempty_part oss) = oss.
Proof. destruct oss; reflexivity. Qed.

(** Joining the accumulator with a non-empty part [q] and then with the
    other parts, or first appending [q] to the accumulator the way the
    code does. *)
Lemma concat_accumulate (sep oss q : string) (rest : list string) :
  empty q = false ->
  String.concat sep (nonempty_part oss ++ q :: rest)
  = String.concat sep
      (nonempty_part ((if negb (empty oss) then oss ++ sep else oss) ++ q) ++ rest).
Proof.
  intros Hq. destruct oss as [|c oss].
  - cbn [empty negb nonempty_part app append]. unfold nonempty_part. rewrite Hq.
    reflexivity.
  - cbn [empty negb]. unfold nonempty_part. cbn [empty append app].
    change (String c ((oss ++ sep) ++ q)) with ((String c oss ++ sep) ++ q).
    rewrite concat_glue. destruct rest; reflexivity.
Qed.

Lemma excluded_fold (sep := " AND ") (terms : list string) : forall oss rest,
  String.concat sep (nonempty_part (fold_left excluded_step terms oss) ++ rest)
  = String.concat sep
      (nonempty_part oss ++ map (fun term => "NOT " ++ term) terms ++ rest).
Proof.
  induction terms as [|t terms IH]; intros oss rest; [reflexivity|].
  cbn [fold_left map app]. rewrite IH. unfold excluded_step.
  symmetry. apply (concat_accumulate sep oss ("NOT " ++ t)). reflexivity.
Qed.

Lemma ToQueryString_parts (e : SearchExpression) :
  ToQueryString e = String.concat " AND " (query_parts e).
Proof.
  unfold ToQueryString, query_parts.
  rewrite required_loop_concat.
  set (R := String.concat " AND " (required_terms e)).
  rewrite <- excluded_fold.
  set (oss := fold_left excluded_step (excluded_terms e) R).
  destruct (empty (raw_expression e)) eqn:Hraw; cbn [negb].
  - rewrite app_nil_r. symmetry. apply concat_nonempty_part.
  - rewrite (concat_accumulate " AND " oss ("(" ++ raw_expression e ++ ")") [])
      by reflexivity.
    rewrite app_nil_r. symmetry. apply concat_nonempty_part.
Qed.

End QueryString.

(** C3, as the code has it.  [ToQueryString] joins with " AND " the
    parts that are there: the required terms (themselves joined with
    " AND ") unless that string is empty, each excluded term prefixed
    with "NOT ", and the raw expression in parentheses unless it is
    empty.  A separator is written before an excluded term only when
    something was written before it: with no required term, the excluded
    term "old" and no raw expression the result is "NOT old". *)
Theorem ToQueryString_separators :
  (forall e : SearchExpression,
     ToQueryString e = String.concat " AND " (query_parts e))
  /\ (forall oss term : string,
        excluded_step oss term
        = if empty oss then "NOT " ++ term else oss ++ " AND " ++ "NOT " ++ term)
  /\ ToQueryString (mkSearchExpression [] ["old"] [] "") = "NOT old".
Proof.
  split; [exact ToQueryString_parts | split; [|reflexivity]].
  intros oss term. unfold excluded_step.
  destruct oss; cbn [empty negb]; [reflexivity | apply string_app_assoc].
Qed.

(** C3, as the claim has it, fails: for the expression with the single
    excluded term "old" no " AND " precedes "NOT old" in the output. *)
Lemma ToQueryString_excluded_only_counterexample :
  ~ (exists pre post : string,
       ToQueryString (mkSearchExpression [] ["old"] [] "")
       = pre ++ " AND " ++ "NOT old" ++ post).
Proof.
  intros [pre [post Heq]].
  change (ToQueryString _) with "NOT old" in Heq.
  apply (f_equal String.length) in Heq.
  rewrite !string_length_app in Heq. cbn [String.length] in Heq. lia.
Qed.

(** ** Parser steps *)

Section ParserSteps.

Variable input : string.

Lemma Advance_after (p : Parser) :
  Advance input p = Some (tt, after_Advance input p).
Proof.
  unfold Advance, after_Advance.
  destruct (Next input (tokenizer_pos p)) as [tok pos']. reflexivity.
Qed.

Lemma LooksLikeOrExpression_restores (p : Parser) :
  LooksLikeOrExpression input p
  = Some (TokenType_eqb (type (next_token input p)) kOr,
          mkParser (tokenizer_pos p) (current_ p) (tokenizer_pos p)).
Proof.
  unfold LooksLikeOrExpression, bind, GetPosition, current.
  rewrite Advance_after. reflexivity.
Qed.

(** [Advance] reads from the cursor only. *)
Lemma after_Advance_restored (p : Parser) (last : nat) :
  after_Advance input (mkParser (tokenizer_pos p) (current_ p) last)
  = after_Advance input p.
Proof. reflexivity. Qed.

(** A bare term that is not followed by [OR] goes to [required_terms]. *)
Lemma Parse_loop_bare_term (fuel : nat) (expr : SearchExpression) (p : Parser) :
  type (current_ p) = kTerm ->
  TokenType_eqb (type (next_token input p)) kOr = false ->
  Parse_loop input (S fuel) expr p
  = Parse_loop input fuel (push_required expr (value (current_ p)))
      (after_Advance input p).
Proof.
  intros Hterm Hnext. cbn [Parse_loop]. unfold bind at 1. unfold current at 1.
  rewrite Hterm. unfold bind at 1.
  rewrite LooksLikeOrExpression_restores, Hnext.
  unfold bind at 1. rewrite Advance_after. reflexivity.
Qed.

(** A term prefixed with [+] goes to [required_terms]. *)
Lemma Parse_loop_plus_term (fuel : nat) (expr : SearchExpression) (p : Parser) :
  type (current_ p) = kPlus ->
  type (next_token input p) = kTerm ->
  Parse_loop input (S fuel) expr p
  = Parse_loop input fuel (push_required expr (value (next_token input p)))
      (after_Advance input (after_Advance input p)).
Proof.
  intros Hplus Hnext. cbn [Parse_loop]. unfold bind at 1. unfold current at 1.
  rewrite Hplus. unfold bind at 1. rewrite Advance_after.
  unfold bind at 1. unfold ParsePrefixedTerm, bind at 1. unfold current at 1.
  change (current_ (after_Advance input p)) with (next_token input p).
  rewrite Hnext. unfold bind at 1. rewrite Advance_after. reflexivity.
Qed.

(** In the loop of [CaptureOrExpression], an [OR] that is not followed by
    a term, a quoted term or a parenthesis ends the capture with the
    empty string, whatever was captured so far. *)
Lemma CaptureOr_loop_incomplete (fuel : nat) (oss : string) (p : Parser) :
  type (current_ p) = kOr ->
  is_or_operand (type (next_token input p)) = false ->
  CaptureOr_loop input (S fuel) oss p = Some ("", after_Advance input p).
Proof.
  intros Hor Hnext. cbn [CaptureOr_loop]. unfold bind at 1. unfold current at 1.
  rewrite Hor. cbn [TokenType_eqb]. unfold bind at 1. rewrite Advance_after.
  unfold bind at 1. unfold current at 1.
  change (current_ (after_Advance input p)) with (next_token input p).
  destruct (type (next_token input p)); try discriminate Hnext; reflexivity.
Qed.

(** A term that starts an OR-chain broken right after the [OR]: the
    parser goes on behind the [OR], with the empty string appended to the
    raw expression. *)
Lemma Parse_loop_incomplete_or (fuel : nat) (expr : SearchExpression) (p : Parser) :
  type (current_ p) = kTerm \/ type (current_ p) = kQuotedTerm ->
  type (next_token input p) = kOr ->
  is_or_operand (type (next_token input (after_Advance input p))) = false ->
  Parse_loop input (S (S fuel)) expr p
  = Parse_loop input (S fuel) (append_raw expr "")
      (after_Advance input (after_Advance input p)).
Proof.
  intros Hterm Hnext Hbad.
  assert (Hcapture :
    CaptureOrExpression input (S fuel)
      (mkParser (tokenizer_pos p) (current_ p) (tokenizer_pos p))
    = Some ("", after_Advance input (after_Advance input p))).
  { unfold CaptureOrExpression, bind at 1. unfold current at 1.
    unfold bind at 1. rewrite Advance_after, after_Advance_restored.
    apply CaptureOr_loop_incomplete; [exact Hnext | exact Hbad]. }
  cbn [Parse_loop]. unfold bind at 1. unfold current at 1.
  destruct Hterm as [Hterm | Hterm]; rewrite Hterm;
    unfold bind at 1;
    rewrite LooksLikeOrExpression_restores, Hnext; cbn [TokenType_eqb];
    unfold bind at 1; cbn [Parse_loop] in Hcapture |- *; rewrite Hcapture;
    reflexivity.
Qed.

(** If the input ends behind that [OR], the parse ends there without an
    error. *)
Lemma Parse_loop_trailing_or (fuel : nat) (expr : SearchExpression) (p : Parser) :
  type (current_ p) = kTerm \/ type (current_ p) = kQuotedTerm ->
  type (next_token input p) = kOr ->
  type (next_token input (after_Advance input p)) = kEnd ->
  Parse_loop input (S (S fuel)) expr p
  = Some (Value (append_raw expr ""),
          after_Advance input (after_Advance input p)).
Proof.
  intros Hterm Hnext Hend.
  rewrite Parse_loop_incomplete_or; try assumption; [|now rewrite Hend].
  cbn [Parse_loop]. unfold bind at 1. unfold current at 1.
  change (current_ (after_Advance input (after_Advance input p)))
    with (next_token input (after_Advance input p)).
  rewrite Hend. reflexivity.
Qed.

Lemma append_raw_empty (expr : SearchExpression) :
  required_terms (append_raw expr "") = required_terms expr
  /\ excluded_terms (append_raw expr "") = excluded_terms expr
  /\ (raw_expression expr = "" -> append_raw expr "" = expr).
Proof.
  split; [reflexivity | split; [reflexivity|]].
  destruct expr as [req exc opt raw]. cbn. intros ->. reflexivity.
Qed.

End ParserSteps.

(** C5.  "python OR ruby" parses to the raw expression
    "python OR ruby" with no required and no excluded term, and its query
    string is "(python OR ruby)".  The test for an OR-chain looks at one
    token: it answers whether the token after the cursor is [OR], and
    leaves the cursor and the current token as they were, whatever the
    answer. *)
Theorem or_chain_one_token_lookahead :
  ParseSearchExpression "python OR ruby"
  = Some (Value (mkSearchExpression [] [] [] "python OR ruby"))
  /\ ToQueryString (mkSearchExpression [] [] [] "python OR ruby")
     = "(python OR ruby)"
  /\ ConvertSearchExpression "python OR ruby" = Some (Value "(python OR ruby)")
  /\ (forall (input : string) (p : Parser),
        exists (has_or : bool) (p' : Parser),
          LooksLikeOrExpression input p = Some (has_or, p')
          /\ has_or = TokenType_eqb (type (next_token input p)) kOr
          /\ tokenizer_pos p' = tokenizer_pos p
          /\ current_ p' = current_ p).
Proof.
  split; [vm_compute; reflexivity|].
  split; [vm_compute; reflexivity|].
  split; [vm_compute; reflexivity|].
  intros input p.
  exists (TokenType_eqb (type (next_token input p)) kOr).
  exists (mkParser (tokenizer_pos p) (current_ p) (tokenizer_pos p)).
  split; [apply LooksLikeOrExpression_restores | repeat split].
Qed.

(** C6.  "+golang tutorial" parses to the required terms golang and
    tutorial, with no excluded term and no raw expression.  In the loop
    of [Parse] a bare term that does not start an OR-chain and a term
    after [+] are both appended to [required_terms]. *)
Theorem bare_term_is_required :
  ParseSearchExpression "+golang tutorial"
  = Some (Value (mkSearchExpression ["golang"; "tutorial"] [] [] ""))
  /\ (forall (input : string) (fuel : nat) (expr : SearchExpression) (p : Parser),
        type (current_ p) = kTerm ->
        TokenType_eqb (type (next_token input p)) kOr = false ->
        Parse_loop input (S fuel) expr p
        = Parse_loop input fuel (push_required expr (value (current_ p)))
            (after_Advance input p))
  /\ (forall (input : string) (fuel : nat) (expr : SearchExpression) (p : Parser),
        type (current_ p) = kPlus ->
        type (next_token input p) = kTerm ->
        Parse_loop input (S fuel) expr p
        = Parse_loop input fuel (push_required expr (value (next_token input p)))
            (after_Advance input (after_Advance input p))).
Proof.
  split; [vm_compute; reflexivity|].
  split; [exact Parse_loop_bare_term | exact Parse_loop_plus_term].
Qed.

(** ** Progress of the tokenizer *)

Section TokenizerProgress.

#[local] Open Scope nat_scope.

Variable input : string.

Lemma SkipWhitespace_loop_ge : forall fuel pos,
  pos <= SkipWhitespace_loop input fuel pos.
Proof.
  induction fuel as [|fuel IH]; intros pos; cbn [SkipWhitespace_loop]; [lia|].
  destruct (pos <? String.length input); [|lia].
  destruct (IsFullWidthSpace input pos).
  - specialize (IH (pos + 3)). lia.
  - destruct (isspace (byte_at input pos)); [|lia].
    specialize (IH (pos + 1)). lia.
Qed.

(** Where [SkipWhitespace] stops inside the input there is no space. *)
Lemma SkipWhitespace_loop_stop : forall fuel pos,
  String.length input - pos <= fuel ->
  SkipWhitespace_loop input fuel pos < String.length input ->
  IsFullWidthSpace input (SkipWhitespace_loop input fuel pos) = false
  /\ isspace (byte_at input (SkipWhitespace_loop input fuel pos)) = false.
Proof.
  induction fuel as [|fuel IH]; intros pos Hfuel; cbn [SkipWhitespace_loop].
  - intros Hlt. lia.
  - destruct (pos <? String.length input) eqn:Hpos.
    + destruct (IsFullWidthSpace input pos) eqn:Hfw.
      * apply IH. lia.
      * destruct (isspace (byte_at input pos)) eqn:Hsp.
        -- apply IH. lia.
        -- intros _. split; assumption.
    + apply Nat.ltb_ge in Hpos. intros Hlt. lia.
Qed.

(** The loops of the tokenizer end by their own test before the fuel
    they are given runs out: more fuel changes nothing. *)
Lemma SkipWhitespace_loop_fuel : forall fuel1 fuel2 pos,
  String.length input - pos <= fuel1 ->
  String.length input - pos <= fuel2 ->
  SkipWhitespace_loop input fuel1 pos = SkipWhitespace_loop input fuel2 pos.
Proof.
  induction fuel1 as [|fuel1 IH]; intros fuel2 pos H1 H2;
    destruct fuel2 as [|fuel2]; cbn [SkipWhitespace_loop]; try reflexivity;
    destruct (pos <? String.length input) eqn:Hpos; try reflexivity;
    try (apply Nat.ltb_lt in Hpos; lia).
  destruct (IsFullWidthSpace input pos); [apply IH; lia|].
  destruct (isspace (byte_at input pos)); [apply IH; lia | reflexivity].
Qed.

Lemma ReadTerm_loop_fuel : forall fuel1 fuel2 term pos,
  String.length input - pos <= fuel1 ->
  String.length input - pos <= fuel2 ->
  ReadTerm_loop input fuel1 term pos = ReadTerm_loop input fuel2 term pos.
Proof.
  induction fuel1 as [|fuel1 IH]; intros fuel2 term pos H1 H2;
    destruct fuel2 as [|fuel2]; cbn [ReadTerm_loop]; try reflexivity;
    destruct (pos <? String.length input) eqn:Hpos; try reflexivity;
    try (apply Nat.ltb_lt in Hpos; lia).
  destruct (IsFullWidthSpace input pos); [reflexivity|].
  destruct (is_term_stop (char_at input pos)); [reflexivity | apply IH; lia].
Qed.

Lemma ReadQuotedString_loop_fuel : forall fuel1 fuel2 term pos,
  String.length input - pos <= fuel1 ->
  String.length input - pos <= fuel2 ->
  ReadQuotedString_loop input fuel1 term pos
  = ReadQuotedString_loop input fuel2 term pos.
Proof.
  induction fuel1 as [|fuel1 IH]; intros fuel2 term pos H1 H2;
    destruct fuel2 as [|fuel2]; cbn [ReadQuotedString_loop]; try reflexivity;
    destruct (pos <? String.length input) eqn:Hpos; try reflexivity;
    try (apply Nat.ltb_lt in Hpos; lia).
  destruct (char_at input pos =? dquote)%char; [reflexivity|].
  destruct ((char_at input pos =? backslash)%char && (pos + 1 <? String.length input));
    apply IH; lia.
Qed.

Lemma ReadTerm_loop_ge : forall fuel term pos,
  pos <= snd (ReadTerm_loop input fuel term pos).
Proof.
  induction fuel as [|fuel IH]; intros term pos; cbn [ReadTerm_loop]; [simpl; lia|].
  destruct (pos <? String.length input); [|simpl; lia].
  destruct (IsFullWidthSpace input pos); [simpl; lia|].
  destruct (is_term_stop (char_at input pos)); [simpl; lia|].
  specialize (IH (push_back term (char_at input pos)) (pos + 1)). lia.
Qed.

Lemma ReadQuotedString_loop_ge : forall fuel term pos,
  pos <= snd (ReadQuotedString_loop input fuel term pos).
Proof.
  induction fuel as [|fuel IH]; intros term pos; cbn [ReadQuotedString_loop];
    [simpl; lia|].
  destruct (pos <? String.length input); [|simpl; lia].
  destruct (char_at input pos =? dquote)%char; [simpl; lia|].
  destruct ((char_at input pos =? backslash)%char && (pos + 1 <? String.length input)).
  - specialize (IH (push_back term (char_at input (pos + 1))) (pos + 1 + 1)). lia.
  - specialize (IH (push_back term (char_at input pos)) (pos + 1)). lia.
Qed.

Lemma is_term_stop_false (c : ascii) :
  isspace (N_of_ascii c) = false ->
  (c =? dquote)%char = false -> (c =? "+")%char = false ->
  (c =? "-")%char = false -> (c =? "(")%char = false ->
  (c =? ")")%char = false ->
  is_term_stop c = false.
Proof.
  intros Hsp Hq Hplus Hminus Hl Hr. unfold is_term_stop.
  now rewrite Hsp, Hq, Hplus, Hminus, Hl, Hr.
Qed.

Lemma byte_at_char_at (s : string) (i : nat) :
  i < String.length s -> byte_at s i = N_of_ascii (char_at s i).
Proof.
  unfold byte_at, char_at. revert i.
  induction s as [|c s IH]; intros i Hi; simpl in Hi; [lia|].
  destruct i as [|i]; [reflexivity|]. simpl. apply IH. lia.
Qed.

(** [Next] never moves the cursor back, and moves it forward when it
    returns a token other than the end. *)
Lemma Next_progress (pos : nat) :
  pos <= snd (Next input pos)
  /\ (type (fst (Next input pos)) <> kEnd ->
      pos < snd (Next input pos) /\ pos < String.length input).
Proof.
  unfold Next.
  pose proof (SkipWhitespace_loop_ge (String.length input - pos) pos) as Hge.
  pose proof (SkipWhitespace_loop_stop (String.length input - pos) pos (Nat.le_refl _))
    as Hstop.
  fold (SkipWhitespace input pos) in Hge, Hstop.
  set (pos_ := SkipWhitespace input pos) in *.
  destruct (String.length input <=? pos_) eqn:Hend.
  { cbn [fst snd type]. split; [exact Hge | congruence]. }
  apply Nat.leb_gt in Hend. destruct (Hstop Hend) as [Hfw Hsp].
  destruct (char_at input pos_ =? dquote)%char eqn:Hq.
  { unfold ReadQuotedString. rewrite Hq.
    replace (String.length input <=? pos_) with false
      by (symmetry; apply Nat.leb_gt; exact Hend).
    cbn [orb negb].
    pose proof (ReadQuotedString_loop_ge (String.length input - (pos_ + 1)) "" (pos_ + 1))
      as Hq_ge.
    destruct (ReadQuotedString_loop input _ "" (pos_ + 1)) as [quoted pos'].
    cbn [fst snd] in *. split; [lia | intros _; lia]. }
  destruct (char_at input pos_ =? "+")%char eqn:Hplus;
    [cbn [fst snd]; split; [lia | intros _; lia]|].
  destruct (char_at input pos_ =? "-")%char eqn:Hminus;
    [cbn [fst snd]; split; [lia | intros _; lia]|].
  destruct (char_at input pos_ =? "(")%char eqn:Hl;
    [cbn [fst snd]; split; [lia | intros _; lia]|].
  destruct (char_at input pos_ =? ")")%char eqn:Hr;
    [cbn [fst snd]; split; [lia | intros _; lia]|].
  cbv zeta.
  match goal with |- context [if ?c then _ else _] => destruct c end;
    [cbn [fst snd]; split; [lia | intros _; lia]|].
  unfold ReadTerm.
  destruct (String.length input - pos_) as [|fuel] eqn:Hfuel; [lia|].
  cbn [ReadTerm_loop].
  replace (pos_ <? String.length input) with true
    by (symmetry; apply Nat.ltb_lt; exact Hend).
  rewrite Hfw.
  rewrite is_term_stop_false;
    try assumption; [|rewrite <- byte_at_char_at by exact Hend; exact Hsp].
  pose proof (ReadTerm_loop_ge fuel (push_back "" (char_at input pos_)) (pos_ + 1))
    as Ht_ge.
  destruct (ReadTerm_loop input fuel _ (pos_ + 1)) as [term pos'].
  cbn [fst snd] in *. split; [lia | intros _; lia].
Qed.

(** [Advance] never leaves more to read, and leaves less when the
    current token is not the end. *)
Lemma Advance_remaining (p : Parser) :
  remaining input (after_Advance input p) <= String.length input - tokenizer_pos p.
Proof.
  unfold remaining, after_Advance. cbn [tokenizer_pos current_].
  destruct (Next_progress (tokenizer_pos p)) as [Hge Hlt].
  destruct (type (fst (Next input (tokenizer_pos p)))) eqn:Hty;
    try (destruct Hlt as [Hlt Hin]; [congruence|]; lia).
  lia.
Qed.

Lemma Advance_remaining_le (p : Parser) :
  remaining input (after_Advance input p) <= remaining input p.
Proof. pose proof (Advance_remaining p). unfold remaining at 2. lia. Qed.

Lemma Advance_remaining_lt (p : Parser) :
  type (current_ p) <> kEnd ->
  remaining input (after_Advance input p) < remaining input p.
Proof.
  intros Hne. pose proof (Advance_remaining p). unfold remaining at 2.
  destruct (type (current_ p)); try congruence; lia.
Qed.

End TokenizerProgress.

(** ** The parser always returns *)

Section ParserTotal.

#[local] Open Scope nat_scope.

Variable input : string.

Lemma CaptureParen_loop_total : forall fuel oss depth p,
  remaining input p < fuel ->
  exists r p',
    CaptureParen_loop input fuel oss depth p = Some (r, p')
    /\ remaining input p' <= remaining input p
    /\ (type (current_ p) <> kEnd -> remaining input p' < remaining input p).
Proof.
  induction fuel as [|fuel IH]; intros oss depth p Hfuel; [lia|].
  cbn [CaptureParen_loop]. unfold bind at 1. unfold current at 1.
  pose proof (Advance_remaining_le input p) as Hle.
  pose proof (Advance_remaining_lt input p) as Hlt.
  destruct (type (current_ p)) eqn:Hty;
    try (match goal with
         | |- context [if ?c then _ else _] => destruct c
         end;
         unfold bind at 1; rewrite Advance_after;
         [ match goal with
           | |- context [CaptureParen_loop input fuel ?o ?d _] =>
               destruct (IH o d (after_Advance input p)) as (r & p' & Heq & Hle' & _);
               [specialize (Hlt ltac:(congruence)); lia|];
               exists r, p'; split; [exact Heq|];
               specialize (Hlt ltac:(congruence)); split; [lia | intros _; lia]
           end
         | eexists; eexists; split; [reflexivity|];
           specialize (Hlt ltac:(congruence)); split; [lia | intros _; lia] ]).
  exists "", p. split; [reflexivity|]. split; [lia | congruence].
Qed.

Lemma CaptureParenExpression_total fuel p :
  remaining input p < fuel ->
  exists r p',
    CaptureParenExpression input fuel p = Some (r, p')
    /\ remaining input p' <= remaining input p
    /\ (type (current_ p) = kLParen -> remaining input p' < remaining input p).
Proof.
  intros Hfuel. unfold CaptureParenExpression, bind at 1. unfold current at 1.
  destruct (TokenType_eqb (type (current_ p)) kLParen) eqn:Hty; cbn [negb].
  - destruct (CaptureParen_loop_total fuel "" 0%Z p Hfuel) as (r & p' & Heq & Hle & Hlt).
    exists r, p'. split; [exact Heq|]. split; [exact Hle|].
    intros Hl. apply Hlt. congruence.
  - exists "", p. split; [reflexivity|]. split; [lia|].
    intros Hl. rewrite Hl in Hty. discriminate.
Qed.

Lemma CaptureOr_loop_total : forall fuel oss p,
  remaining input p < fuel ->
  exists r p',
    CaptureOr_loop input fuel oss p = Some (r, p') /\ remaining input p' <= remaining input p.
Proof.
  induction fuel as [|fuel IH]; intros oss p Hfuel; [lia|].
  cbn [CaptureOr_loop]. unfold bind at 1. unfold current at 1.
  destruct (TokenType_eqb (type (current_ p)) kOr) eqn:Hor;
    [|exists oss, p; split; [reflexivity | lia]].
  assert (Hne : type (current_ p) <> kEnd)
    by (intros Hend; rewrite Hend in Hor; discriminate).
  pose proof (Advance_remaining_lt input p Hne) as Hlt.
  unfold bind at 1. rewrite Advance_after.
  unfold bind at 1. unfold current at 1.
  set (p1 := after_Advance input p) in *.
  pose proof (Advance_remaining_le input p1) as Hle1.
  destruct (type (current_ p1)) eqn:Hty1;
    try (exists "", p1; split; [reflexivity | lia]).
  - unfold bind at 1. rewrite Advance_after.
    destruct (IH ((oss ++ " OR ") ++ value (current_ p1)) (after_Advance input p1))
      as (r & p' & Heq & Hle'); [lia|].
    exists r, p'. split; [exact Heq | lia].
  - unfold bind at 1. rewrite Advance_after.
    destruct (IH ((oss ++ " OR ") ++ quoted (value (current_ p1)))
                 (after_Advance input p1))
      as (r & p' & Heq & Hle'); [lia|].
    exists r, p'. split; [exact Heq | lia].
  - destruct (CaptureParenExpression_total fuel p1) as (paren & p2 & Heq2 & Hle2 & _);
      [lia|].
    unfold bind at 1. rewrite Heq2.
    destruct (empty paren); [exists "", p2; split; [reflexivity | lia]|].
    destruct (IH ((oss ++ " OR ") ++ paren) p2) as (r & p' & Heq & Hle'); [lia|].
    exists r, p'. split; [exact Heq | lia].
Qed.

Lemma CaptureOrExpression_total fuel p :
  type (current_ p) <> kEnd ->
  remaining input p <= fuel ->
  exists r p',
    CaptureOrExpression input fuel p = Some (r, p') /\ remaining input p' < remaining input p.
Proof.
  intros Hne Hfuel. unfold CaptureOrExpression, bind at 1. unfold current at 1.
  unfold bind at 1. rewrite Advance_after.
  pose proof (Advance_remaining_lt input p Hne) as Hlt.
  match goal with
  | |- context [CaptureOr_loop input fuel ?o _] =>
      destruct (CaptureOr_loop_total fuel o (after_Advance input p))
        as (r & p' & Heq & Hle); [lia|]
  end.
  exists r, p'. split; [exact Heq | lia].
Qed.

Lemma ParsePrefixedTerm_total fuel p :
  remaining input p < fuel ->
  exists r p',
    ParsePrefixedTerm input fuel p = Some (r, p') /\ remaining input p' <= remaining input p.
Proof.
  intros Hfuel. unfold ParsePrefixedTerm, bind at 1. unfold current at 1.
  pose proof (Advance_remaining_le input p) as Hle.
  destruct (type (current_ p)) eqn:Hty;
    try (eexists; exists p; split; [reflexivity | lia]);
    try (unfold bind at 1; rewrite Advance_after;
         eexists; eexists; split; [reflexivity | exact Hle]).
  destruct (CaptureParenExpression_total fuel p Hfuel) as (r & p' & Heq & Hle' & _).
  unfold bind at 1. rewrite Heq. eexists; exists p'. split; [reflexivity | exact Hle'].
Qed.

(** With fuel for what is left and two more the loop of [Parse] returns,
    and what it returns is not the error of the empty input. *)
Lemma Parse_loop_total : forall fuel expr p,
  remaining input p + 2 <= fuel ->
  exists r p',
    Parse_loop input fuel expr p = Some (r, p') /\ ~ is_empty_error r.
Proof.
  induction fuel as [|fuel IH]; intros expr p Hfuel; [lia|].
  cbn [Parse_loop]. unfold bind at 1. unfold current at 1.
  pose proof (Advance_remaining_lt input p) as Hlt.
  destruct (type (current_ p)) eqn:Hty;
    try specialize (Hlt ltac:(congruence)).
  - (* kTerm *)
    unfold bind at 1. rewrite LooksLikeOrExpression_restores.
    destruct (TokenType_eqb (type (next_token input p)) kOr).
    + destruct (CaptureOrExpression_total fuel
                  (mkParser (tokenizer_pos p) (current_ p) (tokenizer_pos p)))
        as (r & p' & Heq & Hlt'); [cbn; congruence | unfold remaining in *; cbn; lia|].
      unfold bind at 1. rewrite Heq. apply IH.
      unfold remaining in *. cbn in Hlt'. lia.
    + unfold bind at 1. rewrite Advance_after. apply IH.
      rewrite after_Advance_restored. lia.
  - (* kQuotedTerm *)
    unfold bind at 1. rewrite LooksLikeOrExpression_restores.
    destruct (TokenType_eqb (type (next_token input p)) kOr).
    + destruct (CaptureOrExpression_total fuel
                  (mkParser (tokenizer_pos p) (current_ p) (tokenizer_pos p)))
        as (r & p' & Heq & Hlt'); [cbn; congruence | unfold remaining in *; cbn; lia|].
      unfold bind at 1. rewrite Heq. apply IH.
      unfold remaining in *. cbn in Hlt'. lia.
    + unfold bind at 1. rewrite Advance_after. apply IH.
      rewrite after_Advance_restored. lia.
  - (* kPlus *)
    unfold bind at 1. rewrite Advance_after.
    destruct (ParsePrefixedTerm_total fuel (after_Advance input p))
      as (term & p' & Heq & Hle); [lia|].
    unfold bind at 1. rewrite Heq.
    destruct term as [term|]; [apply IH; lia|].
    eexists; eexists. split; [reflexivity | discriminate].
  - (* kMinus *)
    unfold bind at 1. rewrite Advance_after.
    destruct (ParsePrefixedTerm_total fuel (after_Advance input p))
      as (term & p' & Heq & Hle); [lia|].
    unfold bind at 1. rewrite Heq.
    destruct term as [term|]; [apply IH; lia|].
    eexists; eexists. split; [reflexivity | discriminate].
  - (* kOr *)
    eexists; eexists. split; [reflexivity | discriminate].
  - (* kLParen *)
    destruct (CaptureParenExpression_total fuel p) as (r & p' & Heq & _ & Hlt');
      [lia|].
    specialize (Hlt' Hty).
    unfold bind at 1. rewrite Heq.
    destruct (empty r); [|apply IH; lia].
    eexists; eexists. split; [reflexivity | discriminate].
  - (* kRParen *)
    eexists; eexists. split; [reflexivity | discriminate].
  - (* kEnd *)
    eexists; eexists. split; [reflexivity | discriminate].
Qed.

End ParserTotal.

(** ** More fuel gives the same result *)

Section ParserFuel.

#[local] Open Scope nat_scope.

Variable input : string.

Lemma CaptureParen_loop_fuel : forall fuel fuel' oss depth p r,
  CaptureParen_loop input fuel oss depth p = Some r ->
  fuel <= fuel' ->
  CaptureParen_loop input fuel' oss depth p = Some r.
Proof.
  induction fuel as [|fuel IH]; intros fuel' oss depth p r Hrun Hle;
    [discriminate|].
  destruct fuel' as [|fuel']; [lia|].
  cbn [CaptureParen_loop] in Hrun |- *.
  unfold bind at 1 in Hrun. unfold bind at 1.
  unfold current at 1 in Hrun. unfold current at 1.
  destruct (type (current_ p)); try exact Hrun;
    match goal with
    | |- context [if ?c then _ else _] => destruct c
    end;
    try exact Hrun;
    unfold bind at 1 in Hrun; unfold bind at 1;
    rewrite Advance_after in Hrun |- *;
    (apply (IH fuel'); [exact Hrun | lia]).
Qed.

Lemma CaptureParenExpression_fuel fuel fuel' p r :
  CaptureParenExpression input fuel p = Some r ->
  fuel <= fuel' ->
  CaptureParenExpression input fuel' p = Some r.
Proof.
  unfold CaptureParenExpression, bind, current.
  destruct (negb (TokenType_eqb (type (current_ p)) kLParen)); [trivial|].
  apply CaptureParen_loop_fuel.
Qed.

Lemma CaptureOr_loop_fuel : forall fuel fuel' oss p r,
  CaptureOr_loop input fuel oss p = Some r ->
  fuel <= fuel' ->
  CaptureOr_loop input fuel' oss p = Some r.
Proof.
  induction fuel as [|fuel IH]; intros fuel' oss p r Hrun Hle; [discriminate|].
  destruct fuel' as [|fuel']; [lia|].
  cbn [CaptureOr_loop] in Hrun |- *.
  unfold bind at 1 in Hrun. unfold bind at 1.
  unfold current at 1 in Hrun. unfold current at 1.
  destruct (TokenType_eqb (type (current_ p)) kOr); [|exact Hrun].
  unfold bind at 1 in Hrun. unfold bind at 1.
  rewrite Advance_after in Hrun |- *.
  unfold bind at 1 in Hrun. unfold bind at 1.
  unfold current at 1 in Hrun. unfold current at 1.
  destruct (type (current_ (after_Advance input p))); try exact Hrun.
  - unfold bind at 1 in Hrun. unfold bind at 1.
    rewrite Advance_after in Hrun |- *. apply (IH fuel'); [exact Hrun | lia].
  - unfold bind at 1 in Hrun. unfold bind at 1.
    rewrite Advance_after in Hrun |- *. apply (IH fuel'); [exact Hrun | lia].
  - unfold bind at 1 in Hrun. unfold bind at 1.
    destruct (CaptureParenExpression input fuel (after_Advance input p))
      as [[paren p2]|] eqn:Hparen; [|discriminate].
    rewrite (CaptureParenExpression_fuel fuel fuel' _ _ Hparen) by lia.
    destruct (empty paren); [exact Hrun|].
    apply (IH fuel'); [exact Hrun | lia].
Qed.

Lemma CaptureOrExpression_fuel fuel fuel' p r :
  CaptureOrExpression input fuel p = Some r ->
  fuel <= fuel' ->
  CaptureOrExpression input fuel' p = Some r.
Proof.
  unfold CaptureOrExpression, bind at 1. unfold bind at 2.
  unfold current. unfold bind. rewrite Advance_after.
  apply CaptureOr_loop_fuel.
Qed.

Lemma ParsePrefixedTerm_fuel fuel fuel' p r :
  ParsePrefixedTerm input fuel p = Some r ->
  fuel <= fuel' ->
  ParsePrefixedTerm input fuel' p = Some r.
Proof.
  unfold ParsePrefixedTerm, bind at 1. unfold bind at 4. unfold current.
  intros Hrun Hle.
  destruct (type (current_ p)); try exact Hrun.
  unfold bind in Hrun |- *.
  destruct (CaptureParenExpression input fuel p) as [[expr p2]|] eqn:Hparen;
    [|discriminate].
  rewrite (CaptureParenExpression_fuel fuel fuel' _ _ Hparen) by lia.
  exact Hrun.
Qed.

Lemma Parse_loop_fuel : forall fuel fuel' expr p r,
  Parse_loop input fuel expr p = Some r ->
  fuel <= fuel' ->
  Parse_loop input fuel' expr p = Some r.
Proof.
  induction fuel as [|fuel IH]; intros fuel' expr p r Hrun Hle; [discriminate|].
  destruct fuel' as [|fuel']; [lia|].
  cbn [Parse_loop] in Hrun |- *.
  unfold bind at 1 in Hrun. unfold bind at 1.
  unfold current at 1 in Hrun. unfold current at 1.
  destruct (type (current_ p)); try exact Hrun.
  - unfold bind at 1 in Hrun. unfold bind at 1.
    rewrite LooksLikeOrExpression_restores in Hrun |- *.
    destruct (TokenType_eqb (type (next_token input p)) kOr).
    + unfold bind at 1 in Hrun. unfold bind at 1.
      destruct (CaptureOrExpression input fuel _) as [[or_expr p2]|] eqn:Hor;
        [|discriminate].
      rewrite (CaptureOrExpression_fuel fuel fuel' _ _ Hor) by lia.
      apply (IH fuel'); [exact Hrun | lia].
    + unfold bind at 1 in Hrun. unfold bind at 1.
      rewrite Advance_after in Hrun |- *. apply (IH fuel'); [exact Hrun | lia].
  - unfold bind at 1 in Hrun. unfold bind at 1.
    rewrite LooksLikeOrExpression_restores in Hrun |- *.
    destruct (TokenType_eqb (type (next_token input p)) kOr).
    + unfold bind at 1 in Hrun. unfold bind at 1.
      destruct (CaptureOrExpression input fuel _) as [[or_expr p2]|] eqn:Hor;
        [|discriminate].
      rewrite (CaptureOrExpression_fuel fuel fuel' _ _ Hor) by lia.
      apply (IH fuel'); [exact Hrun | lia].
    + unfold bind at 1 in Hrun. unfold bind at 1.
      rewrite Advance_after in Hrun |- *. apply (IH fuel'); [exact Hrun | lia].
  - unfold bind at 1 in Hrun. unfold bind at 1.
    rewrite Advance_after in Hrun |- *.
    unfold bind at 1 in Hrun. unfold bind at 1.
    destruct (ParsePrefixedTerm input fuel _) as [[term p2]|] eqn:Hterm;
      [|discriminate].
    rewrite (ParsePrefixedTerm_fuel fuel fuel' _ _ Hterm) by lia.
    destruct term; [apply (IH fuel'); [exact Hrun | lia] | exact Hrun].
  - unfold bind at 1 in Hrun. unfold bind at 1.
    rewrite Advance_after in Hrun |- *.
    unfold bind at 1 in Hrun. unfold bind at 1.
    destruct (ParsePrefixedTerm input fuel _) as [[term p2]|] eqn:Hterm;
      [|discriminate].
    rewrite (ParsePrefixedTerm_fuel fuel fuel' _ _ Hterm) by lia.
    destruct term; [apply (IH fuel'); [exact Hrun | lia] | exact Hrun].
  - unfold bind at 1 in Hrun. unfold bind at 1.
    destruct (CaptureParenExpression input fuel p) as [[paren p2]|] eqn:Hparen;
      [|discriminate].
    rewrite (CaptureParenExpression_fuel fuel fuel' _ _ Hparen) by lia.
    destruct (empty paren); [exact Hrun | apply (IH fuel'); [exact Hrun | lia]].
Qed.

End ParserFuel.

(** [ParseSearchExpression] returns on every input, and reports the
    error of the empty input on the empty input only. *)
Lemma ParseSearchExpression_total (expression : string) :
  exists r,
    ParseSearchExpression expression = Some r
    /\ (is_empty_error r <-> expression = "").
Proof.
  unfold ParseSearchExpression.
  destruct expression as [|c rest] eqn:Hexpr.
  - eexists. split; [reflexivity|]. split; reflexivity.
  - rewrite <- Hexpr. cbn [empty]. replace (empty expression) with false by now subst.
    unfold new_Parser. rewrite Advance_after.
    destruct (Parse_loop_total expression (parse_fuel expression) empty_expression
                (after_Advance expression (mkParser 0 (mkToken kEnd "") 0)))
      as (r & p' & Heq & Hne).
    { pose proof (Advance_remaining expression (mkParser 0 (mkToken kEnd "") 0)) as H.
      cbn [tokenizer_pos] in H. unfold parse_fuel. lia. }
    unfold Parse. rewrite Heq. exists r. split; [reflexivity|].
    split; [intros He; contradiction | subst; discriminate].
Qed.

(** C8.  The empty input is rejected with the syntax error
    "Empty search expression", and only the empty input is.  The
    rejection is decided before a parser is built: run on the empty
    input, the parser itself would return the empty expression. *)
Theorem empty_expression_is_rejected :
  ParseSearchExpression ""
  = Some (MakeUnexpected (MakeError kQuerySyntaxError "Empty search expression"))
  /\ (forall (expression : string) (r : Expected SearchExpression Error),
        ParseSearchExpression expression = Some r ->
        (is_empty_error r <-> expression = ""))
  /\ (exists p : Parser,
        new_Parser "" = Some (tt, p)
        /\ forall fuel : nat,
             Parse "" (S fuel) p = Some (Value empty_expression, p)).
Proof.
  split; [reflexivity|]. split.
  - intros expression r Hr.
    destruct (ParseSearchExpression_total expression) as (r' & Hr' & Hiff).
    rewrite Hr in Hr'. injection Hr' as <-. exact Hiff.
  - eexists. split; [vm_compute; reflexivity|]. intros fuel. reflexivity.
Qed.

(** ** Instances *)

Lemma encode_decode_roundtrip_witness :
  WellFormedUtf8 "AI漢字test" = true
  /\ CodepointsToUtf8 (Utf8ToCodepoints "AI漢字test") = "AI漢字test".
Proof.
  split; [vm_compute; reflexivity|].
  apply (encode_decode_roundtrip "AI漢字test"). vm_compute. reflexivity.
Defined.

Lemma hybrid_ngrams_class_uniform_witness :
  is_int 2 /\ is_int 1 /\ fits_size "AI漢字test" /\ (0 < 2)%Z /\ (0 < 1)%Z
  /\ (exists windows : list (nat * list N),
        GenerateHybridNgrams "AI漢字test" 2 1
        = Returns (map (fun iw => CodepointsToUtf8 (snd iw)) windows)
        /\ Forall (fun iw =>
                     class_uniform_window (Utf8ToCodepoints "AI漢字test") 2 1
                       (fst iw) (snd iw))
                  windows)
  /\ IsCJKIdeograph 0x3042 = false
  /\ (0x6F22 <= kUnicodeMaxCodepoint)%N
  /\ Utf8ToCodepoints (CodepointsToUtf8 [0x6F22; 0x5B57]%N) = [0x6F22; 0x5B57]%N.
Proof.
  assert (H2 : is_int 2) by (unfold is_int; lia).
  assert (H1 : is_int 1) by (unfold is_int; lia).
  assert (Hfits : fits_size "AI漢字test") by (unfold fits_size; simpl; lia).
  assert (Ha : (0 < 2)%Z) by lia.
  assert (Hk : (0 < 1)%Z) by lia.
  repeat (split; [assumption|]).
  destruct (hybrid_ngrams_class_uniform "AI漢字test" 2 1 H2 H1 Hfits Ha Hk)
    as (Hwindows & Hkana & Hcjk & Hdecode).
  split; [exact Hwindows|].
  split; [apply Hkana; lia|].
  split; [apply Hcjk; reflexivity|].
  apply Hdecode. repeat constructor; vm_compute; discriminate.
Defined.

Lemma GenerateNgrams_windows_witness :
  is_int 2 /\ fits_size "hello" /\ (0 < 2 <= 5)%Z
  /\ GenerateNgrams "hello" 2
     = map (fun i => CodepointsToUtf8 (firstn 2 (skipn i (Utf8ToCodepoints "hello"))))
           (seq 0 4)
  /\ (GenerateNgrams "hello" 6 = []).
Proof.
  assert (H2 : is_int 2) by (unfold is_int; lia).
  assert (H6 : is_int 6) by (unfold is_int; lia).
  assert (Hfits : fits_size "hello") by (unfold fits_size; simpl; lia).
  assert (Hn : (0 < 2 <= 5)%Z) by lia.
  repeat (split; [assumption|]).
  split.
  - exact (proj1 (proj1 (proj2 (GenerateNgrams_windows "hello" 2 H2 Hfits)) Hn)).
  - apply (proj1 (GenerateNgrams_windows "hello" 6 H6 Hfits)).
    right. vm_compute. reflexivity.
Defined.

Lemma decode_encode_roundtrip_witness :
  Forall (fun c => (c <= kUnicodeMaxCodepoint)%N) [0x41; 0xE9; 0x6F22; 0x20000]%N
  /\ Utf8ToCodepoints (CodepointsToUtf8 [0x41; 0xE9; 0x6F22; 0x20000]%N)
     = [0x41; 0xE9; 0x6F22; 0x20000]%N.
Proof.
  assert (Hall : Forall (fun c => (c <= kUnicodeMaxCodepoint)%N)
                        [0x41; 0xE9; 0x6F22; 0x20000]%N)
    by (repeat constructor; vm_compute; discriminate).
  split; [exact Hall|].
  exact (proj2 (decode_encode_roundtrip [0x41; 0xE9; 0x6F22; 0x20000]%N) Hall).
Defined.

Lemma bare_term_is_required_witness :
  (type (current_ (initial_Parser "+golang tutorial")) = kPlus
   /\ type (next_token "+golang tutorial" (initial_Parser "+golang tutorial")) = kTerm
   /\ Parse_loop "+golang tutorial" 3 empty_expression
        (initial_Parser "+golang tutorial")
      = Parse_loop "+golang tutorial" 2 (push_required empty_expression "golang")
          (after_Advance "+golang tutorial"
             (after_Advance "+golang tutorial" (initial_Parser "+golang tutorial"))))
  /\ (type (current_ (initial_Parser "tutorial")) = kTerm
      /\ TokenType_eqb (type (next_token "tutorial" (initial_Parser "tutorial"))) kOr
         = false
      /\ Parse_loop "tutorial" 2 empty_expression (initial_Parser "tutorial")
         = Parse_loop "tutorial" 1 (push_required empty_expression "tutorial")
             (after_Advance "tutorial" (initial_Parser "tutorial"))).
Proof.
  assert (Hplus : type (current_ (initial_Parser "+golang tutorial")) = kPlus)
    by reflexivity.
  assert (Hnext : type (next_token "+golang tutorial"
                          (initial_Parser "+golang tutorial")) = kTerm)
    by reflexivity.
  assert (Hterm : type (current_ (initial_Parser "tutorial")) = kTerm)
    by reflexivity.
  assert (Hnot_or : TokenType_eqb
            (type (next_token "tutorial" (initial_Parser "tutorial"))) kOr = false)
    by reflexivity.
  split; (split; [assumption | split; [assumption|]]).
  - exact (proj2 (proj2 bare_term_is_required) "+golang tutorial" 2%nat
             empty_expression (initial_Parser "+golang tutorial") Hplus Hnext).
  - exact (proj1 (proj2 bare_term_is_required) "tutorial" 1%nat
             empty_expression (initial_Parser "tutorial") Hterm Hnot_or).
Defined.

Lemma empty_expression_is_rejected_witness :
  ParseSearchExpression "+"
  = Some (MakeUnexpected (MakeError kQuerySyntaxError "Expected term after '+'"))
  /\ ("+" = "" -> False).
Proof.
  assert (Hparse : ParseSearchExpression "+"
            = Some (MakeUnexpected
                      (MakeError kQuerySyntaxError "Expected term after '+'")))
    by (vm_compute; reflexivity).
  split; [exact Hparse|].
  intros Hempty.
  pose proof (proj2 (proj1 (proj2 empty_expression_is_rejected) "+" _ Hparse) Hempty)
    as Herr.
  unfold is_empty_error in Herr. discriminate Herr.
Defined.

(** * Further properties *)

(** ** More on the codec *)

Section CodecBounds.

#[local] Open Scope N_scope.

Lemma byte_at_lt (s : string) (i : nat) : byte_at s i < 256.
Proof.
  unfold byte_at. destruct (String.get i s); [apply N_of_ascii_lt | reflexivity].
Qed.

Lemma AssembleCodepoint_bound (text : string) (i : nat) :
  AssembleCodepoint text i (Utf8CharLength (byte_at text i)) < 0x200000.
Proof.
  pose proof (Utf8CharLength_pos (byte_at text i)) as Hpos.
  pose proof (Utf8CharLength_le (byte_at text i)) as Hle.
  pose proof (byte_at_lt text i) as H0.
  unfold AssembleCodepoint.
  destruct (Utf8CharLength (byte_at text i)) as [|[|[|[|[|k]]]]]; try lia.
  - rewrite assemble2. lia.
  - rewrite assemble3. lia.
  - rewrite assemble4. lia.
Qed.

Lemma Utf8ToCodepoints_loop_bound (text : string) : forall fuel i,
  Forall (fun c => c < 0x200000) (Utf8ToCodepoints_loop text fuel i).
Proof.
  induction fuel as [|fuel IH]; intros i; cbn [Utf8ToCodepoints_loop];
    [constructor|].
  destruct (i <? String.length text)%nat; [|constructor].
  destruct (String.length text <? i + Utf8CharLength (byte_at text i))%nat.
  - apply IH.
  - constructor; [apply AssembleCodepoint_bound | apply IH].
Qed.

Lemma CodepointsToUtf8_app (a b : list N) :
  CodepointsToUtf8 (a ++ b) = CodepointsToUtf8 a ++ CodepointsToUtf8 b.
Proof.
  induction a as [|c a IH]; [reflexivity|].
  cbn [app CodepointsToUtf8]. now rewrite IH, string_app_assoc.
Qed.

Lemma EncodeCodepoint_length (c : N) :
  String.length (EncodeCodepoint c) = encoded_length c.
Proof.
  unfold EncodeCodepoint, encoded_length, kUnicodeMaxOneByte, kUnicodeMaxTwoByte,
    kUnicodeMaxThreeByte, kUnicodeMaxCodepoint.
  destruct (c <=? 0x7F); [reflexivity|].
  destruct (c <=? 0x7FF); [reflexivity|].
  destruct (c <=? 0xFFFF); [reflexivity|].
  destruct (c <=? 0x10FFFF); reflexivity.
Qed.

Lemma encoded_length_le (c : N) : (encoded_length c <= 4)%nat.
Proof.
  unfold encoded_length.
  repeat match goal with |- context [if ?b then _ else _] => destruct b end; lia.
Qed.

Lemma CodepointsToUtf8_length (cps : list N) :
  String.length (CodepointsToUtf8 cps) = list_sum (map encoded_length cps).
Proof.
  induction cps as [|c cps IH]; [reflexivity|].
  cbn [CodepointsToUtf8 map list_sum].
  now rewrite string_length_app, EncodeCodepoint_length, IH.
Qed.

Lemma CodepointsToUtf8_injective (a b : list N) :
  Forall (fun c => c <= kUnicodeMaxCodepoint) a ->
  Forall (fun c => c <= kUnicodeMaxCodepoint) b ->
  CodepointsToUtf8 a = CodepointsToUtf8 b -> a = b.
Proof.
  intros Ha Hb Heq.
  rewrite <- (decode_encode_in_range a Ha), <- (decode_encode_in_range b Hb).
  now rewrite Heq.
Qed.

End CodecBounds.

(** X1.  Every codepoint that [Utf8ToCodepoints] returns is below
    0x200000 (21 bits), and there is at most one per byte of the text. *)
Theorem Utf8ToCodepoints_bounds (text : string) :
  Forall (fun c => (c < 0x200000)%N) (Utf8ToCodepoints text)
  /\ (List.length (Utf8ToCodepoints text) <= String.length text)%nat.
Proof.
  split; [apply Utf8ToCodepoints_loop_bound | apply Utf8ToCodepoints_length].
Qed.

(** X2.  [CodepointsToUtf8] distributes over concatenation and writes
    one to four bytes for each codepoint up to 0x10FFFF, none for a larger
    one: at most four bytes per codepoint. *)
Theorem CodepointsToUtf8_concat_length (a b : list N) :
  CodepointsToUtf8 (a ++ b) = CodepointsToUtf8 a ++ CodepointsToUtf8 b
  /\ String.length (CodepointsToUtf8 a) = list_sum (map encoded_length a)
  /\ (String.length (CodepointsToUtf8 a) <= 4 * List.length a)%nat.
Proof.
  split; [apply CodepointsToUtf8_app|].
  split; [apply CodepointsToUtf8_length|].
  rewrite CodepointsToUtf8_length.
  induction a as [|c a IH]; [simpl; lia|].
  cbn [map list_sum fold_right List.length] in *.
  pose proof (encoded_length_le c). unfold list_sum in IH. lia.
Qed.

(** ** Well-formed texts, sequence by sequence *)

Section WellFormedCases.

#[local] Open Scope N_scope.

Lemma in_range_true lo hi x : lo <= x <= hi -> in_range lo hi x = true.
Proof. intros H. now apply in_range_spec. Qed.

Lemma in_range_false lo hi x : x < lo \/ hi < x -> in_range lo hi x = false.
Proof.
  intros H. destruct (in_range lo hi x) eqn:E; [|reflexivity].
  apply in_range_spec in E. lia.
Qed.

Lemma second_of_three_iff b1 b2 :
  second_of_three b1 b2 = true
  <-> 128 <= b2 <= 191 /\ (b1 = 224 -> 160 <= b2) /\ (b1 = 237 -> b2 <= 159).
Proof.
  unfold second_of_three.
  destruct (N.eqb_spec b1 0xE0); [|destruct (N.eqb_spec b1 0xED)];
    rewrite in_range_spec; lia.
Qed.

Lemma second_of_four_iff b1 b2 :
  second_of_four b1 b2 = true
  <-> 128 <= b2 <= 191 /\ (b1 = 240 -> 144 <= b2) /\ (b1 = 244 -> b2 <= 143).
Proof.
  unfold second_of_four.
  destruct (N.eqb_spec b1 0xF0); [|destruct (N.eqb_spec b1 0xF4)];
    rewrite in_range_spec; lia.
Qed.

Lemma WellFormedUtf8_seq1 c1 rest :
  seq1 (N_of_ascii c1) ->
  WellFormedUtf8 (String c1 rest) = WellFormedUtf8 rest.
Proof.
  unfold seq1. intros H. cbn [WellFormedUtf8]. cbv zeta.
  now rewrite in_range_true by lia.
Qed.

Lemma WellFormedUtf8_seq2 c1 c2 rest :
  seq2 (N_of_ascii c1) (N_of_ascii c2) ->
  WellFormedUtf8 (String c1 (String c2 rest)) = WellFormedUtf8 rest.
Proof.
  unfold seq2. intros H. cbn [WellFormedUtf8]. cbv zeta.
  rewrite in_range_false by lia. rewrite in_range_true by lia.
  unfold is_continuation. now rewrite in_range_true by lia.
Qed.

Lemma WellFormedUtf8_seq3 c1 c2 c3 rest :
  seq3 (N_of_ascii c1) (N_of_ascii c2) (N_of_ascii c3) ->
  WellFormedUtf8 (String c1 (String c2 (String c3 rest))) = WellFormedUtf8 rest.
Proof.
  unfold seq3. intros H. cbn [WellFormedUtf8]. cbv zeta.
  rewrite (in_range_false 0 127) by lia.
  rewrite (in_range_false 194 223) by lia.
  rewrite (in_range_true 224 239) by lia.
  rewrite (proj2 (second_of_three_iff _ _)) by lia.
  unfold is_continuation. now rewrite in_range_true by lia.
Qed.

Lemma WellFormedUtf8_seq4 c1 c2 c3 c4 rest :
  seq4 (N_of_ascii c1) (N_of_ascii c2) (N_of_ascii c3) (N_of_ascii c4) ->
  WellFormedUtf8 (String c1 (String c2 (String c3 (String c4 rest))))
  = WellFormedUtf8 rest.
Proof.
  unfold seq4. intros H. cbn [WellFormedUtf8]. cbv zeta.
  rewrite (in_range_false 0 127) by lia.
  rewrite (in_range_false 194 223) by lia.
  rewrite (in_range_false 224 239) by lia.
  rewrite (in_range_true 240 244) by lia.
  rewrite (proj2 (second_of_four_iff _ _)) by lia.
  unfold is_continuation. now rewrite !in_range_true by lia.
Qed.

(** Induction over the sequences of a well-formed text. *)
Lemma WellFormedUtf8_cases (P : string -> Prop) :
  P "" ->
  (forall c1 rest,
     seq1 (N_of_ascii c1) -> WellFormedUtf8 rest = true -> P rest ->
     P (String c1 rest)) ->
  (forall c1 c2 rest,
     seq2 (N_of_ascii c1) (N_of_ascii c2) -> WellFormedUtf8 rest = true -> P rest ->
     P (String c1 (String c2 rest))) ->
  (forall c1 c2 c3 rest,
     seq3 (N_of_ascii c1) (N_of_ascii c2) (N_of_ascii c3) ->
     WellFormedUtf8 rest = true -> P rest ->
     P (String c1 (String c2 (String c3 rest)))) ->
  (forall c1 c2 c3 c4 rest,
     seq4 (N_of_ascii c1) (N_of_ascii c2) (N_of_ascii c3) (N_of_ascii c4) ->
     WellFormedUtf8 rest = true -> P rest ->
     P (String c1 (String c2 (String c3 (String c4 rest))))) ->
  forall s, WellFormedUtf8 s = true -> P s.
Proof.
  intros H0 H1 H2 H3 H4 s.
  assert (Hn : forall (n : nat) s,
             (String.length s <= n)%nat -> WellFormedUtf8 s = true -> P s).
  { clear s. induction n as [|n IH]; intros s Hlen Hwf.
    - destruct s; [exact H0 | simpl in Hlen; lia].
    - destruct s as [|c1 r1]; [exact H0|].
      cbn [WellFormedUtf8] in Hwf. cbv zeta in Hwf. cbn [String.length] in Hlen.
      destruct (in_range 0 127 (N_of_ascii c1)) eqn:R1.
      { apply in_range_spec in R1.
        apply H1; [unfold seq1; lia | exact Hwf | apply IH; [lia | exact Hwf]]. }
      destruct r1 as [|c2 r2]; [discriminate|]. cbn [String.length] in Hlen.
      destruct (in_range 194 223 (N_of_ascii c1)) eqn:R2.
      { apply in_range_spec in R2.
        apply andb_true_iff in Hwf. destruct Hwf as [Hc2 Hwf].
        apply in_range_spec in Hc2.
        apply H2; [unfold seq2; lia | exact Hwf | apply IH; [lia | exact Hwf]]. }
      destruct r2 as [|c3 r3]; [discriminate|]. cbn [String.length] in Hlen.
      destruct (in_range 224 239 (N_of_ascii c1)) eqn:R3.
      { apply in_range_spec in R3.
        rewrite !andb_true_iff in Hwf. destruct Hwf as [[Hc2 Hc3] Hwf].
        apply in_range_spec in Hc3. apply second_of_three_iff in Hc2.
        apply H3; [unfold seq3; lia | exact Hwf | apply IH; [lia | exact Hwf]]. }
      destruct r3 as [|c4 r4]; [discriminate|]. cbn [String.length] in Hlen.
      destruct (in_range 240 244 (N_of_ascii c1)) eqn:R4; [|discriminate].
      apply in_range_spec in R4.
      rewrite !andb_true_iff in Hwf. destruct Hwf as [[[Hc2 Hc3] Hc4] Hwf].
      apply in_range_spec in Hc3. apply in_range_spec in Hc4.
      apply second_of_four_iff in Hc2.
      apply H4; [unfold seq4; lia | exact Hwf | apply IH; [lia | exact Hwf]]. }
  apply (Hn (String.length s)). apply Nat.le_refl.
Qed.

(** The value of each shape of sequence. *)
Lemma decode_seq1 c1 rest :
  seq1 (N_of_ascii c1) ->
  Utf8ToCodepoints (String c1 rest) = N_of_ascii c1 :: Utf8ToCodepoints rest.
Proof. unfold seq1. intros H. apply decode_1. lia. Qed.

Lemma decode_seq2 c1 c2 rest :
  seq2 (N_of_ascii c1) (N_of_ascii c2) ->
  Utf8ToCodepoints (String c1 (String c2 rest))
  = ((N_of_ascii c1 - 192) * 64 + (N_of_ascii c2 - 128)) :: Utf8ToCodepoints rest.
Proof.
  unfold seq2. intros H. rewrite decode_2 by lia. f_equal. lia.
Qed.

Lemma decode_seq3 c1 c2 c3 rest :
  seq3 (N_of_ascii c1) (N_of_ascii c2) (N_of_ascii c3) ->
  Utf8ToCodepoints (String c1 (String c2 (String c3 rest)))
  = ((N_of_ascii c1 - 224) * 4096 + (N_of_ascii c2 - 128) * 64
     + (N_of_ascii c3 - 128)) :: Utf8ToCodepoints rest.
Proof.
  unfold seq3. intros H. rewrite decode_3 by lia. f_equal.
  replace (N_of_ascii c1 mod 16) with (N_of_ascii c1 - 224) by lia.
  replace (N_of_ascii c2 mod 64) with (N_of_ascii c2 - 128) by lia.
  replace (N_of_ascii c3 mod 64) with (N_of_ascii c3 - 128) by lia.
  reflexivity.
Qed.

Lemma decode_seq4 c1 c2 c3 c4 rest :
  seq4 (N_of_ascii c1) (N_of_ascii c2) (N_of_ascii c3) (N_of_ascii c4) ->
  Utf8ToCodepoints (String c1 (String c2 (String c3 (String c4 rest))))
  = ((N_of_ascii c1 - 240) * 262144 + (N_of_ascii c2 - 128) * 4096
     + (N_of_ascii c3 - 128) * 64 + (N_of_ascii c4 - 128))
      :: Utf8ToCodepoints rest.
Proof.
  unfold seq4. intros H. rewrite decode_4 by lia. f_equal.
  replace (N_of_ascii c1 mod 8) with (N_of_ascii c1 - 240) by lia.
  replace (N_of_ascii c2 mod 64) with (N_of_ascii c2 - 128) by lia.
  replace (N_of_ascii c3 mod 64) with (N_of_ascii c3 - 128) by lia.
  replace (N_of_ascii c4 mod 64) with (N_of_ascii c4 - 128) by lia.
  reflexivity.
Qed.

(** A well-formed text decodes to scalar values. *)
Lemma WellFormedUtf8_scalar (s : string) :
  WellFormedUtf8 s = true -> Forall is_scalar_value (Utf8ToCodepoints s).
Proof.
  revert s. apply WellFormedUtf8_cases.
  - constructor.
  - intros c1 rest H _ IH. rewrite decode_seq1 by exact H.
    constructor; [|exact IH]. unfold seq1 in H. unfold is_scalar_value. lia.
  - intros c1 c2 rest H _ IH. rewrite decode_seq2 by exact H.
    constructor; [|exact IH]. unfold seq2 in H. unfold is_scalar_value. lia.
  - intros c1 c2 c3 rest H _ IH. rewrite decode_seq3 by exact H.
    constructor; [|exact IH]. unfold seq3 in H. unfold is_scalar_value. lia.
  - intros c1 c2 c3 c4 rest H _ IH. rewrite decode_seq4 by exact H.
    constructor; [|exact IH]. unfold seq4 in H. unfold is_scalar_value. lia.
Qed.

(** Decoding a well-formed text followed by any bytes. *)
Lemma Utf8ToCodepoints_app (a b : string) :
  WellFormedUtf8 a = true ->
  Utf8ToCodepoints (a ++ b) = (Utf8ToCodepoints a ++ Utf8ToCodepoints b)%list.
Proof.
  revert a. apply (WellFormedUtf8_cases
    (fun a => Utf8ToCodepoints (a ++ b)
              = (Utf8ToCodepoints a ++ Utf8ToCodepoints b)%list)).
  - reflexivity.
  - intros c1 rest H _ IH. cbn [append].
    rewrite !decode_seq1 by exact H. now rewrite IH.
  - intros c1 c2 rest H _ IH. cbn [append].
    rewrite !decode_seq2 by exact H. now rewrite IH.
  - intros c1 c2 c3 rest H _ IH. cbn [append].
    rewrite !decode_seq3 by exact H. now rewrite IH.
  - intros c1 c2 c3 c4 rest H _ IH. cbn [append].
    rewrite !decode_seq4 by exact H. now rewrite IH.
Qed.

Lemma WellFormedUtf8_app (a b : string) :
  WellFormedUtf8 a = true -> WellFormedUtf8 (a ++ b) = WellFormedUtf8 b.
Proof.
  revert a. apply (WellFormedUtf8_cases
    (fun a => WellFormedUtf8 (a ++ b) = WellFormedUtf8 b)).
  - reflexivity.
  - intros c1 rest H _ IH. cbn [append]. now rewrite WellFormedUtf8_seq1.
  - intros c1 c2 rest H _ IH. cbn [append]. now rewrite WellFormedUtf8_seq2.
  - intros c1 c2 c3 rest H _ IH. cbn [append]. now rewrite WellFormedUtf8_seq3.
  - intros c1 c2 c3 c4 rest H _ IH. cbn [append]. now rewrite WellFormedUtf8_seq4.
Qed.

End WellFormedCases.

Section EncoderWellFormed.

#[local] Open Scope N_scope.

Lemma WellFormedUtf8_encode_scalar (c : N) (rest : string) :
  is_scalar_value c ->
  WellFormedUtf8 (EncodeCodepoint c ++ rest) = WellFormedUtf8 rest.
Proof.
  unfold is_scalar_value. intros Hc.
  destruct (N.le_gt_cases c 0x7F) as [H1 | H1];
    [| destruct (N.le_gt_cases c 0x7FF) as [H2 | H2];
       [| destruct (N.le_gt_cases c 0xFFFF) as [H3 | H3]]].
  - rewrite EncodeCodepoint_1 by lia. cbn [append].
    apply WellFormedUtf8_seq1. rewrite byte_of_N by lia. unfold seq1. lia.
  - rewrite EncodeCodepoint_2 by lia. cbn [append].
    apply WellFormedUtf8_seq2. rewrite !byte_of_N by lia. unfold seq2. lia.
  - rewrite EncodeCodepoint_3 by lia. cbn [append].
    apply WellFormedUtf8_seq3. rewrite !byte_of_N by lia. unfold seq3. lia.
  - rewrite EncodeCodepoint_4 by lia. cbn [append].
    apply WellFormedUtf8_seq4. rewrite !byte_of_N by lia. unfold seq4. lia.
Qed.

Lemma WellFormedUtf8_encode_surrogate (c : N) (rest : string) :
  is_surrogate c -> WellFormedUtf8 (EncodeCodepoint c ++ rest) = false.
Proof.
  unfold is_surrogate. intros Hc.
  rewrite EncodeCodepoint_3 by lia. cbn [append WellFormedUtf8]. cbv zeta.
  rewrite !byte_of_N by lia.
  rewrite (in_range_false 0 127) by lia.
  rewrite (in_range_false 194 223) by lia.
  rewrite (in_range_true 224 239) by lia.
  destruct (second_of_three (224 + c / 4096) (128 + (c / 64) mod 64)) eqn:E;
    [|reflexivity].
  apply second_of_three_iff in E. lia.
Qed.

Lemma WellFormedUtf8_encode (cps : list N) :
  WellFormedUtf8 (CodepointsToUtf8 cps) = true
  <-> Forall (fun c => ~ is_surrogate c) cps.
Proof.
  induction cps as [|c cps IH]; [split; [constructor | reflexivity]|].
  cbn [CodepointsToUtf8].
  destruct (N.le_gt_cases c 0x10FFFF) as [Hin | Hout].
  - destruct (N.le_gt_cases 0xD800 c) as [Hlo | Hlo];
      [destruct (N.le_gt_cases c 0xDFFF) as [Hhi | Hhi]|].
    + rewrite WellFormedUtf8_encode_surrogate by (unfold is_surrogate; lia).
      split; [discriminate|]. intros Hall. inversion Hall as [|? ? Hc _]; subst.
      exfalso. apply Hc. unfold is_surrogate. lia.
    + rewrite WellFormedUtf8_encode_scalar by (unfold is_scalar_value; lia).
      rewrite IH. split.
      * intros Hall. constructor; [unfold is_surrogate; lia | exact Hall].
      * intros Hall. now inversion Hall.
    + rewrite WellFormedUtf8_encode_scalar by (unfold is_scalar_value; lia).
      rewrite IH. split.
      * intros Hall. constructor; [unfold is_surrogate; lia | exact Hall].
      * intros Hall. now inversion Hall.
  - rewrite EncodeCodepoint_dropped by exact Hout. cbn [append].
    rewrite IH. split.
    + intros Hall. constructor; [unfold is_surrogate; lia | exact Hall].
    + intros Hall. now inversion Hall.
Qed.

End EncoderWellFormed.

(** X3.  The bytes written by [CodepointsToUtf8] are well-formed UTF-8
    exactly when no codepoint of the list is a surrogate (0xD800 to
    0xDFFF): the encoder writes surrogates as three-byte sequences
    without checking them. *)
Theorem CodepointsToUtf8_well_formed (cps : list N) :
  WellFormedUtf8 (CodepointsToUtf8 cps) = true
  <-> Forall (fun c => ~ is_surrogate c) cps.
Proof. apply WellFormedUtf8_encode. Qed.

Lemma CodepointsToUtf8_well_formed_witness :
  WellFormedUtf8 (CodepointsToUtf8 [0x41; 0x6F22; 0x110000]%N) = true
  /\ (WellFormedUtf8 (CodepointsToUtf8 [0xD800]%N) = true -> False).
Proof.
  split.
  - apply (proj2 (CodepointsToUtf8_well_formed [0x41; 0x6F22; 0x110000]%N)).
    repeat constructor; unfold is_surrogate; lia.
  - intros Hwf.
    pose proof (proj1 (CodepointsToUtf8_well_formed [0xD800]%N) Hwf) as Hall.
    inversion Hall as [|? ? Hc _]. apply Hc. unfold is_surrogate. lia.
Defined.

(** X4.  A well-formed UTF-8 text decodes to Unicode scalar values only:
    every codepoint is at most 0x10FFFF and none is a surrogate. *)
Theorem well_formed_decodes_to_scalar_values (text : string) :
  WellFormedUtf8 text = true ->
  Forall is_scalar_value (Utf8ToCodepoints text).
Proof. apply WellFormedUtf8_scalar. Qed.

Lemma well_formed_decodes_to_scalar_values_witness :
  WellFormedUtf8 "AI漢字test" = true
  /\ Forall is_scalar_value (Utf8ToCodepoints "AI漢字test").
Proof.
  assert (Hwf : WellFormedUtf8 "AI漢字test" = true) by (vm_compute; reflexivity).
  split; [exact Hwf|].
  exact (well_formed_decodes_to_scalar_values "AI漢字test" Hwf).
Defined.

(** X5.  Decoding is compositional behind a well-formed text: the
    codepoints of [a ++ b] are those of [a] followed by those of [b],
    whatever the bytes of [b] are. *)
Theorem Utf8ToCodepoints_after_well_formed (a b : string) :
  WellFormedUtf8 a = true ->
  Utf8ToCodepoints (a ++ b) = (Utf8ToCodepoints a ++ Utf8ToCodepoints b)%list.
Proof. apply Utf8ToCodepoints_app. Qed.

Lemma Utf8ToCodepoints_after_well_formed_witness :
  WellFormedUtf8 "漢字" = true
  /\ Utf8ToCodepoints ("漢字" ++ "test")
     = (Utf8ToCodepoints "漢字" ++ Utf8ToCodepoints "test")%list.
Proof.
  assert (Hwf : WellFormedUtf8 "漢字" = true) by (vm_compute; reflexivity).
  split; [exact Hwf|].
  exact (Utf8ToCodepoints_after_well_formed "漢字" "test" Hwf).
Defined.

(** ** More on n-grams *)

Section NgramsMore.

#[local] Open Scope nat_scope.

(** [GenerateNgrams] on the two sides of its guards. *)
Lemma GenerateNgrams_none (text : string) (n : Z) :
  is_int n ->
  (n <= 0 \/ Z.of_nat (List.length (Utf8ToCodepoints text)) < n)%Z ->
  GenerateNgrams text n = [].
Proof.
  intros Hint Hn. unfold GenerateNgrams.
  destruct (Utf8ToCodepoints text) as [|c cps] eqn:Hcps; [reflexivity|].
  rewrite <- Hcps in *. cbv zeta.
  replace (match Utf8ToCodepoints text with [] => true | _ :: _ => false end)
    with false by now rewrite Hcps.
  cbn [orb].
  destruct (Z.leb_spec n 0) as [Hle | Hpos]; [reflexivity|].
  destruct (Z.eqb_spec n 1) as [-> | Hn1].
  - rewrite Hcps in Hn. cbn [List.length] in Hn. lia.
  - rewrite size_t_of_int_nonneg by (assumption || lia).
    destruct (Z.ltb_spec (Z.of_nat (List.length (Utf8ToCodepoints text))) n);
      [reflexivity | lia].
Qed.

Lemma GenerateNgrams_some (text : string) (n : Z) :
  is_int n -> fits_size text ->
  (0 < n <= Z.of_nat (List.length (Utf8ToCodepoints text)))%Z ->
  GenerateNgrams text n
  = map (fun i => CodepointsToUtf8
                    (firstn (Z.to_nat n) (skipn i (Utf8ToCodepoints text))))
        (seq 0 (List.length (Utf8ToCodepoints text) - Z.to_nat n + 1)).
Proof.
  intros Hint Hfits Hn.
  pose proof (Utf8ToCodepoints_length text) as Hlen. unfold fits_size in Hfits.
  unfold GenerateNgrams. cbv zeta.
  destruct (Utf8ToCodepoints text) as [|c cps] eqn:Hcps;
    [cbn [List.length] in Hn; lia|].
  rewrite <- Hcps in *. cbn [orb].
  destruct (Z.leb_spec n 0) as [Hle | _]; [lia|].
  destruct (Z.eqb_spec n 1) as [-> | Hn1].
  - change (Z.to_nat 1) with 1.
    replace (List.length (Utf8ToCodepoints text) - 1 + 1)
      with (List.length (Utf8ToCodepoints text)) by lia.
    apply unigrams_windows.
  - rewrite size_t_of_int_nonneg by (assumption || lia).
    destruct (Z.ltb_spec (Z.of_nat (List.length (Utf8ToCodepoints text))) n);
      [lia|].
    unfold is_int in Hint.
    rewrite size_t_sub_small by lia.
    replace (Z.to_nat (Z.of_nat (List.length (Utf8ToCodepoints text)) - n) + 1)
      with (List.length (Utf8ToCodepoints text) - Z.to_nat n + 1) by lia.
    apply map_ext_in. intros i Hi. apply in_seq in Hi.
    rewrite size_t_add_small by lia.
    do 2 f_equal. lia.
Qed.

Lemma GenerateNgrams_unigrams (text : string) :
  GenerateNgrams text 1
  = map (fun c => CodepointsToUtf8 [c]) (Utf8ToCodepoints text).
Proof.
  unfold GenerateNgrams. destruct (Utf8ToCodepoints text); reflexivity.
Qed.

Lemma concat_unigrams (cps : list N) :
  String.concat "" (map (fun c => CodepointsToUtf8 [c]) cps)
  = CodepointsToUtf8 cps.
Proof.
  induction cps as [|c cps IH]; [reflexivity|].
  cbn [map]. cbn [CodepointsToUtf8] in *.
  destruct cps as [|c' cps].
  - reflexivity.
  - cbn [map String.concat] in *. rewrite IH.
    now rewrite string_app_empty_r.
Qed.

Lemma Forall_slice {A : Type} (P : A -> Prop) (l : list A) (i n : nat) :
  Forall P l -> Forall P (firstn n (skipn i l)).
Proof.
  intros Hall.
  rewrite <- (firstn_skipn i l) in Hall. apply Forall_app in Hall.
  destruct Hall as [_ Hskip].
  rewrite <- (firstn_skipn n (skipn i l)) in Hskip. apply Forall_app in Hskip.
  exact (proj1 Hskip).
Qed.

Lemma scalar_in_range (c : N) :
  is_scalar_value c -> (c <= kUnicodeMaxCodepoint)%N.
Proof. unfold is_scalar_value, kUnicodeMaxCodepoint. lia. Qed.

Lemma scalar_not_surrogate (c : N) : is_scalar_value c -> ~ is_surrogate c.
Proof. unfold is_scalar_value, is_surrogate. lia. Qed.

(** ASCII texts: codepoints are bytes and windows are substrings. *)
Lemma Utf8ToCodepoints_ascii (s : string) :
  is_ascii_text s ->
  Utf8ToCodepoints s = map N_of_ascii (list_ascii_of_string s).
Proof.
  unfold is_ascii_text. induction s as [|c s IH]; intros Hall; [reflexivity|].
  cbn [list_ascii_of_string map] in *. inversion Hall as [|? ? Hc Hrest]; subst.
  rewrite decode_1 by lia. now rewrite IH.
Qed.

Lemma CodepointsToUtf8_ascii (l : list ascii) :
  Forall (fun c => (N_of_ascii c <= 127)%N) l ->
  CodepointsToUtf8 (map N_of_ascii l) = string_of_list_ascii l.
Proof.
  induction 1 as [|c l Hc Hall IH]; [reflexivity|].
  cbn [map CodepointsToUtf8 string_of_list_ascii].
  rewrite EncodeCodepoint_1, ascii_N_embedding by exact Hc.
  cbn [append]. now rewrite IH.
Qed.

Lemma substring_slice (s : string) : forall i n,
  string_of_list_ascii (firstn n (skipn i (list_ascii_of_string s)))
  = String.substring i n s.
Proof.
  induction s as [|c s IH]; intros i n.
  - cbn [list_ascii_of_string]. rewrite skipn_nil, firstn_nil.
    destruct i, n; reflexivity.
  - destruct i as [|i].
    + cbn [list_ascii_of_string skipn]. destruct n as [|n]; [reflexivity|].
      cbn [firstn string_of_list_ascii String.substring]. f_equal.
      specialize (IH 0 n). cbn [skipn] in IH. exact IH.
    + cbn [list_ascii_of_string skipn String.substring]. apply IH.
Qed.

Lemma length_list_ascii_of_string (s : string) :
  List.length (list_ascii_of_string s) = String.length s.
Proof. induction s as [|c s IH]; [reflexivity|]. cbn. now rewrite IH. Qed.

End NgramsMore.

(** X6.  The unigrams of a text, concatenated, are the re-encoding of
    its codepoints; for a well-formed text they give the text back. *)
Theorem unigrams_concatenate (text : string) :
  String.concat "" (GenerateNgrams text 1)
  = CodepointsToUtf8 (Utf8ToCodepoints text)
  /\ (WellFormedUtf8 text = true ->
      String.concat "" (GenerateNgrams text 1) = text).
Proof.
  assert (H : String.concat "" (GenerateNgrams text 1)
              = CodepointsToUtf8 (Utf8ToCodepoints text))
    by (rewrite GenerateNgrams_unigrams; apply concat_unigrams).
  split; [exact H|].
  intros Hwf. rewrite H.
  apply (encode_decode_bounded (String.length text)); [apply Nat.le_refl | exact Hwf].
Qed.

Lemma unigrams_concatenate_witness :
  WellFormedUtf8 "AI漢字test" = true
  /\ String.concat "" (GenerateNgrams "AI漢字test" 1) = "AI漢字test".
Proof.
  assert (Hwf : WellFormedUtf8 "AI漢字test" = true) by (vm_compute; reflexivity).
  split; [exact Hwf|].
  exact (proj2 (unigrams_concatenate "AI漢字test") Hwf).
Defined.

(** X7.  Every n-gram of a well-formed text is itself well-formed UTF-8
    and decodes to exactly [n] codepoints. *)
Theorem ngrams_of_well_formed_text (text : string) (n : Z) (g : string) :
  is_int n -> fits_size text ->
  WellFormedUtf8 text = true ->
  In g (GenerateNgrams text n) ->
  WellFormedUtf8 g = true
  /\ Z.of_nat (List.length (Utf8ToCodepoints g)) = n.
Proof.
  intros Hint Hfits Hwf Hin.
  pose proof (WellFormedUtf8_scalar text Hwf) as Hscalar.
  destruct (Z.le_gt_cases n 0) as [Hle | Hpos];
    [rewrite GenerateNgrams_none in Hin by (assumption || lia); contradiction|].
  destruct (Z.lt_ge_cases (Z.of_nat (List.length (Utf8ToCodepoints text))) n)
    as [Hlt | Hge];
    [rewrite GenerateNgrams_none in Hin by (assumption || lia); contradiction|].
  rewrite GenerateNgrams_some in Hin by (assumption || lia).
  apply in_map_iff in Hin. destruct Hin as [i [<- Hi]]. apply in_seq in Hi.
  pose proof (Forall_slice _ _ i (Z.to_nat n) Hscalar) as Hslice.
  split.
  - apply WellFormedUtf8_encode.
    eapply Forall_impl; [|exact Hslice]. intros c. apply scalar_not_surrogate.
  - rewrite decode_encode_in_range
      by (eapply Forall_impl; [|exact Hslice]; intros c; apply scalar_in_range).
    rewrite length_firstn, length_skipn. lia.
Qed.

Lemma ngrams_of_well_formed_text_witness :
  is_int 2 /\ fits_size "AI漢字test" /\ WellFormedUtf8 "AI漢字test" = true
  /\ In "I漢" (GenerateNgrams "AI漢字test" 2)
  /\ WellFormedUtf8 "I漢" = true
  /\ Z.of_nat (List.length (Utf8ToCodepoints "I漢")) = 2%Z.
Proof.
  assert (H2 : is_int 2) by (unfold is_int; lia).
  assert (Hfits : fits_size "AI漢字test") by (unfold fits_size; simpl; lia).
  assert (Hwf : WellFormedUtf8 "AI漢字test" = true) by (vm_compute; reflexivity).
  assert (Hin : In "I漢" (GenerateNgrams "AI漢字test" 2))
    by (vm_compute; right; left; reflexivity).
  split; [exact H2|]. split; [exact Hfits|]. split; [exact Hwf|].
  split; [exact Hin|].
  exact (ngrams_of_well_formed_text "AI漢字test" 2 "I漢" H2 Hfits Hwf Hin).
Defined.

(** X8.  On an ASCII text the n-grams are the substrings of [n] bytes, one
    for each start from which [n] bytes are left. *)
Theorem ngrams_of_ascii_text (text : string) (n : Z) :
  is_int n -> fits_size text -> is_ascii_text text ->
  (0 < n <= Z.of_nat (String.length text))%Z ->
  GenerateNgrams text n
  = map (fun i => String.substring i (Z.to_nat n) text)
        (seq 0 (String.length text - Z.to_nat n + 1)).
Proof.
  intros Hint Hfits Hascii Hn.
  pose proof (Utf8ToCodepoints_ascii text Hascii) as Hdec.
  assert (Hlen : List.length (Utf8ToCodepoints text) = String.length text)
    by (rewrite Hdec, length_map; apply length_list_ascii_of_string).
  rewrite GenerateNgrams_some by (assumption || lia).
  rewrite Hlen. apply map_ext. intros i.
  rewrite Hdec, skipn_map, firstn_map.
  rewrite CodepointsToUtf8_ascii by (apply Forall_slice; exact Hascii).
  apply substring_slice.
Qed.

Lemma ngrams_of_ascii_text_witness :
  is_int 2 /\ fits_size "hello" /\ is_ascii_text "hello"
  /\ (0 < 2 <= Z.of_nat (String.length "hello"))%Z
  /\ GenerateNgrams "hello" 2
     = map (fun i => String.substring i 2 "hello") (seq 0 4).
Proof.
  assert (H2 : is_int 2) by (unfold is_int; lia).
  assert (Hfits : fits_size "hello") by (unfold fits_size; simpl; lia).
  assert (Hascii : is_ascii_text "hello")
    by (unfold is_ascii_text; repeat constructor; vm_compute; discriminate).
  assert (Hn : (0 < 2 <= Z.of_nat (String.length "hello"))%Z) by (simpl; lia).
  repeat (split; [assumption|]).
  exact (ngrams_of_ascii_text "hello" 2 H2 Hfits Hascii Hn).
Defined.

(** ** More on hybrid n-grams *)

Section HybridMore.

#[local] Open Scope nat_scope.

Lemma forallb_Window (P : N -> bool) (l : list N) (i n : nat) :
  forallb (fun j => P (nth (i + j) l 0%N)) (seq 0 n) = forallb P (Window l i n).
Proof.
  unfold Window. induction (seq 0 n) as [|j js IH]; [reflexivity|].
  cbn [forallb map]. now rewrite IH.
Qed.

Lemma forallb_true (P : N -> bool) (l : list N) :
  Forall (fun c => P c = true) l -> forallb P l = true.
Proof. intros H. apply forallb_forall. now apply Forall_forall. Qed.

(** The step at a position whose window of the size of its class fits
    and is uniform. *)
Lemma HybridStep_emits (codepoints : list N) (ascii_n kanji_n : Z)
    (i : nat) (w : list N) :
  is_int ascii_n -> is_int kanji_n ->
  (0 < ascii_n)%Z -> (0 < kanji_n)%Z ->
  (Z.of_nat (List.length codepoints) < 2 ^ 63)%Z ->
  class_uniform_window codepoints ascii_n kanji_n i w ->
  HybridStep codepoints ascii_n kanji_n i = Returns [CodepointsToUtf8 w].
Proof.
  intros Ha Hk Hapos Hkpos Hsize (Hi & Hfit & Hw & Hclass).
  unfold HybridStep.
  rewrite !reserve_returns by (assumption || lia).
  rewrite !size_t_of_int_nonneg by (assumption || lia).
  unfold is_int in Ha, Hk.
  rewrite !size_t_add_small by lia.
  destruct Hclass as [(Hc & Hlen & Hall) | (Hc & Hlen & Hall)]; rewrite Hc.
  - replace (Z.to_nat kanji_n) with (List.length w) by lia.
    destruct (Z.leb_spec (Z.of_nat i + kanji_n) (Z.of_nat (List.length codepoints)));
      [|lia].
    rewrite forallb_Window, Window_slice, <- Hw by lia.
    now rewrite forallb_true.
  - replace (Z.to_nat ascii_n) with (List.length w) by lia.
    destruct (Z.leb_spec (Z.of_nat i + ascii_n) (Z.of_nat (List.length codepoints)));
      [|lia].
    rewrite (forallb_Window (fun c => negb (IsCJKIdeograph c))).
    rewrite Window_slice, <- Hw by lia.
    rewrite forallb_true; [reflexivity|].
    eapply Forall_impl; [|exact Hall]. intros c Hcjk. now rewrite Hcjk.
Qed.

(** Each position pushes at most one n-gram, whatever the sizes. *)
Lemma HybridStep_length (codepoints : list N) (ascii_n kanji_n : Z) (i : nat) :
  List.length (pushed (HybridStep codepoints ascii_n kanji_n i)) <= 1.
Proof.
  unfold HybridStep, reserve.
  repeat match goal with
         | |- context [if ?b then _ else _] => destruct b
         end; simpl; lia.
Qed.

(** No step throws when no size is negative. *)
Lemma HybridStep_returns (codepoints : list N) (ascii_n kanji_n : Z) (i : nat) :
  is_int ascii_n -> is_int kanji_n -> (0 <= ascii_n)%Z -> (0 <= kanji_n)%Z ->
  exists l, HybridStep codepoints ascii_n kanji_n i = Returns l.
Proof.
  intros Ha Hk Hapos Hkpos. unfold HybridStep.
  rewrite !reserve_returns by assumption.
  repeat match goal with
         | |- context [if ?b then _ else _] => destruct b
         end; eexists; reflexivity.
Qed.

Lemma flat_map_length_le {A B : Type} (f : A -> list B) (l : list A) :
  (forall x, List.length (f x) <= 1) ->
  List.length (flat_map f l) <= List.length l.
Proof.
  intros Hf. induction l as [|x l IH]; [simpl; lia|].
  cbn [flat_map List.length]. rewrite length_app. specialize (Hf x). lia.
Qed.

Lemma flat_map_ext_in {A B : Type} (f g : A -> list B) (l : list A) :
  (forall x, In x l -> f x = g x) -> flat_map f l = flat_map g l.
Proof.
  induction l as [|x l IH]; intros Hfg; [reflexivity|].
  cbn [flat_map]. rewrite (Hfg x (or_introl eq_refl)).
  rewrite IH; [reflexivity|]. intros y Hy. apply Hfg. now right.
Qed.

(** Pushing at the positions below [m] only. *)
Lemma flat_map_below {B : Type} (f : nat -> B) (m : nat) : forall len start,
  flat_map (fun i => if i <? m then [f i] else []) (seq start len)
  = map f (seq start (Nat.min len (m - start))).
Proof.
  induction len as [|len IH]; intros start; [reflexivity|].
  cbn [seq flat_map]. rewrite IH.
  destruct (Nat.ltb_spec start m) as [Hlt | Hge].
  - replace (Nat.min (S len) (m - start)) with (S (Nat.min len (m - S start)))
      by lia.
    reflexivity.
  - replace (Nat.min len (m - S start)) with 0 by lia.
    replace (Nat.min (S len) (m - start)) with 0 by lia.
    reflexivity.
Qed.

(** The step on codepoints of one class: only the size of that class
    counts. *)
Lemma HybridStep_one_class (codepoints : list N) (ascii_n kanji_n n : Z)
    (cjk : bool) (i : nat) :
  Forall (fun c => IsCJKIdeograph c = cjk) codepoints ->
  n = (if cjk then kanji_n else ascii_n) ->
  is_int n -> (0 < n)%Z ->
  (Z.of_nat (List.length codepoints) < 2 ^ 63)%Z ->
  i < List.length codepoints ->
  HybridStep codepoints ascii_n kanji_n i
  = Returns
      (if i <? (if Z.to_nat n <=? List.length codepoints
                then List.length codepoints - Z.to_nat n + 1 else 0)
       then [CodepointsToUtf8 (firstn (Z.to_nat n) (skipn i codepoints))]
       else []).
Proof.
  intros Hall Hn Hint Hpos Hsize Hi.
  assert (Hc : IsCJKIdeograph (nth i codepoints 0%N) = cjk).
  { rewrite Forall_forall in Hall. apply Hall. now apply nth_In. }
  unfold HybridStep. rewrite Hc. unfold is_int in Hint.
  destruct cjk; subst n;
    rewrite reserve_returns by (unfold is_int; lia);
    rewrite size_t_of_int_nonneg by (unfold is_int; lia);
    rewrite size_t_add_small by lia.
  - destruct (Z.leb_spec (Z.of_nat i + kanji_n) (Z.of_nat (List.length codepoints)))
      as [Hfit | Hfit];
      destruct (Nat.leb_spec (Z.to_nat kanji_n) (List.length codepoints));
      cbn iota;
      match goal with
      | |- context [?x <? ?y] => destruct (Nat.ltb_spec x y)
      end; try lia; try reflexivity.
    rewrite forallb_Window, Window_slice by lia.
    rewrite forallb_true by (apply Forall_slice; exact Hall). reflexivity.
  - destruct (Z.leb_spec (Z.of_nat i + ascii_n) (Z.of_nat (List.length codepoints)))
      as [Hfit | Hfit];
      destruct (Nat.leb_spec (Z.to_nat ascii_n) (List.length codepoints));
      cbn iota;
      match goal with
      | |- context [?x <? ?y] => destruct (Nat.ltb_spec x y)
      end; try lia; try reflexivity.
    rewrite (forallb_Window (fun c => negb (IsCJKIdeograph c))).
    rewrite Window_slice by lia.
    rewrite forallb_true; [reflexivity|].
    apply Forall_slice. eapply Forall_impl; [|exact Hall].
    intros c Hcjk. now rewrite Hcjk.
Qed.

Lemma GenerateHybridNgrams_one_class (text : string) (ascii_n kanji_n n : Z)
    (cjk : bool) :
  Forall (fun c => IsCJKIdeograph c = cjk) (Utf8ToCodepoints text) ->
  n = (if cjk then kanji_n else ascii_n) ->
  is_int n -> (0 < n)%Z -> fits_size text ->
  GenerateHybridNgrams text ascii_n kanji_n = Returns (GenerateNgrams text n).
Proof.
  intros Hall Hn Hint Hpos Hfits.
  pose proof (Utf8ToCodepoints_length text) as Hlen.
  assert (Hsize : (Z.of_nat (List.length (Utf8ToCodepoints text)) < 2 ^ 63)%Z)
    by (unfold fits_size in Hfits; lia).
  rewrite GenerateHybridNgrams_returns
    by (intros i Hi; eexists;
        apply (HybridStep_one_class _ _ _ n cjk); (assumption || lia)).
  f_equal.
  rewrite (flat_map_ext_in _
             (fun i => if i <? (if Z.to_nat n <=? List.length (Utf8ToCodepoints text)
                                then List.length (Utf8ToCodepoints text)
                                     - Z.to_nat n + 1
                                else 0)
                       then [CodepointsToUtf8
                               (firstn (Z.to_nat n) (skipn i (Utf8ToCodepoints text)))]
                       else []));
    [|intros i Hi; apply in_seq in Hi;
      rewrite (HybridStep_one_class _ _ _ n cjk) by (assumption || lia);
      reflexivity].
  rewrite (flat_map_below
             (fun i => CodepointsToUtf8
                         (firstn (Z.to_nat n) (skipn i (Utf8ToCodepoints text))))).
  destruct (Z.lt_ge_cases (Z.of_nat (List.length (Utf8ToCodepoints text))) n)
    as [Hshort | Hlong].
  - rewrite GenerateNgrams_none by (assumption || lia).
    destruct (Nat.leb_spec (Z.to_nat n) (List.length (Utf8ToCodepoints text)));
      [lia|].
    now rewrite Nat.min_0_r.
  - rewrite GenerateNgrams_some by (assumption || lia).
    destruct (Nat.leb_spec (Z.to_nat n) (List.length (Utf8ToCodepoints text)));
      [|lia].
    f_equal. f_equal. lia.
Qed.

End HybridMore.

(** X9.  The converse of class-uniformity: for positive sizes, the
    rendering of every class-uniform window of the decoded codepoints is
    among the n-grams that [GenerateHybridNgrams] returns. *)
Theorem hybrid_ngrams_complete (text : string) (ascii_n kanji_n : Z)
    (i : nat) (w : list N) :
  is_int ascii_n -> is_int kanji_n -> fits_size text ->
  (0 < ascii_n)%Z -> (0 < kanji_n)%Z ->
  class_uniform_window (Utf8ToCodepoints text) ascii_n kanji_n i w ->
  exists ngrams,
    GenerateHybridNgrams text ascii_n kanji_n = Returns ngrams
    /\ In (CodepointsToUtf8 w) ngrams.
Proof.
  intros Ha Hk Hfits Hapos Hkpos Hw.
  pose proof (Utf8ToCodepoints_length text) as Hlen. unfold fits_size in Hfits.
  eexists. split.
  - apply GenerateHybridNgrams_returns. intros j Hj.
    apply HybridStep_returns; (assumption || lia).
  - apply in_flat_map. exists i. split.
    + apply in_seq. destruct Hw as [Hi _]. lia.
    + rewrite (HybridStep_emits _ _ _ i w) by (assumption || lia). now left.
Qed.

Lemma hybrid_ngrams_complete_witness :
  is_int 2 /\ is_int 1 /\ fits_size "AI漢字test" /\ (0 < 2)%Z /\ (0 < 1)%Z
  /\ class_uniform_window (Utf8ToCodepoints "AI漢字test") 2 1 2 [0x6F22%N]
  /\ (exists ngrams,
        GenerateHybridNgrams "AI漢字test" 2 1 = Returns ngrams
        /\ In (CodepointsToUtf8 [0x6F22%N]) ngrams).
Proof.
  assert (H2 : is_int 2) by (unfold is_int; lia).
  assert (H1 : is_int 1) by (unfold is_int; lia).
  assert (Hfits : fits_size "AI漢字test") by (unfold fits_size; simpl; lia).
  assert (Ha : (0 < 2)%Z) by lia.
  assert (Hk : (0 < 1)%Z) by lia.
  assert (Hw : class_uniform_window (Utf8ToCodepoints "AI漢字test") 2 1 2 [0x6F22%N]).
  { unfold class_uniform_window.
    split; [vm_compute; lia|]. split; [vm_compute; lia|].
    split; [vm_compute; reflexivity|].
    left. split; [vm_compute; reflexivity|]. split; [reflexivity|].
    repeat constructor. }
  split; [exact H2|]. split; [exact H1|]. split; [exact Hfits|].
  split; [exact Ha|]. split; [exact Hk|]. split; [exact Hw|].
  exact (hybrid_ngrams_complete "AI漢字test" 2 1 2 [0x6F22%N] H2 H1 Hfits Ha Hk Hw).
Defined.

(** X10.  On a text without CJK ideographs and for a positive
    [ascii_n], the hybrid n-grams are the plain n-grams of size
    [ascii_n], whatever [kanji_n] is (also zero or negative: nothing is
    thrown); on a text of CJK ideographs only and for a positive
    [kanji_n], they are the plain n-grams of size [kanji_n], whatever
    [ascii_n] is. *)
Theorem hybrid_ngrams_of_one_class (text : string) (ascii_n kanji_n : Z) :
  fits_size text ->
  (Forall (fun c => IsCJKIdeograph c = false) (Utf8ToCodepoints text) ->
   is_int ascii_n -> (0 < ascii_n)%Z ->
   GenerateHybridNgrams text ascii_n kanji_n
   = Returns (GenerateNgrams text ascii_n))
  /\ (Forall (fun c => IsCJKIdeograph c = true) (Utf8ToCodepoints text) ->
      is_int kanji_n -> (0 < kanji_n)%Z ->
      GenerateHybridNgrams text ascii_n kanji_n
      = Returns (GenerateNgrams text kanji_n)).
Proof.
  intros Hfits. split; intros Hall Hint Hpos.
  - apply (GenerateHybridNgrams_one_class text ascii_n kanji_n ascii_n false);
      (assumption || reflexivity).
  - apply (GenerateHybridNgrams_one_class text ascii_n kanji_n kanji_n true);
      (assumption || reflexivity).
Qed.

Lemma hybrid_ngrams_of_one_class_witness :
  fits_size "hello"
  /\ Forall (fun c => IsCJKIdeograph c = false) (Utf8ToCodepoints "hello")
  /\ is_int 2 /\ (0 < 2)%Z
  /\ GenerateHybridNgrams "hello" 2 (-7) = Returns (GenerateNgrams "hello" 2)
  /\ fits_size "漢字"
  /\ Forall (fun c => IsCJKIdeograph c = true) (Utf8ToCodepoints "漢字")
  /\ GenerateHybridNgrams "漢字" 0 2 = Returns (GenerateNgrams "漢字" 2).
Proof.
  assert (H2 : is_int 2) by (unfold is_int; lia).
  assert (Hpos : (0 < 2)%Z) by lia.
  assert (Hfits : fits_size "hello") by (unfold fits_size; simpl; lia).
  assert (Hfits' : fits_size "漢字") by (unfold fits_size; simpl; lia).
  assert (Hhello : Utf8ToCodepoints "hello" = [104; 101; 108; 108; 111]%N)
    by (vm_compute; reflexivity).
  assert (Hkanji : Utf8ToCodepoints "漢字" = [0x6F22; 0x5B57]%N)
    by (vm_compute; reflexivity).
  assert (Hnone : Forall (fun c => IsCJKIdeograph c = false) (Utf8ToCodepoints "hello"))
    by (rewrite Hhello; repeat constructor).
  assert (Hall : Forall (fun c => IsCJKIdeograph c = true) (Utf8ToCodepoints "漢字"))
    by (rewrite Hkanji; repeat constructor).
  split; [exact Hfits|]. split; [exact Hnone|]. split; [exact H2|].
  split; [exact Hpos|].
  split; [exact (proj1 (hybrid_ngrams_of_one_class "hello" 2 (-7) Hfits)
                   Hnone H2 Hpos)|].
  split; [exact Hfits'|]. split; [exact Hall|].
  exact (proj2 (hybrid_ngrams_of_one_class "漢字" 0 2 Hfits') Hall H2 Hpos).
Defined.

(** X11.  When no size is negative (zero included)
    [GenerateHybridNgrams] throws nothing and returns; and whenever it
    returns, whatever the sizes are, it returns at most one n-gram per
    decoded codepoint, hence at most one per byte of the text. *)
Theorem hybrid_ngrams_count (text : string) (ascii_n kanji_n : Z) :
  (is_int ascii_n -> is_int kanji_n -> (0 <= ascii_n)%Z -> (0 <= kanji_n)%Z ->
   exists ngrams, GenerateHybridNgrams text ascii_n kanji_n = Returns ngrams)
  /\ (forall ngrams,
        GenerateHybridNgrams text ascii_n kanji_n = Returns ngrams ->
        (List.length ngrams <= List.length (Utf8ToCodepoints text))%nat
        /\ (List.length ngrams <= String.length text)%nat).
Proof.
  split.
  - intros Ha Hk Hapos Hkpos. eexists.
    apply GenerateHybridNgrams_returns. intros i _.
    now apply HybridStep_returns.
  - intros ngrams Hrun. apply GenerateHybridNgrams_returned in Hrun.
    assert (H : (List.length ngrams <= List.length (Utf8ToCodepoints text))%nat).
    { rewrite Hrun.
      etransitivity;
        [apply (flat_map_length_le
                  (fun i => pushed (HybridStep (Utf8ToCodepoints text)
                                      ascii_n kanji_n i)));
         intros i; apply HybridStep_length|].
      now rewrite length_seq. }
    split; [exact H|].
    pose proof (Utf8ToCodepoints_length text). lia.
Qed.

Lemma hybrid_ngrams_count_witness :
  is_int 0 /\ is_int 1 /\ (0 <= 0)%Z /\ (0 <= 1)%Z
  /\ GenerateHybridNgrams "a" 0 1 = Returns [""]
  /\ (List.length [""] <= List.length (Utf8ToCodepoints "a"))%nat
  /\ (List.length [""] <= String.length "a")%nat.
Proof.
  assert (H0 : is_int 0) by (unfold is_int; lia).
  assert (H1 : is_int 1) by (unfold is_int; lia).
  assert (Hrun : GenerateHybridNgrams "a" 0 1 = Returns [""])
    by (vm_compute; reflexivity).
  split; [exact H0|]. split; [exact H1|]. split; [lia|]. split; [lia|].
  split; [exact Hrun|].
  exact (proj2 (hybrid_ngrams_count "a" 0 1) [""] Hrun).
Defined.

(** ** Normalization without ICU *)

Section Normalize.

#[local] Open Scope N_scope.

Lemma tolower_idempotent (b : N) : tolower (tolower b) = tolower b.
Proof.
  unfold tolower.
  destruct ((65 <=? b) && (b <=? 90)) eqn:E; [|now rewrite E].
  apply andb_true_iff in E. rewrite !N.leb_le in E.
  destruct (N.leb_spec 65 (b + 32)); destruct (N.leb_spec (b + 32) 90);
    cbn [andb]; lia.
Qed.

Lemma tolower_cases (b : N) :
  (65 <= b <= 90 /\ tolower b = b + 32) \/ ((b < 65 \/ 90 < b) /\ tolower b = b).
Proof.
  unfold tolower.
  destruct (N.leb_spec 65 b); destruct (N.leb_spec b 90); cbn [andb]; lia.
Qed.

Lemma lower_char_byte (c : ascii) :
  N_of_ascii (lower_char c) = tolower (N_of_ascii c).
Proof.
  unfold lower_char. rewrite byte_of_to_char.
  pose proof (N_of_ascii_lt c). apply N.mod_small.
  destruct (tolower_cases (N_of_ascii c)) as [[? ->] | [? ->]]; lia.
Qed.

Lemma lower_char_high (c : ascii) : 128 <= N_of_ascii c -> lower_char c = c.
Proof.
  intros Hc. unfold lower_char.
  destruct (tolower_cases (N_of_ascii c)) as [[? ->] | [? ->]]; [lia|].
  apply to_char_of_byte.
Qed.

Lemma lower_char_idempotent (c : ascii) :
  lower_char (lower_char c) = lower_char c.
Proof.
  unfold lower_char at 1. rewrite lower_char_byte, tolower_idempotent.
  reflexivity.
Qed.

Lemma transform_length (f : ascii -> ascii) (s : string) :
  String.length (transform f s) = String.length s.
Proof. induction s as [|c s IH]; [reflexivity|]. cbn. now rewrite IH. Qed.

Lemma transform_idempotent (f : ascii -> ascii) (s : string) :
  (forall c, f (f c) = f c) -> transform f (transform f s) = transform f s.
Proof.
  intros Hf. induction s as [|c s IH]; [reflexivity|]. cbn. now rewrite Hf, IH.
Qed.

(** Lowercasing a well-formed text byte by byte lowercases it codepoint
    by codepoint. *)
Lemma transform_lower_well_formed (s : string) :
  WellFormedUtf8 s = true ->
  WellFormedUtf8 (transform lower_char s) = true
  /\ Utf8ToCodepoints (transform lower_char s)
     = map tolower (Utf8ToCodepoints s).
Proof.
  revert s. apply WellFormedUtf8_cases.
  - split; reflexivity.
  - intros c1 rest H Hwf [IHwf IHdec]. cbn [transform].
    assert (H' : seq1 (N_of_ascii (lower_char c1))).
    { unfold seq1 in *. rewrite lower_char_byte.
      destruct (tolower_cases (N_of_ascii c1)) as [[? ->] | [? ->]]; lia. }
    rewrite WellFormedUtf8_seq1 by exact H'.
    rewrite !decode_seq1 by assumption.
    cbn [map]. now rewrite lower_char_byte, IHdec.
  - intros c1 c2 rest H Hwf [IHwf IHdec]. cbn [transform].
    pose proof H as H'. unfold seq2 in H'.
    rewrite !lower_char_high by lia.
    rewrite WellFormedUtf8_seq2 by exact H.
    rewrite !decode_seq2 by assumption.
    cbn [map]. rewrite IHdec. split; [exact IHwf|]. f_equal.
    match goal with |- _ = tolower ?x =>
      destruct (tolower_cases x) as [[? ->] | [? ->]]; lia end.
  - intros c1 c2 c3 rest H Hwf [IHwf IHdec]. cbn [transform].
    pose proof H as H'. unfold seq3 in H'.
    rewrite !lower_char_high by lia.
    rewrite WellFormedUtf8_seq3 by exact H.
    rewrite !decode_seq3 by assumption.
    cbn [map]. rewrite IHdec. split; [exact IHwf|]. f_equal.
    match goal with |- _ = tolower ?x =>
      destruct (tolower_cases x) as [[? ->] | [? ->]]; lia end.
  - intros c1 c2 c3 c4 rest H Hwf [IHwf IHdec]. cbn [transform].
    pose proof H as H'. unfold seq4 in H'.
    rewrite !lower_char_high by lia.
    rewrite WellFormedUtf8_seq4 by exact H.
    rewrite !decode_seq4 by assumption.
    cbn [map]. rewrite IHdec. split; [exact IHwf|]. f_equal.
    match goal with |- _ = tolower ?x =>
      destruct (tolower_cases x) as [[? ->] | [? ->]]; lia end.
Qed.

Lemma NormalizeText_lower (text : string) (nfkc : bool) (width : string) :
  NormalizeText text nfkc width true = transform lower_char text.
Proof. reflexivity. Qed.

End Normalize.

(** X12.  Built without ICU, [NormalizeText] with [lower] set keeps the
    length of the text and is idempotent; on a well-formed UTF-8 text its
    result is well-formed and has the codepoints of the text with the
    letters A to Z lowered and every other codepoint unchanged. *)
Theorem NormalizeText_lowercases (text : string) (nfkc : bool) (width : string) :
  String.length (NormalizeText text nfkc width true) = String.length text
  /\ NormalizeText (NormalizeText text nfkc width true) nfkc width true
     = NormalizeText text nfkc width true
  /\ (WellFormedUtf8 text = true ->
      WellFormedUtf8 (NormalizeText text nfkc width true) = true
      /\ Utf8ToCodepoints (NormalizeText text nfkc width true)
         = map tolower (Utf8ToCodepoints text)).
Proof.
  rewrite !NormalizeText_lower.
  split; [apply transform_length|].
  split; [apply transform_idempotent; intros c; apply lower_char_idempotent|].
  apply transform_lower_well_formed.
Qed.

Lemma NormalizeText_lowercases_witness :
  WellFormedUtf8 "AI漢字Test" = true
  /\ WellFormedUtf8 (NormalizeText "AI漢字Test" true "narrow" true) = true
  /\ Utf8ToCodepoints (NormalizeText "AI漢字Test" true "narrow" true)
     = map tolower (Utf8ToCodepoints "AI漢字Test").
Proof.
  assert (Hwf : WellFormedUtf8 "AI漢字Test" = true) by (vm_compute; reflexivity).
  split; [exact Hwf|].
  exact (proj2 (proj2 (NormalizeText_lowercases "AI漢字Test" true "narrow")) Hwf).
Defined.

(** ** The tokenizer *)

Section TokenizerMore.

#[local] Open Scope nat_scope.

Variable input : string.

Lemma SkipWhitespace_loop_le : forall fuel pos,
  pos <= String.length input ->
  SkipWhitespace_loop input fuel pos <= String.length input.
Proof.
  induction fuel as [|fuel IH]; intros pos Hpos; cbn [SkipWhitespace_loop];
    [exact Hpos|].
  destruct (Nat.ltb_spec pos (String.length input)); [|exact Hpos].
  destruct (IsFullWidthSpace input pos) eqn:Hfw.
  - apply IH. unfold IsFullWidthSpace in Hfw.
    destruct (Nat.leb_spec (String.length input) (pos + 2)); [discriminate | lia].
  - destruct (isspace (byte_at input pos)); [apply IH; lia | exact Hpos].
Qed.

Lemma ReadTerm_loop_le : forall fuel term pos,
  pos <= String.length input ->
  snd (ReadTerm_loop input fuel term pos) <= String.length input.
Proof.
  induction fuel as [|fuel IH]; intros term pos Hpos; cbn [ReadTerm_loop];
    [exact Hpos|].
  destruct (Nat.ltb_spec pos (String.length input)); [|exact Hpos].
  destruct (IsFullWidthSpace input pos); [exact Hpos|].
  destruct (is_term_stop (char_at input pos)); [exact Hpos | apply IH; lia].
Qed.

Lemma ReadQuotedString_loop_le : forall fuel term pos,
  pos <= String.length input ->
  snd (ReadQuotedString_loop input fuel term pos) <= String.length input.
Proof.
  induction fuel as [|fuel IH]; intros term pos Hpos;
    cbn [ReadQuotedString_loop]; [exact Hpos|].
  destruct (Nat.ltb_spec pos (String.length input)); [|exact Hpos].
  destruct (char_at input pos =? dquote)%char; [cbn [snd]; lia|].
  destruct (char_at input pos =? backslash)%char; cbn [andb].
  - destruct (Nat.ltb_spec (pos + 1) (String.length input)); apply IH; lia.
  - apply IH; lia.
Qed.

Lemma Next_le (pos : nat) :
  pos <= String.length input -> snd (Next input pos) <= String.length input.
Proof.
  intros Hpos. unfold Next.
  pose proof (SkipWhitespace_loop_le (String.length input - pos) pos Hpos) as Hle.
  fold (SkipWhitespace input pos) in Hle.
  set (pos_ := SkipWhitespace input pos) in *.
  destruct (Nat.leb_spec (String.length input) pos_) as [Hend | Hin];
    [exact Hle|].
  destruct (char_at input pos_ =? dquote)%char eqn:Hq.
  { unfold ReadQuotedString. rewrite Hq.
    replace (String.length input <=? pos_) with false
      by (symmetry; apply Nat.leb_gt; exact Hin).
    cbn [orb negb].
    pose proof (ReadQuotedString_loop_le (String.length input - (pos_ + 1)) ""
                  (pos_ + 1)) as Hq_le.
    destruct (ReadQuotedString_loop input _ "" (pos_ + 1)) as [quoted pos'].
    cbn [fst snd] in *. lia. }
  destruct (char_at input pos_ =? "+")%char; [cbn [snd]; lia|].
  destruct (char_at input pos_ =? "-")%char; [cbn [snd]; lia|].
  destruct (char_at input pos_ =? "(")%char; [cbn [snd]; lia|].
  destruct (char_at input pos_ =? ")")%char; [cbn [snd]; lia|].
  cbv zeta.
  destruct (Nat.leb_spec (pos_ + 2) (String.length input)); cbn [andb];
    [match goal with |- context [if ?c then _ else _] => destruct c end;
     [cbn [snd]; lia|]|];
    unfold ReadTerm;
    pose proof (ReadTerm_loop_le (String.length input - pos_) "" pos_) as Ht;
    destruct (ReadTerm_loop input _ "" pos_) as [term pos'];
    cbn [fst snd] in *; lia.
Qed.

(** The end token is returned exactly when only spaces are left. *)
Lemma Next_end (pos : nat) :
  type (fst (Next input pos)) = kEnd
  <-> String.length input <= SkipWhitespace input pos.
Proof.
  unfold Next. set (pos_ := SkipWhitespace input pos).
  destruct (Nat.leb_spec (String.length input) pos_) as [Hend | Hin].
  - cbn [fst type]. split; [intros _; exact Hend | reflexivity].
  - split; [|lia]. 
    destruct (char_at input pos_ =? dquote)%char.
    { destruct (ReadQuotedString input pos_). cbn. discriminate. }
    repeat match goal with
           | |- context [if ?c then _ else _] => destruct c
           end; try (cbn; discriminate).
    all: cbv zeta;
      repeat match goal with
             | |- context [if ?c then _ else _] => destruct c
             end; try (cbn; discriminate);
      destruct (ReadTerm input pos_); cbn; discriminate.
Qed.

(** *** Bare terms are slices of the input *)

Lemma chars_app (a b : string) : chars (a ++ b) = (chars a ++ chars b)%list.
Proof.
  unfold chars. induction a as [|c a IH]; [reflexivity|].
  cbn [append list_ascii_of_string app]. now rewrite IH.
Qed.

Lemma substring_0 (s : string) (i : nat) : String.substring i 0 s = "".
Proof.
  revert i. induction s as [|c s IH]; intros [|i]; cbn; try reflexivity.
  apply IH.
Qed.

Lemma substring_step (s : string) : forall i k,
  i < String.length s ->
  String.substring i (S k) s
  = String (char_at s i) (String.substring (i + 1) k s).
Proof.
  induction s as [|c s IH]; intros i k Hi; [simpl in Hi; lia|].
  destruct i as [|i].
  - unfold char_at. cbn [String.substring String.get Nat.add]. reflexivity.
  - cbn [String.substring Nat.add]. cbn [String.length] in Hi.
    rewrite IH by lia. unfold char_at. cbn [String.get]. reflexivity.
Qed.

Lemma ReadTerm_loop_slice : forall fuel term pos,
  fst (ReadTerm_loop input fuel term pos)
  = term ++ String.substring pos
              (snd (ReadTerm_loop input fuel term pos) - pos) input.
Proof.
  induction fuel as [|fuel IH]; intros term pos; cbn [ReadTerm_loop].
  - cbn [fst snd]. now rewrite Nat.sub_diag, substring_0, string_app_empty_r.
  - destruct (Nat.ltb_spec pos (String.length input));
      [|cbn [fst snd]; now rewrite Nat.sub_diag, substring_0, string_app_empty_r].
    destruct (IsFullWidthSpace input pos);
      [cbn [fst snd]; now rewrite Nat.sub_diag, substring_0, string_app_empty_r|].
    destruct (is_term_stop (char_at input pos));
      [cbn [fst snd]; now rewrite Nat.sub_diag, substring_0, string_app_empty_r|].
    rewrite IH.
    pose proof (ReadTerm_loop_ge input fuel (push_back term (char_at input pos))
                  (pos + 1)) as Hge.
    set (pos' := snd (ReadTerm_loop input fuel _ (pos + 1))) in *.
    replace (pos' - pos) with (S (pos' - (pos + 1))) by lia.
    rewrite substring_step by assumption.
    unfold push_back. rewrite string_app_assoc. reflexivity.
Qed.

Lemma ReadTerm_loop_chars : forall fuel term pos,
  Forall (fun c => is_term_stop c = false) (chars term) ->
  Forall (fun c => is_term_stop c = false)
         (chars (fst (ReadTerm_loop input fuel term pos))).
Proof.
  induction fuel as [|fuel IH]; intros term pos Hterm; cbn [ReadTerm_loop];
    [exact Hterm|].
  destruct (pos <? String.length input); [|exact Hterm].
  destruct (IsFullWidthSpace input pos); [exact Hterm|].
  destruct (is_term_stop (char_at input pos)) eqn:Hstop; [exact Hterm|].
  apply IH. unfold push_back. rewrite chars_app. apply Forall_app.
  split; [exact Hterm|]. repeat constructor. exact Hstop.
Qed.

(** A term token: read behind the spaces, not empty, a slice of the
    input, without a character that ends a term. *)
Lemma Next_term (pos : nat) :
  type (fst (Next input pos)) = kTerm ->
  SkipWhitespace input pos < snd (Next input pos)
  /\ value (fst (Next input pos))
     = String.substring (SkipWhitespace input pos)
         (snd (Next input pos) - SkipWhitespace input pos) input
  /\ Forall (fun c => is_term_stop c = false) (chars (value (fst (Next input pos)))).
Proof.
  pose proof (Next_progress input pos) as [_ Hprog].
  pose proof (SkipWhitespace_loop_stop input (String.length input - pos) pos
                (Nat.le_refl _)) as Hstop.
  fold (SkipWhitespace input pos) in Hstop.
  unfold Next in *. set (pos_ := SkipWhitespace input pos) in *.
  destruct (Nat.leb_spec (String.length input) pos_) as [Hend | Hin];
    [cbn; discriminate|].
  destruct (Hstop Hin) as [Hfw Hsp].
  destruct (char_at input pos_ =? dquote)%char eqn:Hq.
  { destruct (ReadQuotedString input pos_). cbn. discriminate. }
  destruct (char_at input pos_ =? "+")%char eqn:Hplus; [cbn; discriminate|].
  destruct (char_at input pos_ =? "-")%char eqn:Hminus; [cbn; discriminate|].
  destruct (char_at input pos_ =? "(")%char eqn:Hl; [cbn; discriminate|].
  destruct (char_at input pos_ =? ")")%char eqn:Hr; [cbn; discriminate|].
  cbv zeta in *.
  match goal with |- context [if ?c then _ else _] => destruct c end;
    [cbn; discriminate|].
  intros _. unfold ReadTerm in *.
  pose proof (ReadTerm_loop_slice (String.length input - pos_) "" pos_) as Hslice.
  pose proof (ReadTerm_loop_chars (String.length input - pos_) "" pos_
                (Forall_nil _)) as Hchars.
  assert (Hfirst : pos_ < snd (ReadTerm_loop input (String.length input - pos_) "" pos_)).
  { destruct (String.length input - pos_) as [|fuel] eqn:Hfuel; [lia|].
    cbn [ReadTerm_loop].
    replace (pos_ <? String.length input) with true
      by (symmetry; apply Nat.ltb_lt; exact Hin).
    rewrite Hfw.
    rewrite is_term_stop_false;
      try assumption; [|rewrite <- byte_at_char_at by exact Hin; exact Hsp].
    pose proof (ReadTerm_loop_ge input fuel (push_back "" (char_at input pos_))
                  (pos_ + 1)). lia. }
  destruct (ReadTerm_loop input (String.length input - pos_) "" pos_)
    as [term pos'].
  cbn [fst snd value] in *. split; [exact Hfirst|]. split; assumption.
Qed.

(** Behind spaces only, up to the end of the input. *)
Lemma SkipWhitespace_loop_blank : forall fuel pos,
  (forall i, i < String.length input -> isspace (byte_at input i) = true) ->
  String.length input - pos <= fuel ->
  String.length input <= SkipWhitespace_loop input fuel pos.
Proof.
  induction fuel as [|fuel IH]; intros pos Hblank Hfuel;
    cbn [SkipWhitespace_loop]; [lia|].
  destruct (Nat.ltb_spec pos (String.length input)) as [Hin | Hout]; [|exact Hout].
  destruct (IsFullWidthSpace input pos); [apply IH; [exact Hblank | lia]|].
  rewrite Hblank by exact Hin. apply IH; [exact Hblank | lia].
Qed.

End TokenizerMore.

Lemma is_blank_bytes (s : string) :
  is_blank s -> forall i, (i < String.length s)%nat -> isspace (byte_at s i) = true.
Proof.
  unfold is_blank, chars, byte_at.
  induction s as [|c s IH]; intros Hall i Hi; [simpl in Hi; lia|].
  cbn [list_ascii_of_string] in Hall. inversion Hall as [|? ? Hc Hrest]; subst.
  destruct i as [|i]; [exact Hc|].
  cbn [String.get]. apply IH; [exact Hrest | simpl in Hi; lia].
Qed.

(** X14.  A bare term returned by the tokenizer is never empty: it is
    the slice of the input from the first non-space byte behind the
    cursor to the new cursor, and it contains no whitespace, [+], [-],
    parenthesis or double quote. *)
Theorem term_token_is_slice (input : string) (pos : nat) :
  type (fst (Next input pos)) = kTerm ->
  (SkipWhitespace input pos < snd (Next input pos))%nat
  /\ value (fst (Next input pos))
     = String.substring (SkipWhitespace input pos)
         (snd (Next input pos) - SkipWhitespace input pos) input
  /\ Forall (fun c => is_term_stop c = false) (chars (value (fst (Next input pos)))).
Proof. apply Next_term. Qed.

Lemma term_token_is_slice_witness :
  type (fst (Next "+golang tutorial" 7)) = kTerm
  /\ value (fst (Next "+golang tutorial" 7))
     = String.substring 8 8 "+golang tutorial".
Proof.
  assert (Hterm : type (fst (Next "+golang tutorial" 7)) = kTerm) by reflexivity.
  split; [exact Hterm|].
  exact (proj1 (proj2 (term_token_is_slice "+golang tutorial" 7 Hterm))).
Defined.

(** X15.  Only the string of length zero is rejected as empty: an input
    that is not empty and holds ASCII whitespace only parses to the
    expression without terms, and converts to the empty query string. *)
Theorem blank_expression_is_accepted (expression : string) :
  expression <> "" -> is_blank expression ->
  ParseSearchExpression expression = Some (Value empty_expression)
  /\ ConvertSearchExpression expression = Some (Value "").
Proof.
  intros Hne Hblank.
  assert (Hparse : ParseSearchExpression expression = Some (Value empty_expression)).
  { unfold ParseSearchExpression.
    destruct expression as [|c rest] eqn:Hexpr; [congruence|].
    rewrite <- Hexpr in *. replace (empty expression) with false by now subst.
    unfold new_Parser. rewrite Advance_after.
    assert (Hend : type (current_ (after_Advance expression
                                     (mkParser 0 (mkToken kEnd "") 0))) = kEnd).
    { unfold after_Advance. cbn [current_ tokenizer_pos]. apply Next_end.
      apply SkipWhitespace_loop_blank; [apply is_blank_bytes, Hblank | lia]. }
    unfold Parse, parse_fuel. rewrite Nat.add_comm. cbn [Nat.add Parse_loop].
    unfold bind, current. rewrite Hend. reflexivity. }
  split; [exact Hparse|]. unfold ConvertSearchExpression. now rewrite Hparse.
Qed.

Lemma blank_expression_is_accepted_witness :
  "  " <> "" /\ is_blank "  "
  /\ ParseSearchExpression "  " = Some (Value empty_expression)
  /\ ConvertSearchExpression "  " = Some (Value "").
Proof.
  assert (Hne : "  " <> "") by discriminate.
  assert (Hblank : is_blank "  ") by (repeat constructor).
  split; [exact Hne|]. split; [exact Hblank|].
  exact (blank_expression_is_accepted "  " Hne Hblank).
Defined.

(** ** What the parser returns *)

Section ParserResults.

#[local] Open Scope nat_scope.

Variable input : string.

Lemma Next_term_nonempty (pos : nat) : token_ok (fst (Next input pos)).
Proof.
  intros Hterm.
  destruct (Next_term input pos Hterm) as (Hlt & Hslice & _).
  assert (Hin : SkipWhitespace input pos < String.length input).
  { destruct (Nat.lt_ge_cases (SkipWhitespace input pos) (String.length input))
      as [Hin | Hout]; [exact Hin|].
    apply Next_end in Hout. congruence. }
  rewrite Hslice.
  replace (snd (Next input pos) - SkipWhitespace input pos)
    with (S (snd (Next input pos) - SkipWhitespace input pos - 1)) by lia.
  rewrite substring_step by exact Hin. discriminate.
Qed.

Lemma after_Advance_ok (p : Parser) : token_ok (current_ (after_Advance input p)).
Proof. unfold after_Advance. cbn [current_]. apply Next_term_nonempty. Qed.

Lemma CaptureParen_loop_ok : forall fuel oss depth p r p',
  CaptureParen_loop input fuel oss depth p = Some (r, p') ->
  token_ok (current_ p) -> token_ok (current_ p').
Proof.
  induction fuel as [|fuel IH]; intros oss depth p r p' Hrun Hok; [discriminate|].
  cbn [CaptureParen_loop] in Hrun. unfold bind at 1 in Hrun.
  unfold current at 1 in Hrun.
  destruct (type (current_ p));
    try (match type of Hrun with
         | context [if ?c then _ else _] => destruct c
         end;
         unfold bind at 1 in Hrun; rewrite Advance_after in Hrun;
         [ eapply IH; [exact Hrun | apply after_Advance_ok]
         | injection Hrun as _ <-; apply after_Advance_ok ]).
  injection Hrun as _ <-. exact Hok.
Qed.

Lemma CaptureParenExpression_ok fuel p r p' :
  CaptureParenExpression input fuel p = Some (r, p') ->
  token_ok (current_ p) -> token_ok (current_ p').
Proof.
  unfold CaptureParenExpression, bind at 1. unfold current at 1.
  destruct (negb (TokenType_eqb (type (current_ p)) kLParen)).
  - intros Hrun Hok. injection Hrun as _ <-. exact Hok.
  - apply CaptureParen_loop_ok.
Qed.

Lemma CaptureOr_loop_ok : forall fuel oss p r p',
  CaptureOr_loop input fuel oss p = Some (r, p') ->
  token_ok (current_ p) -> token_ok (current_ p').
Proof.
  induction fuel as [|fuel IH]; intros oss p r p' Hrun Hok; [discriminate|].
  cbn [CaptureOr_loop] in Hrun. unfold bind at 1 in Hrun.
  unfold current at 1 in Hrun.
  destruct (TokenType_eqb (type (current_ p)) kOr);
    [|injection Hrun as _ <-; exact Hok].
  unfold bind at 1 in Hrun. rewrite Advance_after in Hrun.
  unfold bind at 1 in Hrun. unfold current at 1 in Hrun.
  pose proof (after_Advance_ok p) as Hok1.
  set (p1 := after_Advance input p) in *.
  destruct (type (current_ p1));
    try (injection Hrun as _ <-; exact Hok1);
    try (unfold bind at 1 in Hrun; rewrite Advance_after in Hrun;
         eapply IH; [exact Hrun | apply after_Advance_ok]).
  unfold bind at 1 in Hrun.
  destruct (CaptureParenExpression input fuel p1) as [[paren p2]|] eqn:Hparen;
    [|discriminate].
  pose proof (CaptureParenExpression_ok _ _ _ _ Hparen Hok1) as Hok2.
  destruct (empty paren); [injection Hrun as _ <-; exact Hok2|].
  eapply IH; [exact Hrun | exact Hok2].
Qed.

Lemma CaptureOrExpression_ok fuel p r p' :
  CaptureOrExpression input fuel p = Some (r, p') -> token_ok (current_ p').
Proof.
  unfold CaptureOrExpression, bind at 1. unfold current at 1.
  unfold bind at 1. rewrite Advance_after. intros Hrun.
  eapply CaptureOr_loop_ok; [exact Hrun | apply after_Advance_ok].
Qed.

Lemma quoted_nonempty (s : string) : quoted s <> "".
Proof. discriminate. Qed.

Lemma ParsePrefixedTerm_ok fuel p r p' :
  ParsePrefixedTerm input fuel p = Some (r, p') ->
  token_ok (current_ p) ->
  token_ok (current_ p') /\ (forall term, r = Some term -> term <> "").
Proof.
  unfold ParsePrefixedTerm, bind at 1. unfold current at 1.
  intros Hrun Hok.
  destruct (type (current_ p)) eqn:Hty;
    try (injection Hrun as <- <-; split; [exact Hok | discriminate]).
  - unfold bind at 1 in Hrun. rewrite Advance_after in Hrun.
    injection Hrun as <- <-. split; [apply after_Advance_ok|].
    intros term [= <-]. apply Hok, Hty.
  - unfold bind at 1 in Hrun. rewrite Advance_after in Hrun.
    injection Hrun as <- <-. split; [apply after_Advance_ok|].
    intros term [= <-]. apply quoted_nonempty.
  - unfold bind at 1 in Hrun.
    destruct (CaptureParenExpression input fuel p) as [[expr p1]|] eqn:Hparen;
      [|discriminate].
    injection Hrun as <- <-.
    split; [eapply CaptureParenExpression_ok; eassumption|].
    intros term. destruct (empty expr) eqn:Hempty; [discriminate|].
    intros [= <-] ->. discriminate.
Qed.

Lemma push_required_ok (e : SearchExpression) (term : string) :
  terms_ok e -> term <> "" -> terms_ok (push_required e term).
Proof.
  intros (Hopt & Hreq & Hexc) Hterm. unfold terms_ok, push_required.
  cbn [optional_terms required_terms excluded_terms].
  split; [exact Hopt|]. split; [|exact Hexc].
  apply Forall_app. split; [exact Hreq | repeat constructor; exact Hterm].
Qed.

Lemma push_excluded_ok (e : SearchExpression) (term : string) :
  terms_ok e -> term <> "" -> terms_ok (push_excluded e term).
Proof.
  intros (Hopt & Hreq & Hexc) Hterm. unfold terms_ok, push_excluded.
  cbn [optional_terms required_terms excluded_terms].
  split; [exact Hopt|]. split; [exact Hreq|].
  apply Forall_app. split; [exact Hexc | repeat constructor; exact Hterm].
Qed.

Lemma append_raw_ok (e : SearchExpression) (fragment : string) :
  terms_ok e -> terms_ok (append_raw e fragment).
Proof. intros H. exact H. Qed.

Lemma syntax_error_ok (message : string) :
  In message syntax_messages -> result_ok (syntax_error message).
Proof. intros Hin. cbn. repeat split. exact Hin. Qed.

Lemma Parse_loop_ok : forall fuel expr p r p',
  Parse_loop input fuel expr p = Some (r, p') ->
  token_ok (current_ p) -> terms_ok expr -> result_ok r.
Proof.
  induction fuel as [|fuel IH]; intros expr p r p' Hrun Hok Hexpr; [discriminate|].
  cbn [Parse_loop] in Hrun. unfold bind at 1 in Hrun.
  unfold current at 1 in Hrun.
  destruct (type (current_ p)) eqn:Hty.
  - (* kTerm *)
    unfold bind at 1 in Hrun. rewrite LooksLikeOrExpression_restores in Hrun.
    destruct (TokenType_eqb (type (next_token input p)) kOr).
    + unfold bind at 1 in Hrun.
      match type of Hrun with
      | context [CaptureOrExpression input fuel ?q] =>
          destruct (CaptureOrExpression input fuel q) as [[or_expr p1]|] eqn:Hor;
            [|discriminate]
      end.
      eapply IH; [exact Hrun | eapply CaptureOrExpression_ok; exact Hor|].
      apply append_raw_ok, Hexpr.
    + unfold bind at 1 in Hrun. rewrite Advance_after in Hrun.
      eapply IH; [exact Hrun | apply after_Advance_ok|].
      apply push_required_ok; [exact Hexpr|]. cbn [TokenType_eqb]. apply Hok, Hty.
  - (* kQuotedTerm *)
    unfold bind at 1 in Hrun. rewrite LooksLikeOrExpression_restores in Hrun.
    destruct (TokenType_eqb (type (next_token input p)) kOr).
    + unfold bind at 1 in Hrun.
      match type of Hrun with
      | context [CaptureOrExpression input fuel ?q] =>
          destruct (CaptureOrExpression input fuel q) as [[or_expr p1]|] eqn:Hor;
            [|discriminate]
      end.
      eapply IH; [exact Hrun | eapply CaptureOrExpression_ok; exact Hor|].
      apply append_raw_ok, Hexpr.
    + unfold bind at 1 in Hrun. rewrite Advance_after in Hrun.
      eapply IH; [exact Hrun | apply after_Advance_ok|].
      apply push_required_ok; [exact Hexpr|]. cbn [TokenType_eqb].
      apply quoted_nonempty.
  - (* kPlus *)
    unfold bind at 1 in Hrun. rewrite Advance_after in Hrun.
    unfold bind at 1 in Hrun.
    destruct (ParsePrefixedTerm input fuel (after_Advance input p))
      as [[term p1]|] eqn:Hterm; [|discriminate].
    destruct (ParsePrefixedTerm_ok _ _ _ _ Hterm (after_Advance_ok p))
      as [Hok1 Hne].
    destruct term as [term|].
    + eapply IH; [exact Hrun | exact Hok1|].
      apply push_required_ok; [exact Hexpr | now apply Hne].
    + injection Hrun as <- _. apply syntax_error_ok. cbn. tauto.
  - (* kMinus *)
    unfold bind at 1 in Hrun. rewrite Advance_after in Hrun.
    unfold bind at 1 in Hrun.
    destruct (ParsePrefixedTerm input fuel (after_Advance input p))
      as [[term p1]|] eqn:Hterm; [|discriminate].
    destruct (ParsePrefixedTerm_ok _ _ _ _ Hterm (after_Advance_ok p))
      as [Hok1 Hne].
    destruct term as [term|].
    + eapply IH; [exact Hrun | exact Hok1|].
      apply push_excluded_ok; [exact Hexpr | now apply Hne].
    + injection Hrun as <- _. apply syntax_error_ok. cbn. tauto.
  - (* kOr *)
    injection Hrun as <- _. apply syntax_error_ok. cbn. tauto.
  - (* kLParen *)
    unfold bind at 1 in Hrun.
    destruct (CaptureParenExpression input fuel p) as [[paren p1]|] eqn:Hparen;
      [|discriminate].
    destruct (empty paren).
    + injection Hrun as <- _. apply syntax_error_ok. cbn. tauto.
    + eapply IH; [exact Hrun | eapply CaptureParenExpression_ok; eassumption|].
      apply append_raw_ok, Hexpr.
  - (* kRParen *)
    injection Hrun as <- _. apply syntax_error_ok. cbn. tauto.
  - (* kEnd *)
    injection Hrun as <- _. exact Hexpr.
Qed.

End ParserResults.

Lemma ParseSearchExpression_ok (expression : string)
    (r : Expected SearchExpression Error) :
  ParseSearchExpression expression = Some r -> result_ok r.
Proof.
  unfold ParseSearchExpression.
  destruct (empty expression).
  - intros [= <-]. cbn. repeat split. tauto.
  - unfold new_Parser. rewrite Advance_after. unfold Parse.
    destruct (Parse_loop expression (parse_fuel expression) empty_expression _)
      as [[result p']|] eqn:Hrun; [|discriminate].
    intros [= <-].
    eapply Parse_loop_ok; [exact Hrun | apply after_Advance_ok|].
    repeat split; constructor.
Qed.

(** ** The query string of a parsed expression *)

Lemma concat_nonempty (sep : string) (l : list string) :
  Forall (fun s => s <> "") l -> l <> [] -> String.concat sep l <> "".
Proof.
  intros Hall Hne. destruct l as [|x l]; [congruence|].
  inversion Hall as [|? ? Hx _]; subst.
  destruct x as [|c x]; [congruence|].
  destruct l; cbn; discriminate.
Qed.

Lemma concat_flatten (sep : string) (rest : list string) : forall l,
  Forall (fun s => s <> "") l ->
  String.concat sep (nonempty_part (String.concat sep l) ++ rest)
  = String.concat sep (l ++ rest).
Proof.
  induction l as [|x l IH]; intros Hall; [reflexivity|].
  inversion Hall as [|? ? Hx Hl]; subst.
  destruct l as [|y l].
  - destruct x; [congruence | reflexivity].
  - specialize (IH Hl).
    assert (HT : String.concat sep (y :: l) <> "")
      by (apply concat_nonempty; [exact Hl | discriminate]).
    set (T := String.concat sep (y :: l)) in *.
    change (String.concat sep (x :: y :: l)) with (x ++ sep ++ T).
    change ((x :: y :: l) ++ rest)%list with (x :: (y :: (l ++ rest)%list)).
    change (String.concat sep (x :: y :: (l ++ rest)%list))
      with (x ++ sep ++ String.concat sep ((y :: l) ++ rest)).
    rewrite <- IH.
    destruct T as [|t T]; [congruence|].
    destruct x as [|c x]; [congruence|].
    cbn [nonempty_part append empty app].
    destruct rest as [|r rest]; [reflexivity|].
    change (String.concat sep (String c (x ++ sep ++ String t T) :: r :: rest))
      with (String c (x ++ sep ++ String t T) ++ sep ++ String.concat sep (r :: rest)).
    change (String.concat sep (String t T :: r :: rest))
      with (String t T ++ sep ++ String.concat sep (r :: rest)).
    cbn [append]. f_equal.
    rewrite !string_app_assoc. reflexivity.
Qed.

Lemma plain_parts_nonempty (e : SearchExpression) :
  terms_ok e -> Forall (fun s => s <> "") (plain_parts e).
Proof.
  intros (_ & Hreq & Hexc). unfold plain_parts.
  apply Forall_app. split; [exact Hreq|].
  apply Forall_app. split.
  - apply Forall_forall. intros s Hin. apply in_map_iff in Hin.
    destruct Hin as (t & <- & _). discriminate.
  - destruct (empty (raw_expression e)); repeat constructor. discriminate.
Qed.

Lemma plain_parts_nil (e : SearchExpression) :
  plain_parts e = []
  <-> required_terms e = [] /\ excluded_terms e = [] /\ raw_expression e = "".
Proof.
  unfold plain_parts. split.
  - intros H. apply app_eq_nil in H as [Hreq H].
    apply app_eq_nil in H as [Hexc Hraw].
    split; [exact Hreq|]. split; [now apply map_eq_nil in Hexc|].
    destruct (raw_expression e); [reflexivity | discriminate].
  - intros (-> & -> & ->). reflexivity.
Qed.

Lemma ToQueryString_plain (e : SearchExpression) :
  terms_ok e ->
  ToQueryString e = String.concat " AND " (plain_parts e)
  /\ (ToQueryString e = ""
      <-> required_terms e = [] /\ excluded_terms e = [] /\ raw_expression e = "").
Proof.
  intros Hok.
  assert (Heq : ToQueryString e = String.concat " AND " (plain_parts e)).
  { rewrite ToQueryString_parts. unfold query_parts, plain_parts.
    apply concat_flatten. apply Hok. }
  split; [exact Heq|]. rewrite Heq, <- plain_parts_nil.
  split.
  - intros Hempty. destruct (plain_parts e) as [|x l] eqn:Hparts; [reflexivity|].
    exfalso. revert Hempty. apply concat_nonempty; [|discriminate].
    rewrite <- Hparts. apply plain_parts_nonempty, Hok.
  - intros ->. reflexivity.
Qed.

(** X16.  [ParseSearchExpression] returns on every input: each iteration
    of the loop of [Parser::Parse] consumes a token, so that as many
    iterations as the input has bytes, and two more, suffice; with more
    the result is the same. *)
Theorem ParseSearchExpression_terminates (expression : string) :
  exists r,
    ParseSearchExpression expression = Some r
    /\ (expression <> "" ->
        forall fuel, (parse_fuel expression <= fuel)%nat ->
        exists p', Parse expression fuel (initial_Parser expression) = Some (r, p')).
Proof.
  destruct (ParseSearchExpression_total expression) as (r & Hr & _).
  exists r. split; [exact Hr|]. intros Hne fuel Hfuel.
  unfold ParseSearchExpression in Hr.
  destruct (empty expression) eqn:Hempty;
    [apply empty_true_iff in Hempty; congruence|].
  unfold new_Parser in Hr. rewrite Advance_after in Hr.
  fold (initial_Parser expression) in Hr. unfold Parse in *.
  destruct (Parse_loop expression (parse_fuel expression) empty_expression
              (initial_Parser expression)) as [[result p']|] eqn:Hrun;
    [|discriminate].
  injection Hr as ->. exists p'.
  eapply Parse_loop_fuel; [exact Hrun | exact Hfuel].
Qed.

Lemma ParseSearchExpression_terminates_witness :
  exists r,
    ParseSearchExpression "(a OR b) -c" = Some r
    /\ exists p', Parse "(a OR b) -c" 100 (initial_Parser "(a OR b) -c") = Some (r, p').
Proof.
  destruct (ParseSearchExpression_terminates "(a OR b) -c") as (r & Hr & Hfuel).
  exists r. split; [exact Hr|].
  apply Hfuel; [discriminate | vm_compute; lia].
Defined.

(** X17.  In every expression that [ParseSearchExpression] returns,
    [optional_terms] is empty, and no required and no excluded term is
    the empty string. *)
Theorem parsed_terms_are_not_empty (expression : string) (e : SearchExpression) :
  ParseSearchExpression expression = Some (Value e) ->
  optional_terms e = []
  /\ Forall (fun term => term <> "") (required_terms e)
  /\ Forall (fun term => term <> "") (excluded_terms e).
Proof. intros Hparse. exact (ParseSearchExpression_ok _ _ Hparse). Qed.

Lemma parsed_terms_are_not_empty_witness :
  ParseSearchExpression "+golang -old x"
  = Some (Value (mkSearchExpression ["golang"; "x"] ["old"] [] ""))
  /\ Forall (fun term => term <> "") ["golang"; "x"]
  /\ Forall (fun term => term <> "") ["old"].
Proof.
  assert (Hparse : ParseSearchExpression "+golang -old x"
                   = Some (Value (mkSearchExpression ["golang"; "x"] ["old"] [] "")))
    by (vm_compute; reflexivity).
  split; [exact Hparse|].
  exact (proj2 (parsed_terms_are_not_empty _ _ Hparse)).
Defined.

(** X18.  Every error of [ParseSearchExpression] has the code
    [kQuerySyntaxError], no context, and one of six messages. *)
Theorem parse_errors_are_syntax_errors (expression : string) (err : Error) :
  ParseSearchExpression expression = Some (Unexpected err) ->
  code_ err = kQuerySyntaxError /\ context_ err = ""
  /\ In (message_ err) syntax_messages.
Proof. intros Hparse. exact (ParseSearchExpression_ok _ _ Hparse). Qed.

Lemma parse_errors_are_syntax_errors_witness :
  ParseSearchExpression "golang +"
  = Some (Unexpected (MakeError kQuerySyntaxError "Expected term after '+'"))
  /\ In "Expected term after '+'" syntax_messages.
Proof.
  assert (Hparse : ParseSearchExpression "golang +"
                   = Some (Unexpected (MakeError kQuerySyntaxError
                                         "Expected term after '+'")))
    by (vm_compute; reflexivity).
  split; [exact Hparse|].
  exact (proj2 (proj2 (parse_errors_are_syntax_errors _ _ Hparse))).
Defined.

(** X19.  [ConvertSearchExpression] passes the error of the parser on
    unchanged, and otherwise returns the terms of the parsed expression
    joined by [" AND "]: the required terms, each excluded term behind
    ["NOT "], and the raw expression in parentheses; the query string is
    empty only if nothing was parsed. *)
Theorem ConvertSearchExpression_joins (expression : string) :
  exists r,
    ParseSearchExpression expression = Some r
    /\ match r with
       | Value e =>
           ConvertSearchExpression expression
           = Some (Value (String.concat " AND " (plain_parts e)))
           /\ (ToQueryString e = ""
               <-> required_terms e = [] /\ excluded_terms e = []
                   /\ raw_expression e = "")
       | Unexpected err =>
           ConvertSearchExpression expression = Some (Unexpected err)
       end.
Proof.
  destruct (ParseSearchExpression_total expression) as (r & Hr & _).
  exists r. split; [exact Hr|].
  pose proof (ParseSearchExpression_ok _ _ Hr) as Hok.
  unfold ConvertSearchExpression. rewrite Hr.
  destruct r as [e | err]; [|reflexivity].
  destruct (ToQueryString_plain e Hok) as [Heq Hempty].
  split; [now rewrite Heq | exact Hempty].
Qed.

(** ** Simplification *)

(** X20.  [SimplifySearchExpression] returns true exactly when the
    expression parses and has a required term; then the main term is the
    first required term and is not empty, [and_terms] are the other
    required terms and [not_terms] the excluded ones, whatever the raw
    expression of OR-chains and groups is; when it returns false the
    three outputs are as they were. *)
Theorem SimplifySearchExpression_outputs (expression : string)
    (out : SimplifyOutputs) :
  exists flag out',
    SimplifySearchExpression expression out = Some (flag, out')
    /\ (flag = true
        <-> exists e, ParseSearchExpression expression = Some (Value e)
                      /\ required_terms e <> [])
    /\ (flag = true ->
        exists e, ParseSearchExpression expression = Some (Value e)
                  /\ main_term out' :: and_terms out' = required_terms e
                  /\ not_terms out' = excluded_terms e
                  /\ main_term out' <> "")
    /\ (flag = false -> out' = out).
Proof.
  destruct (ParseSearchExpression_total expression) as (r & Hr & _).
  pose proof (ParseSearchExpression_ok _ _ Hr) as Hok.
  unfold SimplifySearchExpression. rewrite Hr.
  destruct r as [e | err].
  - destruct (required_terms e) as [|main rest] eqn:Hreq.
    + exists false, out. split; [reflexivity|].
      split; [|split; [discriminate | reflexivity]].
      split; [discriminate|]. intros (e' & [= <-] & Hne). congruence.
    + exists true, (mkSimplifyOutputs main rest (excluded_terms e)).
      split; [reflexivity|].
      destruct Hok as (_ & Hall & _). rewrite Hreq in Hall.
      inversion Hall as [|? ? Hmain _]; subst.
      split; [|split; [|discriminate]].
      * split; [|reflexivity]. intros _. exists e. split; [reflexivity|].
        rewrite Hreq. discriminate.
      * intros _. exists e. cbn [main_term and_terms not_terms].
        rewrite Hreq. repeat split. exact Hmain.
  - exists false, out. split; [reflexivity|].
    split; [|split; [discriminate | reflexivity]].
    split; [discriminate|]. intros (e' & [=] & _).
Qed.

(** ** Quoting *)

Section Quoting.

#[local] Open Scope nat_scope.

Import mygramclient.

Lemma char_at_app_r (a b : string) (i : nat) :
  char_at (a ++ b) (String.length a + i) = char_at b i.
Proof.
  unfold char_at. induction a as [|c a IH]; [reflexivity|].
  cbn [append String.length Nat.add String.get]. exact IH.
Qed.

Lemma char_at_app_0 (a : string) (c : ascii) (b : string) :
  char_at (a ++ String c b) (String.length a) = c.
Proof.
  pose proof (char_at_app_r a (String c b) 0) as H.
  rewrite Nat.add_0_r in H. exact H.
Qed.

Lemma char_at_app_1 (a : string) (c d : ascii) (b : string) :
  char_at (a ++ String c (String d b)) (String.length a + 1) = d.
Proof. now rewrite char_at_app_r. Qed.

Lemma escape_loop_escaped : forall str result,
  escape_loop str result = result ++ escaped str.
Proof.
  induction str as [|c str IH]; intros result; cbn [escape_loop escaped].
  - now rewrite string_app_empty_r.
  - rewrite IH. unfold push_back.
    destruct ((c =? dquote)%char || (c =? backslash)%char);
      rewrite !string_app_assoc; reflexivity.
Qed.

(** The reader of quoted strings undoes the escaping. *)
Lemma ReadQuotedString_loop_escaped : forall str input pre post term fuel,
  input = pre ++ escaped str ++ String dquote post ->
  String.length input - String.length pre <= fuel ->
  ReadQuotedString_loop input fuel term (String.length pre)
  = (term ++ str, String.length pre + String.length (escaped str) + 1).
Proof.
  induction str as [|c str IH]; intros input pre post term fuel Hinput Hfuel.
  - cbn [escaped append] in Hinput.
    assert (Hsize : String.length input = String.length pre + S (String.length post))
      by (subst input; now rewrite string_length_app).
    destruct fuel as [|fuel]; [lia|]. cbn [ReadQuotedString_loop].
    replace (String.length pre <? String.length input) with true
      by (symmetry; apply Nat.ltb_lt; lia).
    subst input. rewrite char_at_app_0. rewrite Ascii.eqb_refl.
    rewrite string_app_empty_r. cbn [escaped String.length]. f_equal. lia.
  - cbn [escaped] in Hinput.
    destruct ((c =? dquote)%char || (c =? backslash)%char) eqn:Hspecial.
    + cbn [append] in Hinput.
      assert (Hsize : String.length input
                      = String.length pre
                        + S (S (String.length (escaped str ++ String dquote post))))
        by (subst input; now rewrite string_length_app).
      destruct fuel as [|fuel]; [lia|]. cbn [ReadQuotedString_loop].
      replace (String.length pre <? String.length input) with true
        by (symmetry; apply Nat.ltb_lt; lia).
      replace (String.length pre + 1 <? String.length input) with true
        by (symmetry; apply Nat.ltb_lt; lia).
      assert (Hc0 : char_at input (String.length pre) = backslash)
        by (subst input; apply char_at_app_0).
      assert (Hc1 : char_at input (String.length pre + 1) = c)
        by (subst input; apply char_at_app_1).
      rewrite Hc0, Hc1.
      change ((backslash =? dquote)%char) with false.
      rewrite Ascii.eqb_refl. cbn [andb].
      replace (String.length pre + 1 + 1)
        with (String.length (pre ++ String backslash (String c "")))
        by (rewrite string_length_app; cbn [String.length]; lia).
      rewrite (IH input (pre ++ String backslash (String c "")) post
                 (push_back term c) fuel).
      * unfold push_back. rewrite string_app_assoc, string_length_app.
        cbn [escaped append String.length]. rewrite Hspecial.
        cbn [String.length]. f_equal. lia.
      * subst input. now rewrite string_app_assoc.
      * rewrite string_length_app. cbn [String.length]. lia.
    + cbn [append] in Hinput.
      apply Bool.orb_false_iff in Hspecial as [Hq Hb].
      assert (Hsize : String.length input
                      = String.length pre
                        + S (String.length (escaped str ++ String dquote post)))
        by (subst input; now rewrite string_length_app).
      destruct fuel as [|fuel]; [lia|]. cbn [ReadQuotedString_loop].
      replace (String.length pre <? String.length input) with true
        by (symmetry; apply Nat.ltb_lt; lia).
      assert (Hc0 : char_at input (String.length pre) = c)
        by (subst input; apply char_at_app_0).
      rewrite Hc0, Hq, Hb. cbn [andb].
      replace (String.length pre + 1)
        with (String.length (pre ++ String c "")) at 1
        by (rewrite string_length_app; reflexivity).
      rewrite (IH input (pre ++ String c "") post (push_back term c) fuel).
      * unfold push_back. rewrite string_app_assoc, string_length_app.
        cbn [escaped append String.length]. rewrite Hq, Hb.
        cbn [orb String.length]. f_equal. lia.
      * subst input. now rewrite string_app_assoc.
      * rewrite string_length_app. cbn [String.length]. lia.
Qed.

End Quoting.

Section QuotingRoundTrip.

#[local] Open Scope nat_scope.

Import mygramclient.

Lemma EscapeQueryString_quotes (str : string) :
  needs_quotes str = true ->
  EscapeQueryString str = String dquote (escaped str ++ String dquote "").
Proof.
  intros Hneeds. unfold EscapeQueryString. rewrite Hneeds. cbn [negb].
  rewrite escape_loop_escaped. unfold push_back. reflexivity.
Qed.

Lemma Next_at_end (input : string) :
  Next input (String.length input) = (mkToken kEnd "", String.length input).
Proof.
  unfold Next, SkipWhitespace. rewrite Nat.sub_diag. cbn [SkipWhitespace_loop].
  now rewrite Nat.leb_refl.
Qed.

Lemma Next_quoted (str : string) :
  let input := String dquote (escaped str ++ String dquote "") in
  Next input 0 = (mkToken kQuotedTerm str, String.length input).
Proof.
  intros input.
  assert (Hskip : SkipWhitespace input 0 = 0).
  { assert (Hfw : IsFullWidthSpace input 0 = false).
    { unfold IsFullWidthSpace.
      destruct (String.length input <=? 0 + 2); reflexivity. }
    assert (Hsp : isspace (byte_at input 0) = false) by reflexivity.
    unfold SkipWhitespace.
    destruct (String.length input - 0) as [|fuel]; cbn [SkipWhitespace_loop];
      [reflexivity|].
    rewrite Hfw, Hsp. destruct (0 <? String.length input); reflexivity. }
  unfold Next. rewrite Hskip.
  unfold ReadQuotedString.
  change (String.length input <=? 0) with false.
  change (char_at input 0) with dquote. rewrite Ascii.eqb_refl. cbn [orb negb].
  change (0 + 1) with (String.length (String dquote "")).
  rewrite (ReadQuotedString_loop_escaped str input (String dquote "") "" "").
  - f_equal. subst input. cbn [String.length]. rewrite string_length_app.
    cbn [String.length]. lia.
  - reflexivity.
  - cbn [String.length]. lia.
Qed.

End QuotingRoundTrip.

(** X21.  What [EscapeQueryString] quotes, the tokenizer of search
    expressions reads back: when the string needs quotes, its escaped
    form is one quoted-term token whose value is the string itself, up
    to the end of the input, and it parses as one required quoted
    term. *)
Theorem escaped_query_is_read_back (str : string) :
  mygramclient.needs_quotes str = true ->
  Next (mygramclient.EscapeQueryString str) 0
  = (mkToken kQuotedTerm str, String.length (mygramclient.EscapeQueryString str))
  /\ ParseSearchExpression (mygramclient.EscapeQueryString str)
     = Some (Value (mkSearchExpression [quoted str] [] [] "")).
Proof.
  intros Hneeds. rewrite (EscapeQueryString_quotes str Hneeds).
  pose proof (Next_quoted str) as Hnext. cbv zeta in Hnext.
  split; [exact Hnext|].
  set (input := String dquote (escaped str ++ String dquote "")) in *.
  unfold ParseSearchExpression. change (empty input) with false.
  unfold new_Parser. rewrite Advance_after.
  unfold after_Advance. cbn [tokenizer_pos]. rewrite Hnext. cbn [fst snd].
  unfold Parse, parse_fuel. rewrite Nat.add_comm. cbn [Nat.add Parse_loop].
  unfold bind at 1. unfold current at 1. cbn [current_ type].
  unfold bind at 1. rewrite LooksLikeOrExpression_restores.
  unfold next_token. cbn [tokenizer_pos current_]. rewrite Next_at_end.
  cbn [fst type TokenType_eqb].
  unfold bind at 1. rewrite Advance_after.
  unfold after_Advance. cbn [tokenizer_pos]. rewrite Next_at_end.
  unfold bind at 1. unfold current at 1. cbn [fst snd current_ type].
  reflexivity.
Qed.

Lemma escaped_query_is_read_back_witness :
  mygramclient.needs_quotes "a b\c" = true
  /\ Next (mygramclient.EscapeQueryString "a b\c") 0
     = (mkToken kQuotedTerm "a b\c", 8%nat).
Proof.
  assert (Hneeds : mygramclient.needs_quotes "a b\c" = true) by reflexivity.
  split; [exact Hneeds|].
  exact (proj1 (escaped_query_is_read_back "a b\c" Hneeds)).
Defined.

(** ** CIDR blocks *)

Section Cidr.

Import network_utils.

#[local] Open Scope N_scope.

Lemma testbit_above (ip i : N) : ip < 2 ^ 32 -> 32 <= i -> N.testbit ip i = false.
Proof.
  intros Hip Hi. destruct (N.eq_dec ip 0) as [-> | Hne]; [apply N.bits_0|].
  apply N.bits_above_log2. apply N.log2_lt_pow2; [lia|].
  apply N.lt_le_trans with (2 ^ 32); [exact Hip|].
  apply N.pow_le_mono_r; lia.
Qed.

(** Masking with the high bits clears the low ones. *)
Lemma land_high_mask (ip h : N) :
  ip < 2 ^ 32 -> h <= 32 ->
  N.land ip (N.lnot (N.ones h) 32) = ip / 2 ^ h * 2 ^ h.
Proof.
  intros Hip Hh.
  rewrite <- N.shiftr_div_pow2, <- N.shiftl_mul_pow2.
  apply N.bits_inj. intros i. rewrite N.land_spec.
  destruct (N.lt_ge_cases i h) as [Hlow | Hhigh].
  - rewrite N.shiftl_spec_low by exact Hlow.
    rewrite N.lnot_spec_low by lia. rewrite N.ones_spec_low by exact Hlow.
    apply Bool.andb_false_r.
  - rewrite N.shiftl_spec_high' by exact Hhigh. rewrite N.shiftr_spec'.
    replace (i - h + h) with i by lia.
    destruct (N.lt_ge_cases i 32) as [Hin | Hout].
    + rewrite N.lnot_spec_low by exact Hin.
      rewrite N.ones_spec_high by exact Hhigh. apply Bool.andb_true_r.
    + rewrite (testbit_above ip i Hip Hout). reflexivity.
Qed.

Lemma lnot_ones (h : N) : h <= 32 -> N.lnot (N.ones h) 32 = 2 ^ 32 - 2 ^ h.
Proof.
  intros Hh.
  assert (Hpow : 2 ^ h <= 2 ^ 32) by (apply N.pow_le_mono_r; lia).
  assert (Hpos : 0 < 2 ^ h) by (apply N.neq_0_lt_0, N.pow_nonzero; lia).
  destruct (N.eq_dec h 0) as [-> | Hne].
  - reflexivity.
  - pose proof (N.add_lnot_diag_low (N.ones h) 32) as Hadd.
    rewrite N.ones_equiv in *.
    assert (Hlog : N.log2 (N.pred (2 ^ h)) < 32).
    { destruct (N.eq_dec (N.pred (2 ^ h)) 0) as [-> | Hne0]; [reflexivity|].
      apply N.log2_lt_pow2; [lia|].
      apply N.lt_le_trans with (2 ^ h); [apply N.lt_pred_l; lia | exact Hpow]. }
    specialize (Hadd Hlog). change (N.ones 32) with 4294967295 in Hadd.
    change (2 ^ 32) with 4294967296 in *.
    remember (2 ^ h) as P. remember (N.lnot (N.pred P) 32) as m. lia.
Qed.

(** The mask that [CIDR::Parse] computes for a prefix length. *)
Lemma netmask_of_prefix (prefix_length : Z) :
  (0 < prefix_length <= 32)%Z ->
  not32 (sub32 (shl32 1 (kIPv4BitCount - prefix_length)) 1)
  = N.lnot (N.ones (Z.to_N (32 - prefix_length))) 32.
Proof.
  intros Hp. unfold not32, sub32, shl32, kIPv4BitCount, kUint32Modulus.
  set (h := Z.to_N (32 - prefix_length)).
  assert (Hh : h < 32) by lia.
  assert (Hpow : 2 ^ h < 2 ^ 32) by (apply N.pow_lt_mono_r; lia).
  assert (Hpos : 0 < 2 ^ h) by (apply N.neq_0_lt_0, N.pow_nonzero; lia).
  rewrite N.shiftl_1_l. rewrite (N.mod_small (2 ^ h)) by exact Hpow.
  f_equal. rewrite N.ones_equiv.
  change (2 ^ 32) with 4294967296 in *.
  replace (2 ^ h + 4294967296 - 1) with (N.pred (2 ^ h) + 1 * 4294967296) by lia.
  rewrite N.Div0.mod_add. apply N.mod_small. lia.
Qed.

Lemma block_range (ip base P : N) :
  0 < P -> (ip / P * P = base / P * P <-> base / P * P <= ip < base / P * P + P).
Proof.
  intros HP.
  pose proof (N.div_mod ip P ltac:(lia)) as Hip.
  pose proof (N.mod_lt ip P ltac:(lia)) as Hr.
  set (q := ip / P) in *. set (r := ip mod P) in *. set (n := base / P).
  split.
  - intros Heq. rewrite <- Heq. lia.
  - intros [Hlo Hhi].
    assert (Hq : q = n); [|now rewrite Hq].
    destruct (N.lt_trichotomy q n) as [Hlt | [Heq | Hgt]]; [|exact Heq|].
    + assert (P * (q + 1) <= P * n) by (apply N.mul_le_mono_l; lia). lia.
    + assert (P * (n + 1) <= P * q) by (apply N.mul_le_mono_l; lia). lia.
Qed.

Lemma contains_any_spec (client_ip : N) (cidrs : list CIDR) :
  contains_any client_ip cidrs = true
  <-> exists cidr, In cidr cidrs /\ CIDR_Contains cidr client_ip = true.
Proof.
  induction cidrs as [|cidr rest IH]; cbn [contains_any In].
  - split; [discriminate | intros (c & [] & _)].
  - destruct (CIDR_Contains cidr client_ip) eqn:Hc.
    + split; [intros _; exists cidr; tauto | reflexivity].
    + rewrite IH. split.
      * intros (c & Hin & Hcc). exists c. tauto.
      * intros (c & [<- | Hin] & Hcc); [congruence | exists c; tauto].
Qed.

Variable inet_pton : string -> option N.
Variable ntohl : N -> N.
Variable stoi : string -> option Z.

Lemma ParseIPv4_range (ip_str : string) (ip : N) :
  ParseIPv4 inet_pton ntohl ip_str = Some ip -> ip < 2 ^ 32.
Proof.
  unfold ParseIPv4. destruct (inet_pton ip_str) as [s_addr|]; [|discriminate].
  intros [= <-]. apply N.mod_lt. discriminate.
Qed.

(** What [CIDR::Parse] returns, from its parts. *)
Lemma CIDR_Parse_parts (cidr_str : string) (cidr : CIDR) :
  CIDR_Parse inet_pton ntohl stoi cidr_str = Some cidr ->
  exists slash_pos ip,
    find cidr_str "/" = Some slash_pos
    /\ ParseIPv4 inet_pton ntohl (String.substring 0 slash_pos cidr_str) = Some ip
    /\ stoi (String.substring (slash_pos + 1)
               (String.length cidr_str - (slash_pos + 1)) cidr_str)
       = Some (prefix_length cidr)
    /\ (0 <= prefix_length cidr <= 32)%Z
    /\ netmask cidr = N.lnot (N.ones (host_bits cidr)) 32
    /\ network cidr = N.land ip (netmask cidr).
Proof.
  unfold CIDR_Parse.
  destruct (find cidr_str "/") as [slash_pos|]; [|discriminate].
  destruct (ParseIPv4 inet_pton ntohl _) as [ip|] eqn:Hip; [|discriminate].
  destruct (stoi _) as [p|] eqn:Hstoi; [|discriminate].
  destruct (Z.ltb_spec p 0) as [Hneg | Hnonneg]; [discriminate|].
  destruct (Z.ltb_spec kIPv4BitCount p) as [Hbig | Hsmall]; [discriminate|].
  unfold kIPv4BitCount in Hsmall. cbn [orb].
  intros [= <-]. exists slash_pos, ip. unfold host_bits.
  cbn [prefix_length netmask network].
  repeat (split; [first [reflexivity | assumption | lia]|]).
  split; [|reflexivity].
  destruct (Z.ltb_spec 0 p) as [Hpos | Hzero].
  - apply netmask_of_prefix. lia.
  - replace p with 0%Z by lia. reflexivity.
Qed.

Lemma matches_any_parsed (client_ip : N) (allow_cidrs : list string) :
  matches_any inet_pton ntohl stoi client_ip allow_cidrs
  = contains_any client_ip
      (parsed_cidrs (CIDR_Parse inet_pton ntohl stoi) allow_cidrs).
Proof.
  induction allow_cidrs as [|cidr_str rest IH]; [reflexivity|].
  cbn [matches_any parsed_cidrs].
  destruct (CIDR_Parse inet_pton ntohl stoi cidr_str) as [cidr|]; [|exact IH].
  cbn [contains_any]. now rewrite IH.
Qed.

Lemma In_parsed_cidrs (cidr : CIDR) (allow_cidrs : list string) :
  In cidr (parsed_cidrs (CIDR_Parse inet_pton ntohl stoi) allow_cidrs)
  <-> exists cidr_str,
        In cidr_str allow_cidrs
        /\ CIDR_Parse inet_pton ntohl stoi cidr_str = Some cidr.
Proof.
  induction allow_cidrs as [|s rest IH]; cbn [parsed_cidrs In].
  - split; [intros [] | intros (c & [] & _)].
  - destruct (CIDR_Parse inet_pton ntohl stoi s) as [c|] eqn:Hs; cbn [In];
      rewrite IH; split.
    + intros [<- | (s' & Hin & Hp)]; [exists s; tauto | exists s'; tauto].
    + intros (s' & [<- | Hin] & Hp); [left; congruence | right; exists s'; tauto].
    + intros (s' & Hin & Hp). exists s'. tauto.
    + intros (s' & [<- | Hin] & Hp); [congruence | exists s'; tauto].
Qed.

End Cidr.

(** X22.  A block that [CIDR::Parse] returns has a prefix length from 0
    to 32; its mask has that many leading one bits; its network address
    has no host bit set; the block is an interval of the 32-bit
    addresses, and [Contains] holds exactly for the addresses of this
    interval, among them the address written in the string. *)
Theorem CIDR_Parse_block (inet_pton : string -> option N) (ntohl : N -> N)
    (stoi : string -> option Z) (cidr_str : string) (cidr : network_utils.CIDR) :
  network_utils.CIDR_Parse inet_pton ntohl stoi cidr_str = Some cidr ->
  (0 <= network_utils.prefix_length cidr <= 32)%Z
  /\ (network_utils.netmask cidr = 2 ^ 32 - 2 ^ host_bits cidr)%N
  /\ (network_utils.network cidr mod 2 ^ host_bits cidr = 0)%N
  /\ (network_utils.network cidr + 2 ^ host_bits cidr <= 2 ^ 32)%N
  /\ (forall ip_addr, (ip_addr < 2 ^ 32)%N ->
      network_utils.CIDR_Contains cidr ip_addr = true
      <-> (network_utils.network cidr <= ip_addr
           < network_utils.network cidr + 2 ^ host_bits cidr)%N)
  /\ (exists slash_pos ip,
        network_utils.find cidr_str "/" = Some slash_pos
        /\ network_utils.ParseIPv4 inet_pton ntohl
             (String.substring 0 slash_pos cidr_str) = Some ip
        /\ network_utils.CIDR_Contains cidr ip = true).
Proof.
  intros Hparse.
  destruct (CIDR_Parse_parts _ _ _ _ _ Hparse)
    as (slash_pos & ip & Hfind & Hip & _ & Hprefix & Hmask & Hnet).
  pose proof (ParseIPv4_range _ _ _ _ Hip) as Hrange.
  set (h := host_bits cidr) in *.
  assert (Hh : (h <= 32)%N) by (unfold h, host_bits; lia).
  assert (HP : (0 < 2 ^ h)%N) by (apply N.neq_0_lt_0, N.pow_nonzero; lia).
  assert (Hnetwork : network_utils.network cidr = (ip / 2 ^ h * 2 ^ h)%N).
  { rewrite Hnet, Hmask. apply land_high_mask; assumption. }
  split; [exact Hprefix|].
  split; [rewrite Hmask; apply lnot_ones, Hh|].
  split; [rewrite Hnetwork; apply N.Div0.mod_mul|].
  split.
  { rewrite Hnetwork.
    assert (Hsplit : (2 ^ 32 = 2 ^ (32 - h) * 2 ^ h)%N).
    { rewrite <- N.pow_add_r. f_equal. lia. }
    assert (Hq : (ip / 2 ^ h < 2 ^ (32 - h))%N).
    { apply N.Div0.div_lt_upper_bound. rewrite N.mul_comm, <- Hsplit.
      exact Hrange. }
    rewrite Hsplit.
    replace (ip / 2 ^ h * 2 ^ h + 2 ^ h)%N with ((ip / 2 ^ h + 1) * 2 ^ h)%N by lia.
    apply N.mul_le_mono_r. lia. }
  split.
  { intros ip_addr Hip_addr. unfold network_utils.CIDR_Contains.
    rewrite N.eqb_eq, Hmask, land_high_mask by assumption.
    rewrite Hnetwork. apply block_range, HP. }
  exists slash_pos, ip. split; [exact Hfind|]. split; [exact Hip|].
  unfold network_utils.CIDR_Contains. rewrite Hnet. apply N.eqb_refl.
Qed.

Lemma CIDR_Parse_block_witness :
  network_utils.CIDR_Parse inet_pton_one ntohl_le stoi_one "192.168.1.7/24"
  = Some (network_utils.mkCIDR 0xC0A80100 0xFFFFFF00 24)
  /\ (0xFFFFFF00 = 2 ^ 32 - 2 ^ 8)%N.
Proof.
  assert (Hparse :
    network_utils.CIDR_Parse inet_pton_one ntohl_le stoi_one "192.168.1.7/24"
    = Some (network_utils.mkCIDR 0xC0A80100 0xFFFFFF00 24))
    by (vm_compute; reflexivity).
  split; [exact Hparse|].
  exact (proj1 (proj2 (CIDR_Parse_block _ _ _ _ _ Hparse))).
Defined.

(** X23.  [IsIPAllowed] allows an address exactly when [ParseIPv4]
    accepts it and some entry of the list that [CIDR::Parse] accepts
    contains it: the empty list allows nothing, entries that do not
    parse are skipped, a longer list allows no less, and the overload on
    strings agrees with the overload on parsed blocks. *)
Theorem IsIPAllowed_fail_closed (inet_pton : string -> option N) (ntohl : N -> N)
    (stoi : string -> option Z) (ip_str : string) (allow_cidrs : list string) :
  (network_utils.IsIPAllowed inet_pton ntohl stoi ip_str allow_cidrs = true
   <-> exists client_ip cidr_str cidr,
         network_utils.ParseIPv4 inet_pton ntohl ip_str = Some client_ip
         /\ In cidr_str allow_cidrs
         /\ network_utils.CIDR_Parse inet_pton ntohl stoi cidr_str = Some cidr
         /\ network_utils.CIDR_Contains cidr client_ip = true)
  /\ network_utils.IsIPAllowed inet_pton ntohl stoi ip_str [] = false
  /\ network_utils.IsIPAllowed inet_pton ntohl stoi ip_str allow_cidrs
     = network_utils.IsIPAllowed_parsed inet_pton ntohl ip_str
         (parsed_cidrs (network_utils.CIDR_Parse inet_pton ntohl stoi) allow_cidrs)
  /\ (forall more,
        network_utils.IsIPAllowed inet_pton ntohl stoi ip_str allow_cidrs = true ->
        network_utils.IsIPAllowed inet_pton ntohl stoi ip_str (more ++ allow_cidrs)
        = true).
Proof.
  assert (Hspec : forall l,
    network_utils.IsIPAllowed inet_pton ntohl stoi ip_str l = true
    <-> exists client_ip cidr_str cidr,
          network_utils.ParseIPv4 inet_pton ntohl ip_str = Some client_ip
          /\ In cidr_str l
          /\ network_utils.CIDR_Parse inet_pton ntohl stoi cidr_str = Some cidr
          /\ network_utils.CIDR_Contains cidr client_ip = true).
  { intros l. unfold network_utils.IsIPAllowed.
    destruct l as [|s rest].
    { split; [discriminate | intros (? & ? & ? & _ & [] & _)]. }
    destruct (network_utils.ParseIPv4 inet_pton ntohl ip_str) as [client_ip|].
    - rewrite matches_any_parsed, contains_any_spec. split.
      + intros (cidr & Hin & Hc).
        apply (In_parsed_cidrs inet_pton ntohl stoi) in Hin.
        destruct Hin as (cidr_str & Hin & Hp).
        exists client_ip, cidr_str, cidr. tauto.
      + intros (ip' & cidr_str & cidr & [= <-] & Hin & Hp & Hc).
        exists cidr. split; [|exact Hc].
        apply (In_parsed_cidrs inet_pton ntohl stoi). exists cidr_str. tauto.
    - split; [discriminate | intros (? & ? & ? & [=] & _)]. }
  split; [apply Hspec|]. split; [reflexivity|]. split.
  - unfold network_utils.IsIPAllowed, network_utils.IsIPAllowed_parsed.
    destruct allow_cidrs as [|s rest]; [reflexivity|].
    destruct (network_utils.ParseIPv4 inet_pton ntohl ip_str) as [client_ip|].
    + rewrite matches_any_parsed.
      destruct (parsed_cidrs _ (s :: rest)); reflexivity.
    + destruct (parsed_cidrs _ (s :: rest)); reflexivity.
  - intros more Hallowed. apply Hspec. apply Hspec in Hallowed.
    destruct Hallowed as (ip & s & c & Hip & Hin & Hrest).
    exists ip, s, c. split; [exact Hip|]. split; [|exact Hrest].
    apply in_or_app. right. exact Hin.
Qed.

(** ** Lists of words *)

Section Words.

#[local] Open Scope nat_scope.

Lemma byte_at_app_r (a b : string) (i : nat) :
  byte_at (a ++ b) (String.length a + i) = byte_at b i.
Proof.
  unfold byte_at. induction a as [|c a IH]; [reflexivity|].
  cbn [append String.length Nat.add String.get]. exact IH.
Qed.

Lemma IsFullWidthSpace_app (pre s : string) (i : nat) :
  IsFullWidthSpace (pre ++ s) (String.length pre + i) = IsFullWidthSpace s i.
Proof.
  unfold IsFullWidthSpace. rewrite string_length_app.
  rewrite <- !Nat.add_assoc, !byte_at_app_r.
  destruct (Nat.leb_spec (String.length s) (i + 2));
    destruct (Nat.leb_spec (String.length pre + String.length s)
                (String.length pre + (i + 2))); try lia; reflexivity.
Qed.

(** The characters that end a term are no bytes of a full-width space. *)
Lemma stop_byte (c : ascii) :
  is_term_stop c = true -> (N_of_ascii c =? 0x80)%N = false.
Proof.
  unfold is_term_stop, isspace. intros H. apply N.eqb_neq. intros Hbyte.
  rewrite Hbyte in H. cbn [N.eqb N.leb N.compare Pos.compare Pos.compare_cont
                           Pos.eqb andb orb] in H.
  repeat (apply Bool.orb_true_iff in H; destruct H as [H | H]);
    try discriminate;
    apply Ascii.eqb_eq in H; subst c; discriminate.
Qed.

Lemma IsFullWidthSpace_word (c : ascii) (w rest : string) :
  IsFullWidthSpace (String c w) 0 = false ->
  ends_word rest ->
  IsFullWidthSpace (String c w ++ rest) 0 = false.
Proof.
  intros Hword Hrest.
  destruct w as [|d [|e w]].
  - destruct Hrest as [-> | (s & rest' & -> & Hs)]; [reflexivity|].
    unfold IsFullWidthSpace. cbn [append].
    destruct (_ <=? _); [reflexivity|].
    change (byte_at (String c (String s rest')) (0 + 1)) with (N_of_ascii s).
    unfold kFullWidthSpaceByte2. rewrite (stop_byte s Hs).
    now rewrite Bool.andb_false_r.
  - destruct Hrest as [-> | (s & rest' & -> & Hs)]; [reflexivity|].
    unfold IsFullWidthSpace. cbn [append].
    destruct (_ <=? _); [reflexivity|].
    change (byte_at (String c (String d (String s rest'))) (0 + 2))
      with (N_of_ascii s).
    unfold kFullWidthSpaceByte3. rewrite (stop_byte s Hs).
    apply Bool.andb_false_r.
  - exact Hword.
Qed.

Lemma free_of_full_width_space_head (c : ascii) (w : string) :
  free_of_full_width_space (String c w) = true ->
  IsFullWidthSpace (String c w) 0 = false /\ free_of_full_width_space w = true.
Proof.
  cbn [free_of_full_width_space]. intros H.
  apply Bool.andb_true_iff in H as [Hhead Htail].
  split; [now apply Bool.negb_true_iff in Hhead | exact Htail].
Qed.

(** [ReadTerm] reads a word up to its end. *)
Lemma ReadTerm_loop_word : forall w input pre rest term fuel,
  input = pre ++ w ++ rest ->
  forallb (fun c => negb (is_term_stop c)) (chars w) = true ->
  free_of_full_width_space w = true ->
  ends_word rest ->
  String.length input - String.length pre <= fuel ->
  ReadTerm_loop input fuel term (String.length pre)
  = (term ++ w, String.length pre + String.length w).
Proof.
  induction w as [|c w IH]; intros input pre rest term fuel Hinput Hchars Hfree
    Hrest Hfuel.
  - cbn [append] in Hinput. cbn [String.length].
    rewrite string_app_empty_r, Nat.add_0_r.
    destruct fuel as [|fuel]; [reflexivity|]. cbn [ReadTerm_loop].
    destruct (Nat.ltb_spec (String.length pre) (String.length input));
      [|reflexivity].
    destruct Hrest as [-> | (s & rest' & -> & Hs)].
    { rewrite string_app_empty_r in Hinput. subst input. lia. }
    destruct (IsFullWidthSpace input (String.length pre)); [reflexivity|].
    subst input. rewrite char_at_app_0, Hs. reflexivity.
  - apply free_of_full_width_space_head in Hfree as [Hhead Hfree].
    unfold chars in Hchars. cbn [list_ascii_of_string forallb] in Hchars.
    apply Bool.andb_true_iff in Hchars as [Hc Hchars].
    apply Bool.negb_true_iff in Hc.
    assert (Hsize : String.length input
                    = String.length pre + S (String.length (w ++ rest)))
      by (subst input; now rewrite string_length_app).
    destruct fuel as [|fuel]; [lia|]. cbn [ReadTerm_loop].
    replace (String.length pre <? String.length input) with true
      by (symmetry; apply Nat.ltb_lt; lia).
    assert (Hfw : IsFullWidthSpace input (String.length pre) = false).
    { subst input. rewrite <- (Nat.add_0_r (String.length pre)).
      rewrite IsFullWidthSpace_app.
      apply (IsFullWidthSpace_word c w rest Hhead Hrest). }
    assert (Hchar : char_at input (String.length pre) = c)
      by (subst input; apply char_at_app_0).
    rewrite Hfw, Hchar, Hc.
    replace (String.length pre + 1) with (String.length (pre ++ String c ""))
      by (rewrite string_length_app; reflexivity).
    rewrite (IH input (pre ++ String c "") rest (push_back term c) fuel);
      try assumption.
    + unfold push_back. rewrite string_app_assoc, string_length_app.
      cbn [append String.length]. f_equal. lia.
    + subst input. now rewrite string_app_assoc.
    + rewrite string_length_app. cbn [String.length]. lia.
Qed.

End Words.

Section WordTokens.

#[local] Open Scope nat_scope.

Lemma substring_app_r (pre s : string) (i n : nat) :
  String.substring (String.length pre + i) n (pre ++ s) = String.substring i n s.
Proof. induction pre as [|c pre IH]; [reflexivity | exact IH]. Qed.

Lemma is_term_stop_parts (c : ascii) :
  is_term_stop c = false ->
  isspace (N_of_ascii c) = false
  /\ (c =? "+")%char = false /\ (c =? "-")%char = false
  /\ (c =? "(")%char = false /\ (c =? ")")%char = false
  /\ (c =? dquote)%char = false.
Proof.
  unfold is_term_stop. intros H.
  do 5 (apply Bool.orb_false_iff in H; destruct H as [H ?]).
  repeat split; assumption.
Qed.

Lemma SkipWhitespace_word (input pre : string) (c : ascii) (w rest : string) :
  input = pre ++ String c w ++ rest ->
  is_term_stop c = false ->
  IsFullWidthSpace (String c w) 0 = false ->
  ends_word rest ->
  SkipWhitespace input (String.length pre) = String.length pre.
Proof.
  intros Hinput Hc Hfw Hrest. unfold SkipWhitespace.
  destruct (String.length input - String.length pre) as [|fuel];
    [reflexivity|].
  cbn [SkipWhitespace_loop].
  destruct (Nat.ltb_spec (String.length pre) (String.length input)) as [Hin|];
    [|reflexivity].
  rewrite (byte_at_char_at input _ Hin).
  subst input. rewrite <- (Nat.add_0_r (String.length pre)) at 1.
  rewrite IsFullWidthSpace_app.
  rewrite (IsFullWidthSpace_word c w rest Hfw Hrest).
  cbn [append]. rewrite char_at_app_0.
  now rewrite (proj1 (is_term_stop_parts c Hc)).
Qed.

Lemma SkipWhitespace_space (input pre tail : string) :
  input = pre ++ String " " tail ->
  SkipWhitespace input (String.length pre)
  = SkipWhitespace input (String.length pre + 1).
Proof.
  intros Hinput. unfold SkipWhitespace.
  assert (Hsize : String.length input = String.length pre + S (String.length tail))
    by (subst input; now rewrite string_length_app).
  replace (String.length input - String.length pre)
    with (S (String.length input - (String.length pre + 1))) by lia.
  cbn [SkipWhitespace_loop].
  replace (String.length pre <? String.length input) with true
    by (symmetry; apply Nat.ltb_lt; lia).
  assert (Hin : String.length pre < String.length input) by lia.
  rewrite (byte_at_char_at input _ Hin).
  assert (Hfw : IsFullWidthSpace input (String.length pre) = false).
  { subst input. rewrite <- (Nat.add_0_r (String.length pre)).
    rewrite IsFullWidthSpace_app. unfold IsFullWidthSpace.
    destruct (_ <=? _); reflexivity. }
  rewrite Hfw. subst input. rewrite char_at_app_0. reflexivity.
Qed.

(** The test for the operator [OR] fails at a bare word. *)
Lemma or_test_word (input pre w rest : string) :
  input = pre ++ w ++ rest ->
  is_or_like w = false ->
  w <> "" ->
  ends_word rest ->
  (String.substring (String.length pre) 2 input =? "OR")%string
  && negb ((String.length pre + 2 <? String.length input)
           && isalnum (byte_at input (String.length pre + 2)))
  = false.
Proof.
  intros Hinput Hor Hne Hrest. subst input.
  rewrite <- (Nat.add_0_r (String.length pre)) at 1.
  rewrite substring_app_r, byte_at_app_r, string_length_app.
  destruct w as [|c [|d w]]; [congruence| |].
  - destruct Hrest as [-> | (s & rest' & -> & Hs)];
      cbn [append String.substring]; rewrite ?substring_0;
      match goal with
      | |- context [String.eqb ?a ?b] =>
          destruct (String.eqb_spec a b) as [Heq | Hneq]
      end; try reflexivity; try discriminate.
    injection Heq as -> ->. discriminate Hs.
  - cbn [append String.substring]. rewrite substring_0.
    destruct (String.eqb_spec (String c (String d "")) "OR") as [Heq | Hneq];
      [|reflexivity].
    injection Heq as -> ->. cbn [is_or_like] in Hor.
    destruct w as [|e w]; [discriminate|].
    apply Bool.negb_false_iff in Hor. cbn [andb].
    replace (String.length pre + 2
             <? String.length pre
                + String.length (String "O" (String "R" (String e w ++ rest))))
      with true
      by (symmetry; apply Nat.ltb_lt; cbn [String.length append]; lia).
    change (byte_at (String "O" (String "R" (String e w ++ rest))) 2)
      with (N_of_ascii e).
    now rewrite Hor.
Qed.

(** The tokenizer reads a bare word as one term. *)
Lemma Next_word (input pre w rest : string) :
  input = pre ++ w ++ rest ->
  is_bare_word w = true ->
  ends_word rest ->
  Next input (String.length pre)
  = (mkToken kTerm w, String.length pre + String.length w).
Proof.
  intros Hinput Hword Hrest. unfold is_bare_word in Hword.
  apply Bool.andb_true_iff in Hword as [Hword Hor].
  apply Bool.andb_true_iff in Hword as [Hword Hfree].
  apply Bool.andb_true_iff in Hword as [Hne Hchars].
  apply Bool.negb_true_iff in Hor.
  destruct w as [|c w]; [discriminate|].
  pose proof Hchars as Hchars'.
  unfold chars in Hchars'. cbn [list_ascii_of_string forallb] in Hchars'.
  apply Bool.andb_true_iff in Hchars' as [Hc _].
  apply Bool.negb_true_iff in Hc.
  destruct (free_of_full_width_space_head c w Hfree) as [Hfw _].
  destruct (is_term_stop_parts c Hc) as (_ & Hplus & Hminus & Hl & Hr & Hq).
  assert (Hsize : String.length input
                  = String.length pre + S (String.length (w ++ rest)))
    by (subst input; now rewrite string_length_app).
  assert (Hchar : char_at input (String.length pre) = c)
    by (subst input; apply char_at_app_0).
  pose proof (or_test_word input pre (String c w) rest Hinput Hor
                ltac:(discriminate) Hrest) as Htest.
  unfold Next.
  rewrite (SkipWhitespace_word input pre c w rest Hinput Hc Hfw Hrest).
  replace (String.length input <=? String.length pre) with false
    by (symmetry; apply Nat.leb_gt; lia).
  rewrite Hchar, Hq, Hplus, Hminus, Hl, Hr. cbv zeta.
  match goal with
  | |- (if ?a && ?b && (?p && ?q) then _ else _) = _ =>
      replace (a && b && (p && q)) with false
  end.
  - unfold ReadTerm.
    rewrite (ReadTerm_loop_word (String c w) input pre rest ""
               (String.length input - String.length pre)
               Hinput Hchars Hfree Hrest (Nat.le_refl _)).
    reflexivity.
  - symmetry.
    match goal with
    | |- ?a && ?b && (?p && ?q) = false =>
        destruct a; [|reflexivity]; destruct p; cbn [andb negb];
        [|now rewrite Bool.andb_false_r]
    end.
    cbn [andb negb] in Htest. exact Htest.
Qed.

End WordTokens.

Section Items.

#[local] Open Scope nat_scope.

Lemma concat_spaced : forall items it,
  String.concat " " (map render (it :: items)) = render it ++ spaced items.
Proof.
  induction items as [|it' items IH]; intros it.
  - cbn. now rewrite string_app_empty_r.
  - change (String.concat " " (map render (it :: it' :: items)))
      with (render it ++ " " ++ String.concat " " (map render (it' :: items))).
    now rewrite IH.
Qed.

Lemma ends_word_spaced (items : list Item) : ends_word (spaced items).
Proof.
  destruct items as [|it items]; [now left|].
  right. cbn [spaced append]. do 2 eexists. split; reflexivity.
Qed.

Lemma spaced_length (items : list Item) :
  List.length items <= String.length (spaced items).
Proof.
  induction items as [|it items IH]; [apply Nat.le_refl|].
  cbn [spaced append List.length String.length].
  rewrite string_length_app. lia.
Qed.

Lemma Next_space (input pre tail : string) :
  input = pre ++ String " " tail ->
  Next input (String.length pre) = Next input (String.length pre + 1).
Proof.
  intros Hinput. unfold Next.
  now rewrite (SkipWhitespace_space input pre tail Hinput).
Qed.

(** The tokenizer at a sign. *)
Lemma Next_sign (input pre : string) (c : ascii) (tail : string) :
  input = pre ++ String c tail ->
  c = "+"%char \/ c = "-"%char ->
  Next input (String.length pre)
  = (mkToken (if (c =? "+")%char then kPlus else kMinus) "",
     String.length pre + 1).
Proof.
  intros Hinput Hc.
  assert (Hsize : String.length input = String.length pre + S (String.length tail))
    by (subst input; now rewrite string_length_app).
  assert (Hin : String.length pre < String.length input) by lia.
  assert (Hchar : char_at input (String.length pre) = c)
    by (subst input; apply char_at_app_0).
  assert (Hfw : IsFullWidthSpace input (String.length pre) = false).
  { subst input. rewrite <- (Nat.add_0_r (String.length pre)).
    rewrite IsFullWidthSpace_app. unfold IsFullWidthSpace.
    destruct (_ <=? _); [reflexivity|]. destruct Hc as [-> | ->]; reflexivity. }
  assert (Hskip : SkipWhitespace input (String.length pre) = String.length pre).
  { unfold SkipWhitespace.
    destruct (String.length input - String.length pre) as [|fuel];
      [reflexivity|].
    cbn [SkipWhitespace_loop]. rewrite Hfw, (byte_at_char_at input _ Hin), Hchar.
    destruct (_ <? _); [|reflexivity]. destruct Hc as [-> | ->]; reflexivity. }
  unfold Next. rewrite Hskip, Hchar.
  replace (String.length input <=? String.length pre) with false
    by (symmetry; apply Nat.leb_gt; lia).
  destruct Hc as [-> | ->]; reflexivity.
Qed.

(** The tokenizer at an item. *)
Lemma Next_item (input pre : string) (it : Item) (more : string) :
  input = pre ++ render it ++ more ->
  is_bare_word (item_word it) = true ->
  ends_word more ->
  Next input (String.length pre)
  = (fst (first_token it), String.length pre + snd (first_token it)).
Proof.
  intros Hinput Hword Hmore. destruct it as [w | w | w]; cbn [render] in Hinput.
  - apply (Next_word input pre w more Hinput Hword Hmore).
  - apply (Next_sign input pre "+" (w ++ more) Hinput). now left.
  - apply (Next_sign input pre "-" (w ++ more) Hinput). now right.
Qed.

(** The token behind an item is no operator. *)
Lemma Next_behind_item (input pre : string) (items : list Item) :
  input = pre ++ spaced items ->
  Forall (fun it => is_bare_word (item_word it) = true) items ->
  TokenType_eqb (type (fst (Next input (String.length pre)))) kOr = false.
Proof.
  intros Hinput Hall. destruct items as [|it items].
  - cbn [spaced] in Hinput. rewrite string_app_empty_r in Hinput. subst pre.
    now rewrite Next_at_end.
  - inversion Hall as [|? ? Hit Hitems]; subst. cbn [spaced append].
    rewrite (Next_space _ pre (render it ++ spaced items) eq_refl).
    replace (String.length pre + 1) with (String.length (pre ++ String " " ""))
      by (rewrite string_length_app; reflexivity).
    rewrite (Next_item _ (pre ++ String " " "") it (spaced items));
      [|now rewrite string_app_assoc | exact Hit | apply ends_word_spaced].
    destruct it; reflexivity.
Qed.

Variable input : string.

Lemma Parse_loop_minus_term (fuel : nat) (expr : SearchExpression) (p : Parser) :
  type (current_ p) = kMinus ->
  type (next_token input p) = kTerm ->
  Parse_loop input (S fuel) expr p
  = Parse_loop input fuel (push_excluded expr (value (next_token input p)))
      (after_Advance input (after_Advance input p)).
Proof.
  intros Hminus Hnext. cbn [Parse_loop]. unfold bind at 1. unfold current at 1.
  rewrite Hminus. unfold bind at 1. rewrite Advance_after.
  unfold bind at 1. unfold ParsePrefixedTerm, bind at 1. unfold current at 1.
  change (current_ (after_Advance input p)) with (next_token input p).
  rewrite Hnext. unfold bind at 1. rewrite Advance_after. reflexivity.
Qed.

(** One iteration of the loop of [Parse] at an item. *)
Lemma Parse_loop_item (pre : string) (it : Item) (items : list Item)
    (fuel : nat) (expr : SearchExpression) (p : Parser) :
  input = pre ++ render it ++ spaced items ->
  is_bare_word (item_word it) = true ->
  Forall (fun it => is_bare_word (item_word it) = true) items ->
  current_ p = fst (first_token it) ->
  tokenizer_pos p = String.length pre + snd (first_token it) ->
  exists p',
    Parse_loop input (S fuel) expr p = Parse_loop input fuel (add_item expr it) p'
    /\ current_ p' = fst (Next input (String.length (pre ++ render it)))
    /\ tokenizer_pos p' = snd (Next input (String.length (pre ++ render it))).
Proof.
  intros Hinput Hit Hitems Hcur Hpos.
  destruct it as [w | w | w]; cbn [render first_token fst snd item_word add_item] in *.
  - exists (after_Advance input p).
    assert (Hend : tokenizer_pos p = String.length (pre ++ w))
      by (rewrite string_length_app; exact Hpos).
    split; [|unfold after_Advance; cbn [current_ tokenizer_pos];
             rewrite Hend; split; reflexivity].
    rewrite Parse_loop_bare_term; [now rewrite Hcur | now rewrite Hcur|].
    unfold next_token. rewrite Hend.
    apply (Next_behind_item input (pre ++ w) items);
      [now rewrite string_app_assoc | exact Hitems].
  - assert (Hsign : tokenizer_pos p = String.length (pre ++ String "+" ""))
      by (rewrite string_length_app; exact Hpos).
    assert (Hnext : Next input (tokenizer_pos p)
                    = (mkToken kTerm w, String.length (pre ++ "+" ++ w))).
    { rewrite Hsign.
      rewrite (Next_word input (pre ++ String "+" "") w (spaced items));
        [|rewrite Hinput; now rewrite !string_app_assoc | exact Hit
         |apply ends_word_spaced].
      rewrite !string_length_app. cbn [String.length]. f_equal. lia. }
    exists (after_Advance input (after_Advance input p)).
    split; [|unfold after_Advance; cbn [current_ tokenizer_pos];
             rewrite Hnext; split; reflexivity].
    rewrite Parse_loop_plus_term;
      [|now rewrite Hcur | unfold next_token; now rewrite Hnext].
    unfold next_token. now rewrite Hnext.
  - assert (Hsign : tokenizer_pos p = String.length (pre ++ String "-" ""))
      by (rewrite string_length_app; exact Hpos).
    assert (Hnext : Next input (tokenizer_pos p)
                    = (mkToken kTerm w, String.length (pre ++ "-" ++ w))).
    { rewrite Hsign.
      rewrite (Next_word input (pre ++ String "-" "") w (spaced items));
        [|rewrite Hinput; now rewrite !string_app_assoc | exact Hit
         |apply ends_word_spaced].
      rewrite !string_length_app. cbn [String.length]. f_equal. lia. }
    exists (after_Advance input (after_Advance input p)).
    split; [|unfold after_Advance; cbn [current_ tokenizer_pos];
             rewrite Hnext; split; reflexivity].
    rewrite Parse_loop_minus_term;
      [|now rewrite Hcur | unfold next_token; now rewrite Hnext].
    unfold next_token. now rewrite Hnext.
Qed.

End Items.

Section FlatQueries.

#[local] Open Scope nat_scope.

Lemma fold_add_item : forall items expr,
  fold_left add_item items expr
  = mkSearchExpression (required_terms expr ++ required_of items)
      (excluded_terms expr ++ excluded_of items)
      (optional_terms expr) (raw_expression expr).
Proof.
  induction items as [|it items IH]; intros expr.
  - cbn [fold_left required_of excluded_of flat_map]. rewrite !app_nil_r.
    now destruct expr.
  - cbn [fold_left]. rewrite IH.
    destruct it; cbn [add_item push_required push_excluded required_terms
                      excluded_terms optional_terms raw_expression
                      required_of excluded_of flat_map app];
      rewrite <- ?app_assoc; reflexivity.
Qed.

(** From the token of an item on, the loop of [Parse] collects the
    items. *)
Lemma Parse_loop_items : forall items input pre expr p fuel,
  input = pre ++ spaced items ->
  Forall (fun it => is_bare_word (item_word it) = true) items ->
  current_ p = fst (Next input (String.length pre)) ->
  tokenizer_pos p = snd (Next input (String.length pre)) ->
  List.length items + 1 <= fuel ->
  exists p',
    Parse_loop input fuel expr p = Some (Value (fold_left add_item items expr), p').
Proof.
  induction items as [|it items IH];
    intros input pre expr p fuel Hinput Hall Hcur Hpos Hfuel.
  - cbn [spaced] in Hinput. rewrite string_app_empty_r in Hinput. subst pre.
    rewrite Next_at_end in Hcur.
    destruct fuel as [|fuel]; [cbn in Hfuel; lia|].
    cbn [Parse_loop fold_left]. unfold bind, current. rewrite Hcur.
    eexists. reflexivity.
  - inversion Hall as [|? ? Hit Hitems]; subst. cbn [spaced append] in *.
    rewrite (Next_space _ pre (render it ++ spaced items) eq_refl) in Hcur, Hpos.
    replace (String.length pre + 1) with (String.length (pre ++ String " " ""))
      in Hcur, Hpos by (rewrite string_length_app; reflexivity).
    rewrite (Next_item _ (pre ++ String " " "") it (spaced items)) in Hcur, Hpos;
      try (now rewrite string_app_assoc); try exact Hit;
      try apply ends_word_spaced.
    cbn [fst snd] in Hcur, Hpos.
    destruct fuel as [|fuel]; [lia|].
    destruct (Parse_loop_item (pre ++ String " " (render it ++ spaced items))
                (pre ++ String " " "") it items fuel expr p)
      as (p1 & Hstep & Hcur1 & Hpos1);
      try assumption; [now rewrite string_app_assoc|].
    rewrite Hstep. cbn [fold_left].
    apply (IH _ ((pre ++ String " " "") ++ render it)); try assumption.
    + now rewrite !string_app_assoc.
    + cbn [List.length] in Hfuel. lia.
Qed.

End FlatQueries.

(** X24.  A flat query of bare words ([is_bare_word]: a word that does
    not begin with [OR], unless a letter or a digit follows that [OR]),
    each plain or behind [+] or [-] and separated by single spaces,
    parses to the plain and the [+]
    words as required terms and the [-] words as excluded terms, each in
    the order of the query, with nothing optional and no raw expression;
    so a query of plain words converts to the words joined by
    [" AND "]. *)
Theorem flat_query_is_partitioned (items : list Item) :
  items <> [] ->
  Forall (fun it => is_bare_word (item_word it) = true) items ->
  ParseSearchExpression (String.concat " " (map render items))
  = Some (Value (mkSearchExpression (required_of items) (excluded_of items) [] ""))
  /\ ConvertSearchExpression (String.concat " " (map render items))
     = Some (Value (String.concat " AND "
                      (required_of items
                       ++ map (fun term => "NOT " ++ term) (excluded_of items)))).
Proof.
  intros Hne Hall. destruct items as [|it items]; [congruence|].
  inversion Hall as [|? ? Hit Hitems]; subst.
  set (input := String.concat " " (map render (it :: items))).
  assert (Hinput : input = "" ++ render it ++ spaced items)
    by apply concat_spaced.
  assert (Hparse : ParseSearchExpression input
                   = Some (Value (fold_left add_item (it :: items)
                                    empty_expression))).
  { unfold ParseSearchExpression.
    assert (Hnonempty : empty input = false).
    { rewrite Hinput. destruct it as [[|c w] | w | w];
        try reflexivity; discriminate. }
    rewrite Hnonempty. unfold new_Parser. rewrite Advance_after.
    pose proof (Next_item input "" it (spaced items) Hinput Hit
                  (ends_word_spaced items)) as Hnext.
    cbn [String.length Nat.add] in Hnext.
    unfold Parse, parse_fuel. rewrite Nat.add_comm. cbn [Nat.add].
    destruct (Parse_loop_item input "" it items (S (String.length input))
                empty_expression
                (after_Advance input (mkParser 0 (mkToken kEnd "") 0)))
      as (p1 & Hstep & Hcur1 & Hpos1); try assumption;
      try (unfold after_Advance; cbn [current_ tokenizer_pos];
           now rewrite Hnext).
    rewrite Hstep.
    destruct (Parse_loop_items items input ("" ++ render it)
                (add_item empty_expression it) p1 (S (String.length input)))
      as (p' & Hrun); try assumption.
    { rewrite Hinput. cbn [append]. rewrite string_length_app.
      pose proof (spaced_length items). lia. }
    rewrite Hrun. reflexivity. }
  rewrite fold_add_item in Hparse.
  cbn [empty_expression required_terms excluded_terms optional_terms
       raw_expression app] in Hparse.
  split; [exact Hparse|].
  unfold ConvertSearchExpression. rewrite Hparse.
  pose proof (ParseSearchExpression_ok _ _ Hparse) as Hok.
  rewrite (proj1 (ToQueryString_plain _ Hok)).
  unfold plain_parts. cbn [required_terms excluded_terms raw_expression empty].
  now rewrite app_nil_r.
Qed.

Lemma flat_query_is_partitioned_witness :
  [Bare "golang"; Excluded "ORACLE"; Required "C#"] <> []
  /\ Forall (fun it => is_bare_word (item_word it) = true)
            [Bare "golang"; Excluded "ORACLE"; Required "C#"]
  /\ ParseSearchExpression "golang -ORACLE +C#"
     = Some (Value (mkSearchExpression ["golang"; "C#"] ["ORACLE"] [] ""))
  /\ ConvertSearchExpression "golang -ORACLE +C#"
     = Some (Value "golang AND C# AND NOT ORACLE").
Proof.
  assert (Hne : [Bare "golang"; Excluded "ORACLE"; Required "C#"] <> [])
    by discriminate.
  assert (Hall : Forall (fun it => is_bare_word (item_word it) = true)
                        [Bare "golang"; Excluded "ORACLE"; Required "C#"])
    by (repeat constructor).
  split; [exact Hne|]. split; [exact Hall|].
  exact (flat_query_is_partitioned _ Hne Hall).
Defined.

(** ** OR chains *)

Section OrChains.

#[local] Open Scope nat_scope.

Lemma concat_or_spaced : forall words w,
  String.concat " OR " (w :: words) = w ++ or_spaced words.
Proof.
  induction words as [|w' words IH]; intros w.
  - cbn. now rewrite string_app_empty_r.
  - change (String.concat " OR " (w :: w' :: words))
      with (w ++ " OR " ++ String.concat " OR " (w' :: words)).
    now rewrite IH.
Qed.

Lemma ends_word_or_spaced (words : list string) : ends_word (or_spaced words).
Proof.
  destruct words as [|w words]; [now left|].
  right. cbn [or_spaced append]. do 2 eexists. split; reflexivity.
Qed.

Lemma or_spaced_length (words : list string) :
  List.length words <= String.length (or_spaced words).
Proof.
  induction words as [|w words IH]; [apply Nat.le_refl|].
  cbn [or_spaced append List.length String.length].
  rewrite string_length_app. lia.
Qed.

(** The tokenizer at the operator between two words. *)
Lemma Next_or (input pre tail : string) :
  input = pre ++ " OR " ++ tail ->
  Next input (String.length pre)
  = (mkToken kOr "OR", String.length (pre ++ " OR")).
Proof.
  intros Hinput. cbn [append] in Hinput.
  rewrite (Next_space input pre _ Hinput).
  assert (Hinput' : input = (pre ++ String " " "") ++ String "O" "R"
                            ++ String " " tail)
    by (rewrite Hinput; now rewrite string_app_assoc).
  assert (Hlen : String.length (pre ++ String " " "") = String.length pre + 1)
    by (rewrite string_length_app; reflexivity).
  assert (Hsize : String.length input = String.length pre + 4 + String.length tail).
  { rewrite Hinput, string_length_app. cbn [String.length]. lia. }
  pose proof (SkipWhitespace_word input (pre ++ String " " "") "O" "R"
                (String " " tail) Hinput' eq_refl eq_refl
                ltac:(right; do 2 eexists; split; reflexivity)) as Hskip.
  rewrite Hlen in Hskip. unfold Next. rewrite Hskip.
  replace (String.length input <=? String.length pre + 1) with false
    by (symmetry; apply Nat.leb_gt; lia).
  assert (Hchar : char_at input (String.length pre + 1) = "O"%char).
  { rewrite Hinput', <- Hlen. apply char_at_app_0. }
  rewrite Hchar. cbn [Ascii.eqb Bool.eqb dquote]. cbv zeta.
  assert (Hsub : String.substring (String.length pre + 1) 2 input = "OR").
  { rewrite Hinput', <- Hlen, <- (Nat.add_0_r (String.length _)).
    rewrite substring_app_r. reflexivity. }
  assert (Hprev : byte_at input (String.length pre + 1 - 1) = 32%N).
  { replace (String.length pre + 1 - 1) with (String.length pre + 0) by lia.
    rewrite Hinput, byte_at_app_r. reflexivity. }
  assert (Hnext : byte_at input (String.length pre + 1 + 2) = 32%N).
  { replace (String.length pre + 1 + 2) with (String.length pre + 3) by lia.
    rewrite Hinput, byte_at_app_r. reflexivity. }
  rewrite Hsub, Hprev, Hnext.
  replace (String.length pre + 1 + 2 <=? String.length input) with true
    by (symmetry; apply Nat.leb_le; lia).
  change (isalnum 32) with false. rewrite !Bool.andb_false_r.
  cbn [andb negb String.eqb Ascii.eqb Bool.eqb].
  f_equal. rewrite string_length_app. cbn [String.length]. lia.
Qed.

Variable input : string.

(** From the operator on, the loop of [CaptureOrExpression] collects the
    chain. *)
Lemma CaptureOr_loop_chain : forall words pre oss p fuel,
  input = pre ++ or_spaced words ->
  Forall (fun w => is_bare_word w = true) words ->
  current_ p = fst (Next input (String.length pre)) ->
  tokenizer_pos p = snd (Next input (String.length pre)) ->
  List.length words + 1 <= fuel ->
  exists p',
    CaptureOr_loop input fuel oss p = Some (oss ++ or_spaced words, p')
    /\ type (current_ p') = kEnd.
Proof.
  induction words as [|w words IH]; intros pre oss p fuel Hinput Hall Hcur Hpos Hfuel.
  - cbn [or_spaced] in Hinput. rewrite string_app_empty_r in Hinput.
    rewrite <- Hinput, Next_at_end in Hcur.
    destruct fuel as [|fuel]; [cbn in Hfuel; lia|].
    cbn [CaptureOr_loop or_spaced]. unfold bind, current. rewrite Hcur.
    cbn [type TokenType_eqb]. rewrite string_app_empty_r.
    exists p. split; [reflexivity | now rewrite Hcur].
  - apply Forall_cons_iff in Hall as [Hw Hwords]. cbn [or_spaced] in Hinput.
    rewrite (Next_or input pre (w ++ or_spaced words) Hinput) in Hcur, Hpos.
    cbn [fst snd] in Hcur, Hpos.
    assert (Hinput1 : input = (pre ++ " OR") ++ String " " (w ++ or_spaced words))
      by (rewrite Hinput; now rewrite !string_app_assoc).
    assert (Hinput2 : input = (pre ++ " OR ") ++ w ++ or_spaced words)
      by (rewrite Hinput; now rewrite !string_app_assoc).
    assert (Hnext : Next input (tokenizer_pos p)
                    = (mkToken kTerm w, String.length ((pre ++ " OR ") ++ w))).
    { rewrite Hpos, (Next_space input _ _ Hinput1).
      replace (String.length (pre ++ " OR") + 1)
        with (String.length (pre ++ " OR "))
        by (rewrite !string_length_app; cbn [String.length]; lia).
      rewrite (Next_word input (pre ++ " OR ") w (or_spaced words) Hinput2 Hw
                 (ends_word_or_spaced words)).
      now rewrite <- string_length_app. }
    destruct fuel as [|fuel]; [lia|].
    cbn [CaptureOr_loop]. unfold bind at 1. unfold current at 1.
    rewrite Hcur. cbn [type TokenType_eqb].
    unfold bind at 1. rewrite Advance_after.
    assert (Hcur1 : current_ (after_Advance input p) = mkToken kTerm w)
      by (unfold after_Advance; cbn [current_]; now rewrite Hnext).
    unfold bind at 1. unfold current at 1. rewrite Hcur1. cbn [type value].
    unfold bind at 1. rewrite Advance_after.
    destruct (IH ((pre ++ " OR ") ++ w) ((oss ++ " OR ") ++ w)
                 (after_Advance input (after_Advance input p)) fuel)
      as (p' & Hrun & Hend); try assumption.
    + now rewrite string_app_assoc.
    + unfold after_Advance. cbn [current_ tokenizer_pos]. now rewrite Hnext.
    + unfold after_Advance. cbn [current_ tokenizer_pos]. now rewrite Hnext.
    + cbn [List.length] in Hfuel. lia.
    + exists p'. split; [|exact Hend]. rewrite Hrun. cbn [or_spaced].
      now rewrite !string_app_assoc.
Qed.

End OrChains.

(** X25.  A chain of two or more bare words joined by [" OR "] is
    captured as it is written: it parses to the expression whose raw
    expression is the input and that has no terms, and converts to the
    input in parentheses. *)
Theorem or_chain_is_captured (w1 w2 : string) (words : list string) :
  Forall (fun w => is_bare_word w = true) (w1 :: w2 :: words) ->
  ParseSearchExpression (String.concat " OR " (w1 :: w2 :: words))
  = Some (Value (mkSearchExpression [] [] []
                   (String.concat " OR " (w1 :: w2 :: words))))
  /\ ConvertSearchExpression (String.concat " OR " (w1 :: w2 :: words))
     = Some (Value ("(" ++ String.concat " OR " (w1 :: w2 :: words) ++ ")")).
Proof.
  intros Hall. inversion Hall as [|? ? Hw1 Hrest]; subst.
  set (input := String.concat " OR " (w1 :: w2 :: words)).
  assert (Hinput : input = "" ++ w1 ++ or_spaced (w2 :: words))
    by apply concat_or_spaced.
  assert (Hnonempty : empty input = false).
  { rewrite Hinput. destruct w1; [discriminate | reflexivity]. }
  assert (Hparse : ParseSearchExpression input
                   = Some (Value (mkSearchExpression [] [] [] input))).
  { unfold ParseSearchExpression. rewrite Hnonempty.
    unfold new_Parser. rewrite Advance_after.
    pose proof (Next_word input "" w1 (or_spaced (w2 :: words)) Hinput Hw1
                  (ends_word_or_spaced _)) as Hfirst.
    cbn [String.length Nat.add] in Hfirst.
    set (p0 := after_Advance input (mkParser 0 (mkToken kEnd "") 0)).
    assert (Hcur0 : current_ p0 = mkToken kTerm w1)
      by (unfold p0, after_Advance; cbn [current_ tokenizer_pos];
          now rewrite Hfirst).
    assert (Hpos0 : tokenizer_pos p0 = String.length w1)
      by (unfold p0, after_Advance; cbn [current_ tokenizer_pos];
          now rewrite Hfirst).
    assert (Hor : Next input (String.length w1)
                  = (mkToken kOr "OR", String.length (w1 ++ " OR"))).
    { apply (Next_or input w1 (w2 ++ or_spaced words)). exact Hinput. }
    unfold Parse, parse_fuel. rewrite Nat.add_comm. cbn [Nat.add Parse_loop].
    unfold bind at 1. unfold current at 1. rewrite Hcur0. cbn [type].
    unfold bind at 1. rewrite LooksLikeOrExpression_restores.
    unfold next_token. rewrite Hpos0, Hor. cbn [fst type TokenType_eqb].
    unfold bind at 1. unfold CaptureOrExpression, bind at 1. unfold current at 1.
    cbn [current_]. rewrite Hcur0. cbn [type value TokenType_eqb].
    unfold bind at 1. rewrite Advance_after.
    destruct (CaptureOr_loop_chain input (w2 :: words) w1 w1
                (after_Advance input
                   (mkParser (String.length w1) (mkToken kTerm w1)
                             (String.length w1)))
                (S (String.length input)))
      as (p' & Hrun & Hend); try assumption.
    { unfold after_Advance. now cbn [current_ tokenizer_pos]. }
    { unfold after_Advance. now cbn [current_ tokenizer_pos]. }
    { rewrite Hinput. cbn [append]. rewrite string_length_app.
      pose proof (or_spaced_length (w2 :: words)). lia. }
    rewrite Hrun. cbn [Parse_loop]. unfold bind at 1. unfold current at 1.
    rewrite Hend. unfold ret. cbn [append] in Hinput. rewrite <- Hinput.
    reflexivity. }
  split; [exact Hparse|].
  unfold ConvertSearchExpression. rewrite Hparse.
  unfold ToQueryString. cbn [required_terms excluded_terms raw_expression
                             required_loop fold_left]. 
  rewrite Hnonempty. reflexivity.
Qed.

Lemma or_chain_is_captured_witness :
  Forall (fun w => is_bare_word w = true) ["golang"; "python"; "rust"]
  /\ ConvertSearchExpression "golang OR python OR rust"
     = Some (Value "(golang OR python OR rust)").
Proof.
  assert (Hall : Forall (fun w => is_bare_word w = true)
                        ["golang"; "python"; "rust"])
    by (repeat constructor).
  split; [exact Hall|].
  exact (proj2 (or_chain_is_captured _ _ _ Hall)).
Defined.

(** ** Groups *)

Section Groups.

#[local] Open Scope nat_scope.

(** The tokenizer at a parenthesis. *)
Lemma Next_paren (input pre : string) (c : ascii) (tail : string) :
  input = pre ++ String c tail ->
  c = "("%char \/ c = ")"%char ->
  Next input (String.length pre)
  = (mkToken (if (c =? "(")%char then kLParen else kRParen) "",
     String.length pre + 1).
Proof.
  intros Hinput Hc.
  assert (Hsize : String.length input = String.length pre + S (String.length tail))
    by (subst input; now rewrite string_length_app).
  assert (Hin : String.length pre < String.length input) by lia.
  assert (Hchar : char_at input (String.length pre) = c)
    by (subst input; apply char_at_app_0).
  assert (Hfw : IsFullWidthSpace input (String.length pre) = false).
  { subst input. rewrite <- (Nat.add_0_r (String.length pre)).
    rewrite IsFullWidthSpace_app. unfold IsFullWidthSpace.
    destruct (_ <=? _); [reflexivity|]. destruct Hc as [-> | ->]; reflexivity. }
  assert (Hskip : SkipWhitespace input (String.length pre) = String.length pre).
  { unfold SkipWhitespace.
    destruct (String.length input - String.length pre) as [|fuel];
      [reflexivity|].
    cbn [SkipWhitespace_loop]. rewrite Hfw, (byte_at_char_at input _ Hin), Hchar.
    destruct (_ <? _); [|reflexivity]. destruct Hc as [-> | ->]; reflexivity. }
  unfold Next. rewrite Hskip, Hchar.
  replace (String.length input <=? String.length pre) with false
    by (symmetry; apply Nat.leb_gt; lia).
  destruct Hc as [-> | ->]; reflexivity.
Qed.

Lemma ends_word_written (js : list Joined) : ends_word (written js ++ ")").
Proof.
  right. destruct js as [|[w | w] js]; cbn [written append];
    do 2 eexists; split; reflexivity.
Qed.

Lemma written_length (js : list Joined) :
  Forall (fun j => is_bare_word (joined_word j) = true) js ->
  2 * List.length js <= String.length (written js).
Proof.
  induction 1 as [|j js Hj _ IH]; [apply Nat.le_refl|].
  assert (Hne : 1 <= String.length (joined_word j)).
  { destruct (joined_word j); [discriminate Hj | cbn [String.length]; lia]. }
  destruct j as [w | w]; cbn [written append List.length String.length joined_word] in *;
    rewrite string_length_app; lia.
Qed.

Variable input : string.

(** Inside a group, the loop of [CaptureParenExpression] writes the
    words one behind the other, and [" OR "] where it stands. *)
Lemma CaptureParen_loop_group : forall js pre oss p fuel,
  input = pre ++ written js ++ ")" ->
  Forall (fun j => is_bare_word (joined_word j) = true) js ->
  current_ p = fst (Next input (String.length pre)) ->
  tokenizer_pos p = snd (Next input (String.length pre)) ->
  2 * List.length js + 1 <= fuel ->
  exists p',
    CaptureParen_loop input fuel oss 1 p = Some (oss ++ captured js ++ ")", p')
    /\ type (current_ p') = kEnd.
Proof.
  induction js as [|j js IH]; intros pre oss p fuel Hinput Hall Hcur Hpos Hfuel.
  - cbn [written append] in Hinput.
    rewrite (Next_paren input pre ")" "" Hinput ltac:(now right)) in Hcur, Hpos.
    cbn [fst snd Ascii.eqb Bool.eqb] in Hcur, Hpos.
    destruct fuel as [|fuel]; [cbn in Hfuel; lia|].
    cbn [CaptureParen_loop captured append]. unfold bind at 1. unfold current at 1.
    rewrite Hcur. cbn [type]. change (0 <? 1 - 1)%Z with false. cbv iota.
    unfold bind at 1. rewrite Advance_after. unfold ret.
    eexists. split; [reflexivity|].
    unfold after_Advance. cbn [current_]. rewrite Hpos.
    replace (String.length pre + 1) with (String.length input)
      by (rewrite Hinput, string_length_app; reflexivity).
    now rewrite Next_at_end.
  - apply Forall_cons_iff in Hall as [Hj Hjs].
    destruct j as [w | w]; cbn [written captured joined_word] in *.
    + (* juxtaposed *)
      assert (Hinput1 : input = (pre ++ " ") ++ w ++ written js ++ ")")
        by (rewrite Hinput; now rewrite !string_app_assoc).
      assert (Hnext : Next input (String.length pre)
                      = (mkToken kTerm w, String.length ((pre ++ " ") ++ w))).
      { rewrite (Next_space input pre (w ++ written js ++ ")")).
        - replace (String.length pre + 1) with (String.length (pre ++ " "))
            by (rewrite string_length_app; reflexivity).
          rewrite (Next_word input (pre ++ " ") w (written js ++ ")") Hinput1 Hj
                     (ends_word_written js)).
          now rewrite <- string_length_app.
        - rewrite Hinput. now rewrite !string_app_assoc. }
      rewrite Hnext in Hcur, Hpos. cbn [fst snd] in Hcur, Hpos.
      destruct fuel as [|fuel]; [lia|].
      cbn [CaptureParen_loop]. unfold bind at 1. unfold current at 1.
      rewrite Hcur. cbn [type value]. change (0 <? 1)%Z with true. cbv iota.
      unfold bind at 1. rewrite Advance_after.
      destruct (IH ((pre ++ " ") ++ w) (oss ++ w) (after_Advance input p) fuel)
        as (p' & Hrun & Hend); try assumption.
      * now rewrite string_app_assoc.
      * unfold after_Advance. cbn [current_ tokenizer_pos]. now rewrite Hpos.
      * unfold after_Advance. cbn [current_ tokenizer_pos]. now rewrite Hpos.
      * cbn [List.length] in Hfuel. lia.
      * exists p'. split; [|exact Hend]. rewrite Hrun.
        now rewrite !string_app_assoc.
    + (* alternative *)
      assert (Hinput0 : input = pre ++ " OR " ++ w ++ written js ++ ")")
        by (rewrite Hinput; now rewrite !string_app_assoc).
      rewrite (Next_or input pre (w ++ written js ++ ")") Hinput0) in Hcur, Hpos.
      cbn [fst snd] in Hcur, Hpos.
      assert (Hinput1 : input = (pre ++ " OR") ++ String " " (w ++ written js ++ ")"))
        by (rewrite Hinput0; now rewrite !string_app_assoc).
      assert (Hinput2 : input = (pre ++ " OR ") ++ w ++ written js ++ ")")
        by (rewrite Hinput0; now rewrite !string_app_assoc).
      assert (Hnext : Next input (tokenizer_pos p)
                      = (mkToken kTerm w, String.length ((pre ++ " OR ") ++ w))).
      { rewrite Hpos, (Next_space input _ _ Hinput1).
        replace (String.length (pre ++ " OR") + 1)
          with (String.length (pre ++ " OR "))
          by (rewrite !string_length_app; cbn [String.length]; lia).
        rewrite (Next_word input (pre ++ " OR ") w (written js ++ ")") Hinput2 Hj
                   (ends_word_written js)).
        now rewrite <- string_length_app. }
      assert (Hcur1 : current_ (after_Advance input p) = mkToken kTerm w)
        by (unfold after_Advance; cbn [current_]; now rewrite Hnext).
      assert (Hpos1 : tokenizer_pos (after_Advance input p)
                      = String.length ((pre ++ " OR ") ++ w))
        by (unfold after_Advance; cbn [tokenizer_pos]; now rewrite Hnext).
      destruct fuel as [|[|fuel]]; try (cbn [List.length] in Hfuel; lia).
      cbn [CaptureParen_loop]. unfold bind at 1. unfold current at 1.
      rewrite Hcur. cbn [type value]. change (0 <? 1)%Z with true. cbv iota.
      unfold bind at 1. rewrite Advance_after.
      unfold bind at 1. unfold current at 1.
      rewrite Hcur1. cbn [type value]. cbv iota.
      unfold bind at 1. rewrite Advance_after.
      destruct (IH ((pre ++ " OR ") ++ w) ((oss ++ " OR ") ++ w)
                   (after_Advance input (after_Advance input p)) fuel)
        as (p' & Hrun & Hend); try assumption.
      * now rewrite string_app_assoc.
      * unfold after_Advance at 1. cbn [current_]. now rewrite Hpos1.
      * unfold after_Advance at 1. cbn [tokenizer_pos]. now rewrite Hpos1.
      * cbn [List.length] in Hfuel. lia.
      * exists p'. split; [|exact Hend]. rewrite Hrun.
        now rewrite !string_app_assoc.
Qed.

End Groups.

(** X26.  A group of bare words in parentheses is captured as raw
    expression with [" OR "] where it stands, but without the spaces
    between juxtaposed words: the words that a space separates are
    written one behind the other. *)
Theorem group_is_captured (w : string) (js : list Joined) :
  is_bare_word w = true ->
  Forall (fun j => is_bare_word (joined_word j) = true) js ->
  ParseSearchExpression ("(" ++ w ++ written js ++ ")")
  = Some (Value (mkSearchExpression [] [] [] ("(" ++ w ++ captured js ++ ")"))).
Proof.
  intros Hw Hjs.
  set (input := "(" ++ w ++ written js ++ ")").
  assert (Hinput0 : input = "" ++ String "(" (w ++ written js ++ ")"))
    by reflexivity.
  assert (Hinput1 : input = "(" ++ w ++ written js ++ ")") by reflexivity.
  assert (Hinput2 : input = ("(" ++ w) ++ written js ++ ")")
    by (unfold input; now rewrite !string_app_assoc).
  assert (Hlen : 2 * List.length js + 3 <= String.length input).
  { unfold input. cbn [append String.length]. rewrite !string_length_app.
    pose proof (written_length js Hjs).
    destruct w; [discriminate Hw | cbn [String.length]; lia]. }
  pose proof (Next_paren input "" "(" _ Hinput0 ltac:(now left)) as Hfirst.
  cbn [String.length Nat.add Ascii.eqb Bool.eqb] in Hfirst.
  pose proof (Next_word input "(" w (written js ++ ")") Hinput1 Hw
                (ends_word_written js)) as Hsecond.
  cbn [String.length] in Hsecond.
  set (p0 := after_Advance input (mkParser 0 (mkToken kEnd "") 0)).
  assert (Hcur0 : current_ p0 = mkToken kLParen "")
    by (unfold p0, after_Advance; cbn [current_ tokenizer_pos]; now rewrite Hfirst).
  assert (Hpos0 : tokenizer_pos p0 = 1)
    by (unfold p0, after_Advance; cbn [current_ tokenizer_pos]; now rewrite Hfirst).
  assert (Hcur1 : current_ (after_Advance input p0) = mkToken kTerm w)
    by (unfold after_Advance at 1; cbn [current_]; now rewrite Hpos0, Hsecond).
  assert (Hpos1 : tokenizer_pos (after_Advance input p0) = 1 + String.length w)
    by (unfold after_Advance at 1; cbn [tokenizer_pos]; now rewrite Hpos0, Hsecond).
  destruct (CaptureParen_loop_group input js ("(" ++ w) ("(" ++ w)
              (after_Advance input (after_Advance input p0))
              (String.length input - 1))
    as (p' & Hrun & Hend); try assumption.
  { unfold after_Advance at 1. cbn [current_]. now rewrite Hpos1. }
  { unfold after_Advance at 1. cbn [tokenizer_pos]. now rewrite Hpos1. }
  { lia. }
  unfold ParseSearchExpression. change (empty input) with false.
  unfold new_Parser. rewrite Advance_after. fold p0.
  unfold Parse, parse_fuel.
  replace (String.length input + 2)
    with (S (S (S (String.length input - 1)))) by lia.
  cbn [Parse_loop]. unfold bind at 1. unfold current at 1.
  rewrite Hcur0. cbn [type].
  unfold bind at 1. unfold CaptureParenExpression, bind at 1. unfold current at 1.
  rewrite Hcur0. cbn [type TokenType_eqb negb CaptureParen_loop].
  unfold bind at 1. unfold current at 1. rewrite Hcur0. cbn [type].
  change (0 <? 0 + 1)%Z with true. cbv iota.
  unfold bind at 1. rewrite Advance_after.
  unfold bind at 1. unfold current at 1. rewrite Hcur1. cbn [type value].
  change (0 <? 0 + 1)%Z with true. cbv iota.
  unfold bind at 1. rewrite Advance_after.
  change (0 + 1)%Z with 1%Z. change ("" ++ "(") with "(".
  rewrite Hrun. cbn [append empty].
  unfold bind at 1. unfold current at 1. rewrite Hend. reflexivity.
Qed.

Lemma group_is_captured_witness :
  is_bare_word "red" = true
  /\ Forall (fun j => is_bare_word (joined_word j) = true)
            [Alternative "blue"; Juxtaposed "car"]
  /\ ParseSearchExpression "(red OR blue car)"
     = Some (Value (mkSearchExpression [] [] [] "(red OR bluecar)")).
Proof.
  assert (Hw : is_bare_word "red" = true) by reflexivity.
  assert (Hjs : Forall (fun j => is_bare_word (joined_word j) = true)
                       [Alternative "blue"; Juxtaposed "car"])
    by (repeat constructor).
  split; [exact Hw|]. split; [exact Hjs|].
  exact (group_is_captured "red" _ Hw Hjs).
Defined.

(** ** The end token *)

Section EndToken.

#[local] Open Scope nat_scope.

Lemma isspace_whitespace (n : N) :
  isspace n = existsb (N.eqb n) ascii_whitespace.
Proof.
  unfold isspace, ascii_whitespace. cbn [existsb].
  destruct (N.eqb_spec n 32); destruct (N.eqb_spec n 9);
    destruct (N.eqb_spec n 10); destruct (N.eqb_spec n 11);
    destruct (N.eqb_spec n 12); destruct (N.eqb_spec n 13);
    destruct (N.leb_spec 9 n); destruct (N.leb_spec n 13);
    try reflexivity; lia.
Qed.

Lemma take_drop : forall pos input,
  pos <= String.length input ->
  exists pre, input = pre ++ drop pos input /\ String.length pre = pos.
Proof.
  induction pos as [|pos IH]; intros input Hpos.
  - exists "". split; reflexivity.
  - destruct input as [|c input]; [simpl in Hpos; lia|].
    destruct (IH input) as (pre & Heq & Hlen); [simpl in Hpos; lia|].
    exists (String c pre). cbn [append drop String.length].
    split; [now rewrite <- Heq | now rewrite Hlen].
Qed.

(** [SkipWhitespace] reaches the end of the input exactly when only
    spaces are left. *)
Lemma SkipWhitespace_loop_only_spaces : forall fuel s pre,
  String.length s <= fuel ->
  String.length (pre ++ s) <= SkipWhitespace_loop (pre ++ s) fuel (String.length pre)
  <-> only_spaces s = true.
Proof.
  induction fuel as [fuel IH] using lt_wf_ind. intros s pre Hfuel.
  destruct s as [|c rest].
  { rewrite string_app_empty_r. split; [reflexivity | intros _].
    apply (SkipWhitespace_loop_ge pre fuel (String.length pre)). }
  destruct fuel as [|fuel]; [simpl in Hfuel; lia|].
  cbn [SkipWhitespace_loop].
  assert (Hsize : String.length (pre ++ String c rest)
                  = String.length pre + S (String.length rest))
    by now rewrite string_length_app.
  replace (String.length pre <? String.length (pre ++ String c rest)) with true
    by (symmetry; apply Nat.ltb_lt; lia).
  assert (Hfw0 : IsFullWidthSpace (pre ++ String c rest) (String.length pre)
                 = IsFullWidthSpace (String c rest) 0).
  { pose proof (IsFullWidthSpace_app pre (String c rest) 0) as H.
    now rewrite Nat.add_0_r in H. }
  assert (Hb0 : byte_at (pre ++ String c rest) (String.length pre) = N_of_ascii c).
  { pose proof (byte_at_app_r pre (String c rest) 0) as H.
    now rewrite Nat.add_0_r in H. }
  rewrite Hfw0, Hb0, isspace_whitespace. clear Hfw0 Hb0.
  assert (Hstep1 :
            String.length (pre ++ String c rest)
            <= SkipWhitespace_loop (pre ++ String c rest) fuel
                 (String.length pre + 1)
            <-> only_spaces rest = true).
  { replace (pre ++ String c rest) with ((pre ++ String c "") ++ rest)
      by now rewrite string_app_assoc.
    replace (String.length pre + 1) with (String.length (pre ++ String c ""))
      by (rewrite string_length_app; reflexivity).
    apply IH; [lia | simpl in Hfuel; lia]. }
  destruct rest as [|d [|e rest']].
  - (* one byte left *)
    change (IsFullWidthSpace (String c "") 0) with false. cbn [only_spaces].
    rewrite Bool.orb_false_r.
    destruct (existsb (N.eqb (N_of_ascii c)) ascii_whitespace).
    + rewrite Hstep1. cbn [only_spaces andb]. tauto.
    + cbn [andb]. split; [lia | discriminate].
  - (* two bytes left *)
    change (IsFullWidthSpace (String c (String d "")) 0) with false.
    cbn [only_spaces] in *. rewrite !Bool.orb_false_r in *.
    destruct (existsb (N.eqb (N_of_ascii c)) ascii_whitespace).
    + rewrite Hstep1. cbn [andb]. tauto.
    + cbn [andb]. split; [lia | discriminate].
  - (* three bytes or more *)
    assert (Hfw : IsFullWidthSpace (String c (String d (String e rest'))) 0
                  = (N_of_ascii c =? 0xE3)%N && (N_of_ascii d =? 0x80)%N
                    && (N_of_ascii e =? 0x80)%N).
    { unfold IsFullWidthSpace. cbn [String.length Nat.add].
      destruct (Nat.leb_spec (S (S (S (String.length rest')))) 2); [lia|].
      reflexivity. }
    rewrite Hfw.
    assert (Hstep3 :
              String.length (pre ++ String c (String d (String e rest')))
              <= SkipWhitespace_loop (pre ++ String c (String d (String e rest')))
                   fuel (String.length pre + 3)
              <-> only_spaces rest' = true).
    { replace (pre ++ String c (String d (String e rest')))
        with ((pre ++ String c (String d (String e ""))) ++ rest')
        by now rewrite string_app_assoc.
      replace (String.length pre + 3)
        with (String.length (pre ++ String c (String d (String e ""))))
        by (rewrite string_length_app; reflexivity).
      apply IH; [lia | simpl in Hfuel; lia]. }
    change (only_spaces (String c (String d (String e rest'))))
      with ((existsb (N.eqb (N_of_ascii c)) ascii_whitespace
             && only_spaces (String d (String e rest')))
            || ((N_of_ascii c =? 0xE3)%N && (N_of_ascii d =? 0x80)%N
                && (N_of_ascii e =? 0x80)%N && only_spaces rest')).
    destruct ((N_of_ascii c =? 0xE3)%N && (N_of_ascii d =? 0x80)%N
              && (N_of_ascii e =? 0x80)%N) eqn:Hpattern.
    + assert (Hc : existsb (N.eqb (N_of_ascii c)) ascii_whitespace = false).
      { apply Bool.andb_true_iff in Hpattern as [Hpattern _].
        apply Bool.andb_true_iff in Hpattern as [Hc _].
        apply N.eqb_eq in Hc. rewrite Hc. reflexivity. }
      rewrite Hc, Hstep3. cbn [andb orb]. tauto.
    + cbn [andb]. rewrite Bool.orb_false_r.
      destruct (existsb (N.eqb (N_of_ascii c)) ascii_whitespace).
      * rewrite Hstep1. cbn [andb]. tauto.
      * cbn [andb]. split; [lia | discriminate].
Qed.

Lemma Next_end_only_spaces (input : string) (pos : nat) :
  pos <= String.length input ->
  type (fst (Next input pos)) = kEnd <-> only_spaces (drop pos input) = true.
Proof.
  intros Hpos. rewrite Next_end.
  destruct (take_drop pos input Hpos) as (pre & Heq & Hlen).
  pose proof (length_drop pos input) as Htail.
  remember (drop pos input) as tail eqn:Hdrop. clear Hdrop.
  unfold SkipWhitespace. subst pos input.
  apply SkipWhitespace_loop_only_spaces. lia.
Qed.

End EndToken.

(** X13.  [Tokenizer::Next] keeps the cursor inside the input and never
    moves it back; it moves it forward whenever it returns a token other
    than the end; and it returns the end token exactly when only spaces
    are left behind the cursor: ASCII whitespace bytes and full-width
    spaces. *)
Theorem Next_cursor (input : string) (pos : nat) :
  (pos <= String.length input)%nat ->
  (pos <= snd (Next input pos) <= String.length input)%nat
  /\ (type (fst (Next input pos)) <> kEnd -> (pos < snd (Next input pos))%nat)
  /\ (type (fst (Next input pos)) = kEnd
      <-> only_spaces (drop pos input) = true).
Proof.
  intros Hpos.
  destruct (Next_progress input pos) as [Hge Hlt].
  split; [split; [exact Hge | apply Next_le, Hpos]|].
  split; [intros Hne; apply Hlt, Hne | apply Next_end_only_spaces, Hpos].
Qed.

Lemma Next_cursor_witness :
  (2 <= String.length "a OR b")%nat
  /\ (2 <= snd (Next "a OR b" 2) <= String.length "a OR b")%nat
  /\ (2 < snd (Next "a OR b" 2))%nat
  /\ only_spaces (drop 2 "a OR b") = false.
Proof.
  assert (Hpos : (2 <= String.length "a OR b")%nat) by (simpl; lia).
  split; [exact Hpos|].
  destruct (Next_cursor "a OR b" 2 Hpos) as (Hin & Hfwd & Hend).
  split; [exact Hin|].
  assert (Hne : type (fst (Next "a OR b" 2)) <> kEnd) by (vm_compute; discriminate).
  split; [apply Hfwd, Hne|].
  destruct (only_spaces (drop 2 "a OR b")) eqn:Hspaces; [|reflexivity].
  exfalso. apply Hne, Hend. reflexivity.
Defined.

(** ** Chains that are not completed *)

Section BrokenChains.

#[local] Open Scope nat_scope.




Variable input : string.



End BrokenChains.

Section BrokenChainResults.

#[local] Open Scope nat_scope.


End BrokenChainResults.



